(** * Effect layers of the LED sculpture (led/effects.py)

    A shallow embedding of the stateful effect layers of [led/effects.py]:
    the headset-responsive smoothing layer, the travelling impulses of
    [ImpulseLayer2], the lightning storm with its bolts, and the firefly
    swarm.

    Conventions.
    - Python floats are idealised as exact numbers: rationals ([Q]) wherever
      the code only adds, multiplies, divides and compares, so that the
      model runs; reals ([R]) where it calls [math.cos] or [pow] with a
      fractional exponent.
    - [time.time()] and [params.time] are passed in as arguments.
    - The process-wide generator behind [random.random()] is a list of the
      draws still to come, threaded through every function that draws.
      [random.choice(seq)] is Python 2's [seq[int(random() * len(seq))]].
    - A call that raises (IndexError, TypeError, ZeroDivisionError,
      NotImplementedError) ends in
      [Raised]; a call that asks for more draws than the list holds ends in
      [Starved]. *)

From Stdlib Require Import String.
From Stdlib Require Import List Bool Arith ZArith Lia.
From Stdlib Require Import QArith Qround Qminmax Lqa.
From Stdlib Require Import Reals Qreals Lra.
Import ListNotations.

(** ** Results of calls *)

Inductive outcome (A : Type) : Type :=
| Done (a : A)
| Raised
| Starved.

Arguments Done {A} a.
Arguments Raised {A}.
Arguments Starved {A}.

Definition bind {A B : Type} (x : outcome A) (k : A -> outcome B) : outcome B :=
  match x with
  | Done a => k a
  | Raised => Raised
  | Starved => Starved
  end.

Notation "x <- c ;; k" := (bind c (fun x => k))
  (at level 61, c at next level, right associativity).
Notation "' p <- c ;; k" := (bind c (fun p => k))
  (at level 61, p pattern, c at next level, right associativity).

(** [a > b] on floats. *)
Definition Qgtb (a b : Q) : bool := negb (Qle_bool a b).
(** [a < b] on floats. *)
Definition Qltb (a b : Q) : bool := negb (Qle_bool b a).

(** ** Shared helpers *)

(** Truth value of an optional float: [None] and [0.0] are false. *)
Definition truthy (o : option Q) : bool :=
  match o with
  | Some q => negb (Qeq_bool q 0)
  | None => false
  end.

(** The sculpture model is built outside this file; its tables are read
    here as total functions on edge and node numbers. *)
Record Model : Type := mkModel {
  edges : nat -> list nat;              (* edge -> its end nodes *)
  edgeListForNodes : nat -> list nat;   (* node -> edges touching it *)
  edgeHeight : nat -> Z;
  roots : list nat;
  outwardAdjacency : nat -> list nat;   (* edge -> edges further out *)
  addressForEdge : nat -> string;
  addressMatchesAnyP : string -> list string -> bool
}.

(** [int(x)] for a float: truncation toward zero. *)
Definition int_of (x : Q) : Z :=
  if Qle_bool 0 x then Qfloor x else Qceiling x.

(** [random.choice(seq)] on the draw [u]:
    [seq[int(u * len(seq))]]; a negative index counts from the end. *)
Definition choice {A : Type} (u : Q) (seq : list A) : outcome A :=
  let len := Z.of_nat (length seq) in
  let i := int_of (u * inject_Z len) in
  let j := if (i <? 0)%Z then (i + len)%Z else i in
  if (j <? 0)%Z then Raised
  else match nth_error seq (Z.to_nat j) with
       | Some x => Done x
       | None => Raised
       end.

(** [xs[0]] *)
Definition first {A : Type} (xs : list A) : outcome A :=
  match xs with
  | x :: _ => Done x
  | [] => Raised
  end.

(** ** HeadsetResponsiveEffectLayer *)

Module Headset.
Local Open Scope Q_scope.

(** The two fields of a headset reading a layer can respond to. *)
Inductive Field : Type := attention_field | meditation_field.

(** A reading published by the headset thread.  Readings are compared by
    object identity in the source ([params.eeg != self.last_eeg]); [ident]
    stands for that identity. *)
Record EEGInfo : Type := mkEEG {
  ident : nat;
  attention : Q;
  meditation : Q;
  on : bool
}.

Definition getattr (e : EEGInfo) (f : Field) : Q :=
  match f with
  | attention_field => attention e
  | meditation_field => meditation e
  end.

Record Layer : Type := mkLayer {
  respond_to : Field;
  smooth_response_over_n_secs : Q;
  measurements : list Q;
  timestamps : list Q;
  last_eeg : option EEGInfo;
  last_response_level : option Q;
  fading_to : option Q
}.

(** [__init__] *)
Definition init (respond : Field) (smooth : Q) : Layer :=
  mkLayer respond smooth [] [] None None None.

Definition set_levels (L : Layer) (level fade : option Q) : Layer :=
  mkLayer (respond_to L) (smooth_response_over_n_secs L) (measurements L)
          (timestamps L) (last_eeg L) level fade.

Definition set_history (L : Layer) (ms ts : list Q) : Layer :=
  mkLayer (respond_to L) (smooth_response_over_n_secs L) ms ts
          (last_eeg L) (last_response_level L) (fading_to L).

Definition set_last_eeg (L : Layer) (e : EEGInfo) : Layer :=
  mkLayer (respond_to L) (smooth_response_over_n_secs L) (measurements L)
          (timestamps L) (Some e) (last_response_level L) (fading_to L).

(** [start_fade] *)
Definition start_fade (L : Layer) (new_level : Q) : Layer :=
  if negb (truthy (last_response_level L))
  then set_levels L (Some new_level) (fading_to L)
  else set_levels L (last_response_level L) (Some new_level).

(** [end_fade] *)
Definition end_fade (L : Layer) : Layer :=
  set_levels L (fading_to L) None.

(** [params.eeg and params.eeg != self.last_eeg and params.eeg.on]:
    the reading to take in on this tick, if any. *)
Definition new_reading (L : Layer) (eeg : option EEGInfo) : option EEGInfo :=
  match eeg with
  | None => None
  | Some e =>
      let differs := match last_eeg L with
                     | None => true
                     | Some e0 => negb (Nat.eqb (ident e) (ident e0))
                     end in
      if differs && on e then Some e else None
  end.

(** The [while idx < N] loop of [render]; [n] is [N - idx]. *)
Fixpoint trim (n idx : nat) (L : Layer) : outcome Layer :=
  match n with
  | O => Done L
  | S n' =>
      match nth_error (timestamps L) 0, nth_error (timestamps L) idx with
      | Some t0, Some ti =>
          let dt := t0 - ti in
          if Qgtb dt (smooth_response_over_n_secs L)
          then Done (set_history L (firstn (idx + 1) (measurements L))
                                   (firstn (idx + 1) (timestamps L)))
          else trim n' (S idx) L
      | _, _ => Raised
      end
  end.

(** [sum(xs)], adding from the left starting at 0. *)
Definition sum (xs : list Q) : Q := fold_left Qplus xs 0.

(** [sum(self.measurements) * 1.0 / len(self.measurements)] *)
Definition mean (xs : list Q) : Q :=
  (sum xs * 1) / inject_Z (Z.of_nat (length xs)).

(** [render] up to its last statement: the new layer state and the
    [response_level] it is about to hand to [render_responsive].  The call
    itself is [render_with] below. *)
Definition render (L : Layer) (now : Q) (eeg : option EEGInfo)
  : outcome (Layer * option Q) :=
  match new_reading L eeg with
  | Some e =>
      let L1 := if truthy (fading_to L) then end_fade L else L in
      let L2 := set_last_eeg
                  (set_history L1 (getattr e (respond_to L1) :: measurements L1)
                                  (now :: timestamps L1)) e in
      L3 <- trim (length (measurements L2)) 0 L2 ;;
      let L4 := if (1 <? length (measurements L3))%nat
                then start_fade L3 (mean (measurements L3))
                else L3 in
      Done (L4, last_response_level L4)
  | None =>
      if truthy (fading_to L) then
        match timestamps L with
        | [] => Raised
        | t0 :: _ =>
            let fade_progress := now - t0 in
            if Qle_bool 1 fade_progress then
              let L' := end_fade L in Done (L', last_response_level L')
            else
              match fading_to L, last_response_level L with
              | Some target, Some steady =>
                  Done (L, Some (fade_progress * target
                                 + (1 - fade_progress) * steady))
              | _, _ => Raised
              end
        end
      else Done (L, None)
  end.

(** [render_responsive] of the class itself, which subclasses are to
    override: [raise NotImplementedError]. *)
Definition render_responsive {F : Type} (frame : F) (response_level : option Q)
  : outcome F := Raised.

(** [render] to its end, for a layer whose [render_responsive] is [rr]:
    the state update above, then
    [self.render_responsive(model, params, frame, response_level)]. *)
Definition render_with {F : Type} (rr : F -> option Q -> outcome F)
    (L : Layer) (now : Q) (eeg : option EEGInfo) (frame : F)
  : outcome (Layer * F) :=
  '(L', level) <- render L now eeg ;;
  frame' <- rr frame level ;;
  Done (L', frame').

(** A run of ticks, each with its clock value and the reading visible on
    it, following the state update only. *)
Fixpoint run (L : Layer) (ticks : list (Q * option EEGInfo)) : outcome Layer :=
  match ticks with
  | [] => Done L
  | (now, eeg) :: rest => '(L', _) <- render L now eeg ;; run L' rest
  end.

End Headset.

(** ** ImpulseLayer2 *)

Module Impulse.
Local Open Scope Q_scope.

Inductive Motion : Type := Out | In | Loop.

Definition Color : Type := (Q * Q * Q)%type.
Definition Frame : Type := list Color.

Record Impulse : Type := mkImpulse {
  color : Color;
  edge : nat;
  previous_edge : option nat;
  dead : bool;
  motion : Motion;
  loopChance : Q;
  bounceChance : Q
}.

(** [Impulse.__init__(color, edge, motion = "Out")]: the [motion]
    argument may be any value. *)
Definition Impulse_init {A : Type} (c : Color) (e : nat) (motion_arg : A)
  : Impulse :=
  mkImpulse c e None false Out (1 # 10) (2 # 10).

Definition set_motion (p : Impulse) (mo : Motion) : Impulse :=
  mkImpulse (color p) (edge p) (previous_edge p) (dead p) mo
            (loopChance p) (bounceChance p).

Definition set_dead (p : Impulse) : Impulse :=
  mkImpulse (color p) (edge p) (previous_edge p) true (motion p)
            (loopChance p) (bounceChance p).

(** [_move_to_any_of] *)
Definition _move_to_any_of (p : Impulse) (es : list nat) (draws : list Q)
  : outcome (Impulse * list Q) :=
  match draws with
  | [] => Starved
  | u :: rest =>
      e <- choice u es ;;
      Done (mkImpulse (color p) e (Some (edge p)) (dead p) (motion p)
                      (loopChance p) (bounceChance p), rest)
  end.

(** [_node_incoming_and_outgoing] *)
Definition _node_incoming_and_outgoing (m : Model) (p : Impulse)
  : outcome (nat * nat) :=
  let nodes := edges m (edge p) in
  match previous_edge p with
  | None => Raised
  | Some pe =>
      let previous_nodes := edges m pe in
      from_node <- first (filter (fun n => existsb (Nat.eqb n) previous_nodes)
                                 nodes) ;;
      to_node <- first (filter (fun n => negb (Nat.eqb n from_node)) nodes) ;;
      Done (from_node, to_node)
  end.

Definition loop_patterns : list string :=
  ["*.*.*.*.*"; "*.*.*.*.1.2"; "*.*.*.*.2.1"]%string.

(** The mode after the [loopChance] draw [u] of [move]. *)
Definition switch_mode (p : Impulse) (height : Z) (u : Q) : Motion :=
  if Qltb u (loopChance p) then
    match motion p with
    | Out => if (height =? 4)%Z then Loop else Out
    | In => if (height =? 5)%Z then Loop else In
    | Loop => if (height =? 5)%Z then Out
              else if (height =? 4)%Z then In else Loop
    end
  else motion p.

(** The [to_edges] of [move] for an impulse whose mode is already
    switched. *)
Definition candidates (m : Model) (p : Impulse) : outcome (list nat) :=
  let height := edgeHeight m (edge p) in
  let nodes := edges m (edge p) in
  let to_edges :=
    flat_map (fun n => filter (fun e => negb (Nat.eqb e (edge p)))
                              (edgeListForNodes m n)) nodes in
  match motion p with
  | Loop =>
      '(_, out_node) <- _node_incoming_and_outgoing m p ;;
      let to_edges := filter (fun e => negb (Nat.eqb e (edge p)))
                             (edgeListForNodes m out_node) in
      Done (filter (fun e => addressMatchesAnyP m (addressForEdge m e)
                                                loop_patterns) to_edges)
  | Out => Done (filter (fun e => (height <? edgeHeight m e)%Z) to_edges)
  | In => Done (filter (fun e => (edgeHeight m e <? height)%Z) to_edges)
  end.

(** [move].  Every call draws at least once, so the recursion after a
    bounce runs on a shorter list of draws. *)
Fixpoint move (m : Model) (draws : list Q) (p : Impulse)
  : outcome (Impulse * list Q) :=
  match draws with
  | [] => Starved
  | u :: draws1 =>
      let p1 := set_motion p (switch_mode p (edgeHeight m (edge p)) u) in
      match candidates m p1 with
      | Raised => Raised
      | Starved => Starved
      | Done (e :: es) => _move_to_any_of p1 (e :: es) draws1
      | Done [] =>
          match draws1 with
          | [] => Starved
          | b :: draws2 =>
              if Qltb b (bounceChance p1) then
                match motion p1 with
                | Out => move m draws2 (set_motion p1 In)
                | In => move m draws2 (set_motion p1 Out)
                | Loop => Done (set_dead p1, draws2)
                end
              else Done (set_dead p1, draws2)
          end
      end
  end.

(** [Impulse.render] *)
Definition add_color (c d : Color) : Color :=
  let '(r, g, b) := c in let '(r', g', b') := d in (r + r', g + g', b + b').

Fixpoint add_at (frame : Frame) (i : nat) (c : Color) : outcome Frame :=
  match frame, i with
  | [], _ => Raised
  | rgb :: rest, O => Done (add_color rgb c :: rest)
  | rgb :: rest, S i' => rest' <- add_at rest i' c ;; Done (rgb :: rest')
  end.

Definition Impulse_render (p : Impulse) (frame : Frame) : outcome Frame :=
  if dead p then Done frame else add_at frame (edge p) (color p).

Section Layer.

(** [colorsys.hsv_to_rgb], from the Python standard library. *)
Variable hsv_to_rgb : Q -> Q -> Q -> Color.

Record Layer : Type := mkLayer {
  pulses : list (option Impulse);
  last_time : option Q;
  frequency : Q;
  spawnChance : Q;
  maxColorSaturation : Q;
  brightness : Q
}.

(** [ImpulseLayer2.__init__] *)
Definition init (maximum_pulse_count : nat) : Layer :=
  mkLayer (repeat None maximum_pulse_count) None (5 # 100) (25 # 100)
          (25 # 100) (95 # 100).

Definition set_pulses (L : Layer) (ps : list (option Impulse)) : Layer :=
  mkLayer ps (last_time L) (frequency L) (spawnChance L)
          (maxColorSaturation L) (brightness L).

Definition set_last_time (L : Layer) (t : Q) : Layer :=
  mkLayer (pulses L) (Some t) (frequency L) (spawnChance L)
          (maxColorSaturation L) (brightness L).

(** [_reap_pulses] *)
Definition _reap_pulses (ps : list (option Impulse)) : list (option Impulse) :=
  map (fun p => match p with
                | Some q => if dead q then None else Some q
                | None => None
                end) ps.

(** The first slot with [not p], as found by the [for] loop of
    [_spawn_pulses], filled with [q]; [None] when every slot is taken. *)
Fixpoint fill_first_free (ps : list (option Impulse)) (q : Impulse)
  : option (list (option Impulse)) :=
  match ps with
  | [] => None
  | None :: rest => Some (Some q :: rest)
  | Some p :: rest =>
      match fill_first_free rest q with
      | Some rest' => Some (Some p :: rest')
      | None => None
      end
  end.

Definition has_free (ps : list (option Impulse)) : bool :=
  existsb (fun p => match p with None => true | Some _ => false end) ps.

(** [_spawn_pulses], with the layer's settings as arguments. *)
Fixpoint _spawn_pulses (m : Model) (chance maxsat bright : Q)
    (draws : list Q) (ps : list (option Impulse))
  : outcome (list (option Impulse) * list Q) :=
  match draws with
  | [] => Starved
  | u :: d1 =>
      if Qltb u chance then
        if has_free ps then
          if negb (Qeq_bool maxsat 0) then
            match d1 with
            | hue :: sat :: c :: d4 =>
                let col := hsv_to_rgb hue (sat * maxsat) bright in
                match choice c (roots m) with
                | Done r =>
                    match fill_first_free ps (Impulse_init col r "Out"%string) with
                    | Some ps' => _spawn_pulses m chance maxsat bright d4 ps'
                    | None => Done (ps, d4)
                    end
                | Raised => Raised
                | Starved => Starved
                end
            | _ => Starved
            end
          else
            match d1 with
            | c :: d2 =>
                match choice c (roots m) with
                | Done r =>
                    match fill_first_free ps
                            (Impulse_init (bright, bright, bright) r "Out"%string) with
                    | Some ps' => _spawn_pulses m chance maxsat bright d2 ps'
                    | None => Done (ps, d2)
                    end
                | Raised => Raised
                | Starved => Starved
                end
            | _ => Starved
            end
        else Done (ps, d1)
      else Done (ps, d1)
  end.

(** The [for pulse in self.pulses] loop of [_move_pulses]. *)
Fixpoint move_all (m : Model) (draws : list Q) (ps : list (option Impulse))
  : outcome (list (option Impulse) * list Q) :=
  match ps with
  | [] => Done ([], draws)
  | None :: rest =>
      '(rest', d) <- move_all m draws rest ;; Done (None :: rest', d)
  | Some p :: rest =>
      '(p', d1) <- move m draws p ;;
      '(rest', d2) <- move_all m d1 rest ;;
      Done (Some p' :: rest', d2)
  end.

(** [_move_pulses] *)
Definition _move_pulses (L : Layer) (m : Model) (time : Q) (draws : list Q)
  : outcome (Layer * list Q) :=
  if negb (truthy (last_time L)) then Done (set_last_time L time, draws)
  else
    match last_time L with
    | None => Raised
    | Some lt =>
        if Qltb time (lt + frequency L) then Done (L, draws)
        else
          let ps1 := _reap_pulses (pulses L) in
          '(ps2, d2) <- _spawn_pulses m (spawnChance L) (maxColorSaturation L)
                                      (brightness L) draws ps1 ;;
          '(ps3, d3) <- move_all m d2 ps2 ;;
          Done (set_last_time (set_pulses L ps3) time, d3)
    end.

(** The [for pulse in self.pulses] loop of [render]. *)
Fixpoint render_all (ps : list (option Impulse)) (frame : Frame)
  : outcome Frame :=
  match ps with
  | [] => Done frame
  | None :: rest => render_all rest frame
  | Some p :: rest => f <- Impulse_render p frame ;; render_all rest f
  end.

(** [ImpulseLayer2.render] *)
Definition render (L : Layer) (m : Model) (time : Q) (frame : Frame)
    (draws : list Q) : outcome (Layer * Frame * list Q) :=
  '(L', d) <- _move_pulses L m time draws ;;
  f <- render_all (pulses L') frame ;;
  Done (L', f, d).

End Layer.

End Impulse.

(** ** Bolt and LightningStormLayer *)

Module Lightning.
Local Open Scope Q_scope.

Definition PULSE_INTENSITY : Q := 8 # 100.
Definition PULSE_FREQUENCY : Q := 10.
Definition FADE_TIME : Q := 25 # 100.
Definition SECONDARY_BRANCH_INTENSITY : Q := 4 # 10.

Definition leader_intensity : Q := 1 - PULSE_INTENSITY.
Definition branch_intensity : Q := leader_intensity * SECONDARY_BRANCH_INTENSITY.

Record Bolt : Type := mkBolt {
  init_time : Q;
  pulse_time : Q;
  color : Q * Q * Q;
  life_time : Q;
  edges : list nat;
  intensities : list Q
}.

(** The intensity appended for [edge] in one pass of the inner [for]. *)
Definition lit (next_leader edge : nat) : Q :=
  if Nat.eqb edge next_leader then leader_intensity else branch_intensity.

(** The [while model.outwardAdjacency[leader]] loop of
    [choose_random_path]; each pass draws once. *)
Fixpoint extend_path (m : Model) (draws : list Q) (leader : nat)
    (es : list nat) (ints : list Q) : outcome (list nat * list Q * list Q) :=
  match outwardAdjacency m leader with
  | [] => Done (es, ints, draws)
  | _ :: _ =>
      match draws with
      | [] => Starved
      | u :: rest =>
          match choice u (outwardAdjacency m leader) with
          | Done next_leader =>
              extend_path m rest next_leader
                (es ++ outwardAdjacency m leader)
                (ints ++ map (lit next_leader) (outwardAdjacency m leader))
          | Raised => Raised
          | Starved => Starved
          end
      end
  end.

(** [choose_random_path] *)
Definition choose_random_path (m : Model) (draws : list Q)
  : outcome (list nat * list Q * list Q) :=
  match draws with
  | [] => Starved
  | u :: rest =>
      root <- choice u (roots m) ;;
      extend_path m rest root [root] [leader_intensity]
  end.

(** [random.uniform(a, b)] on the draw [u] *)
Definition uniform (a b u : Q) : Q := a + (b - a) * u.

(** [Bolt.__init__] *)
Definition Bolt_init (m : Model) (time : Q) (draws : list Q)
  : outcome (Bolt * list Q) :=
  match draws with
  | [] => Starved
  | u :: rest =>
      let pt := uniform (25 # 100) (35 # 100) u in
      '(es, ints, rest') <- choose_random_path m rest ;;
      Done (mkBolt time pt (230 / 255, 230 / 255, 255 / 255)
                   (pt + FADE_TIME) es ints, rest')
  end.

(** The frame the bolts draw on: one RGB accumulator per LED.  The pulse
    phase is a cosine, so the channels are reals. *)
Definition Frame : Type := list (R * R * R).

(** [mixAdd(frame[edge], r, g, b)] *)
Fixpoint mixAdd_at (frame : Frame) (i : nat) (c : R * R * R) : outcome Frame :=
  match frame, i with
  | [], _ => Raised
  | (r, g, b) :: rest, O =>
      let '(r', g', b') := c in Done ((r + r', g + g', b + b')%R :: rest)
  | rgb :: rest, S i' => rest' <- mixAdd_at rest i' c ;; Done (rgb :: rest')
  end.

(** [numpy.multiply(self.color, k)] *)
Definition scaled (c : Q * Q * Q) (k : R) : R * R * R :=
  let '(r, g, b) := c in ((Q2R r * k)%R, (Q2R g * k)%R, (Q2R b * k)%R).

(** [math.cos(2 * math.pi * dt * Bolt.PULSE_FREQUENCY)] *)
Definition phase (dt : Q) : R :=
  cos (2 * PI * Q2R dt * Q2R PULSE_FREQUENCY)%R.

(** The factor the bolt's colour is multiplied by for an edge of base
    intensity [x], at age [dt]. *)
Definition level (b : Bolt) (dt : Q) (x : Q) : R :=
  if Qltb dt (pulse_time b)
  then (Q2R x + phase dt * Q2R PULSE_INTENSITY)%R
  else Q2R ((1 - (dt - pulse_time b) * 1 / FADE_TIME) * x).

(** The [for i, edge in enumerate(self.edges)] loops of [update_frame]. *)
Fixpoint draw_edges (b : Bolt) (dt : Q) (es : list nat) (ints : list Q)
    (frame : Frame) : outcome Frame :=
  match es with
  | [] => Done frame
  | e :: es' =>
      match ints with
      | [] => Raised
      | x :: ints' =>
          f <- mixAdd_at frame e (scaled (color b) (level b dt x)) ;;
          draw_edges b dt es' ints' f
      end
  end.

(** [Bolt.update_frame] *)
Definition update_frame (b : Bolt) (frame : Frame) (current_time : Q)
  : outcome Frame :=
  let dt := current_time - init_time b in
  draw_edges b dt (edges b) (intensities b) frame.

Record Layer : Type := mkLayer {
  bolts : list Bolt;
  bolt_every : Q;
  last_time : option Q
}.

(** [LightningStormLayer.__init__] *)
Definition init (every : Q) : Layer := mkLayer [] every None.

(** [bolt.init_time + bolt.life_time > params.time] *)
Definition alive (time : Q) (b : Bolt) : bool :=
  Qgtb (init_time b + life_time b) time.

(** The list comprehension that drops expired bolts. *)
Definition purge (time : Q) (bs : list Bolt) : list Bolt :=
  filter (alive time) bs.

(** [if not self.last_time: self.last_time = params.time] *)
Definition note_first_tick (L : Layer) (time : Q) : Layer :=
  if negb (truthy (last_time L))
  then mkLayer (bolts L) (bolt_every L) (Some time)
  else L.

(** [(params.time - self.last_time) / self.bolt_every > random.random()],
    with [last] for [self.last_time] and [u] for the draw. *)
Definition strikes (time last every u : Q) : bool :=
  Qgtb ((time - last) / every) u.

(** The [for bolt in self.bolts] loop of [render]. *)
Fixpoint update_all (bs : list Bolt) (frame : Frame) (time : Q)
  : outcome Frame :=
  match bs with
  | [] => Done frame
  | b :: rest => f <- update_frame b frame time ;; update_all rest f time
  end.

(** [LightningStormLayer.render] *)
Definition render (L : Layer) (m : Model) (time : Q) (frame : Frame)
    (draws : list Q) : outcome (Layer * Frame * list Q) :=
  let L1 := note_first_tick L time in
  let kept := purge time (bolts L1) in
  match last_time L1 with
  | None => Raised
  | Some last =>
      if Qeq_bool (bolt_every L1) 0 then Raised
      else
        match draws with
        | [] => Starved
        | u :: rest =>
            '(bs, rest') <-
              (if strikes time last (bolt_every L1) u
               then '(b, r) <- Bolt_init m time rest ;; Done (kept ++ [b], r)
               else Done (kept, rest)) ;;
            f <- update_all bs frame time ;;
            Done (mkLayer bs (bolt_every L1) (Some time), f, rest')
        end
  end.

End Lightning.

(** ** FireflySwarm.Firefly *)

Module Firefly.
Local Open Scope R_scope.

Definition CYCLE_TIME : R := 15 / 10.
Definition NUDGE : R := 15 / 100.
Definition EXP : R := 2.

Record Firefly : Type := mkFirefly {
  offset : R;
  edge : nat;
  blinktime : R
}.

(** [x % y] on floats, for a positive [y]: the remainder of the floored
    division. *)
Definition fmod (x y : R) : R := x - IZR (Int_part (x / y)) * y.

(** [phi] *)
Definition phi (f : Firefly) (time : R) : R :=
  fmod (time + offset f) CYCLE_TIME / CYCLE_TIME + 1 / 100.

(** [activation]: [pow(phi, 1/self.EXP)] *)
Definition activation (p : R) : R := Rpower p (1 / EXP).

(** [activation_to_phi]: [pow(f, self.EXP)] *)
Definition activation_to_phi (a : R) : R := Rpower a EXP.

(** [update]: the firefly afterwards and whether it blinks. *)
Definition update (f : Firefly) (time : R) : Firefly * bool :=
  let p := phi f time in
  if Rle_dec 1 (activation p)
  then (mkFirefly (offset f) (edge f) time, true)
  else (f, false).

(** [nudge].  Over the reals a nudge that saturates puts the phase on the
    blink threshold exactly; the floating-point source lands beside it, on
    either side, so whether the closing [update] blinks is decided
    there by rounding. *)
Definition nudge (f : Firefly) (time : R) : Firefly :=
  let p := phi f time in
  let a := activation p in
  if Rlt_dec a 1 then
    let a2 := Rmin (a + NUDGE) 1 in
    let p2 := activation_to_phi a2 in
    let f' := mkFirefly (offset f + Rmax (p2 - p) 0 * CYCLE_TIME)
                        (edge f) (blinktime f) in
    fst (update f' time)
  else f.

End Firefly.

(** ** FireflySwarm *)

Module Swarm.
Import Firefly.
Local Open Scope R_scope.

(** [Firefly.__init__] on the draw [u] *)
Definition Firefly_init (e : nat) (u : Q) : Firefly :=
  mkFirefly (Q2R u * CYCLE_TIME) e 0.

(** [Firefly.render]; the colour of a firefly is always [(1, 1, 1)]. *)
Definition Firefly_render (f : Firefly) (time : R) (frame : Lightning.Frame)
  : outcome Lightning.Frame :=
  let dt := time - blinktime f in
  let dur := CYCLE_TIME / 2 in
  if Rlt_dec dt dur then
    let scale := sin (PI * dt / dur) in
    Lightning.mixAdd_at frame (edge f) (1 * scale, 1 * scale, 1 * scale)
  else Done frame.

(** [FireflySwarm.__init__]: one firefly per LED, each with its own draw. *)
Fixpoint init_from (e n : nat) (draws : list Q)
  : outcome (list Firefly * list Q) :=
  match n with
  | O => Done ([], draws)
  | S n' =>
      match draws with
      | [] => Starved
      | u :: rest =>
          '(cs, rest') <- init_from (S e) n' rest ;;
          Done (Firefly_init e u :: cs, rest')
      end
  end.

Definition init (numLEDs : nat) (draws : list Q)
  : outcome (list Firefly * list Q) :=
  init_from 0 numLEDs draws.

(** [xs[i] = x] on a list that has the index. *)
Fixpoint set_nth {A : Type} (i : nat) (x : A) (xs : list A) : list A :=
  match xs, i with
  | [], _ => []
  | _ :: rest, O => x :: rest
  | y :: rest, S i' => y :: set_nth i' x rest
  end.

(** [self.cyclers[i].nudge(params)] *)
Definition nudge_at (cs : list Firefly) (i : nat) (time : R)
  : outcome (list Firefly) :=
  match nth_error cs i with
  | Some f => Done (set_nth i (nudge f time) cs)
  | None => Raised
  end.

(** [for i in targets: self.cyclers[i].nudge(params)] *)
Fixpoint nudge_each (cs : list Firefly) (targets : list nat) (time : R)
  : outcome (list Firefly) :=
  match targets with
  | [] => Done cs
  | i :: rest => cs' <- nudge_at cs i time ;; nudge_each cs' rest time
  end.

(** The first [for c in self.cyclers] loop of [FireflySwarm.render], from
    index [i] on; [n] is the number of fireflies still to visit. *)
Fixpoint update_from (n i : nat) (m : Model) (cs : list Firefly) (time : R)
  : outcome (list Firefly) :=
  match n with
  | O => Done cs
  | S n' =>
      match nth_error cs i with
      | None => Raised
      | Some c =>
          let '(c', blink) := update c time in
          let cs1 := set_nth i c' cs in
          cs3 <- (if blink then
                    cs2 <- (match roots m with
                            | [] => Raised
                            | r0 :: others =>
                                if Nat.eqb (edge c') r0
                                then nudge_each cs1 others time
                                else Done cs1
                            end) ;;
                    nudge_each cs2 (outwardAdjacency m (edge c')) time
                  else Done cs1) ;;
          update_from n' (S i) m cs3 time
      end
  end.

(** The second [for c in self.cyclers] loop. *)
Fixpoint render_each (cs : list Firefly) (time : R) (frame : Lightning.Frame)
  : outcome Lightning.Frame :=
  match cs with
  | [] => Done frame
  | c :: rest => f <- Firefly_render c time frame ;; render_each rest time f
  end.

(** [FireflySwarm.render] *)
Definition render (cs : list Firefly) (m : Model) (time : R)
    (frame : Lightning.Frame) : outcome (list Firefly * Lightning.Frame) :=
  cs' <- update_from (length cs) 0 m cs time ;;
  f <- render_each cs' time frame ;;
  Done (cs', f).

End Swarm.

(** ** The plain layers: ResponsiveGreenHighRedLow, BlinkyLayer,
       SnowstormLayer, TechnicolorSnowstormLayer, WhiteOut, RGBLayer *)

Module Plain.
Local Open Scope Q_scope.

Definition Color : Type := Impulse.Color.
Definition Frame : Type := Impulse.Frame.

(** [mixAdd] *)
Definition mixAdd (rgb : Color) (r g b : Q) : Color :=
  let '(r0, g0, b0) := rgb in (r0 + r, g0 + g, b0 + b).

(** [mixMultiply] *)
Definition mixMultiply (rgb : Color) (r g b : Q) : Color :=
  let '(r0, g0, b0) := rgb in (r0 * r, g0 * g, b0 * b).

(** [ResponsiveGreenHighRedLow.render_responsive] *)
Definition render_responsive (frame : Frame) (response_level : option Q)
  : Frame :=
  map (fun rgb => match response_level with
                  | None => mixAdd rgb 0 0 1
                  | Some level => mixAdd rgb (1 - level) level 0
                  end) frame.

(** [ResponsiveGreenHighRedLow.render], inherited from
    [HeadsetResponsiveEffectLayer]. *)
Definition Responsive_render (L : Headset.Layer) (now : Q)
    (eeg : option Headset.EEGInfo) (frame : Frame)
  : outcome (Headset.Layer * Frame) :=
  '(L', level) <- Headset.render L now eeg ;;
  Done (L', render_responsive frame level).

(** [WhiteOut.render] *)
Definition WhiteOut_render (frame : Frame) : Frame :=
  map (fun rgb => mixAdd rgb 1 1 1) frame.

(** [BlinkyLayer.render]; the state is the flag [on]. *)
Definition Blinky_render (on : bool) (frame : Frame) : bool * Frame :=
  let on' := negb on in
  (on', if on' then map (fun rgb => mixAdd rgb 1 1 1) frame else frame).

(** [SnowstormLayer.render] *)
Fixpoint Snowstorm_render (frame : Frame) (draws : list Q)
  : outcome (Frame * list Q) :=
  match frame with
  | [] => Done ([], draws)
  | rgb :: rest =>
      match draws with
      | [] => Starved
      | level :: d =>
          '(rest', d') <- Snowstorm_render rest d ;;
          Done (mixAdd rgb level level level :: rest', d')
      end
  end.

(** [TechnicolorSnowstormLayer.render] *)
Fixpoint Technicolor_render (frame : Frame) (draws : list Q)
  : outcome (Frame * list Q) :=
  match frame with
  | [] => Done ([], draws)
  | rgb :: rest =>
      match draws with
      | r :: g :: b :: d =>
          '(rest', d') <- Technicolor_render rest d ;;
          Done (mixAdd rgb r g b :: rest', d')
      | _ => Starved
      end
  end.

(** [RGBLayer.render]; [edgeCenters] is the model's table of normalised
    LED positions. *)
Fixpoint RGB_render (edgeCenters : list (Q * Q * Q)) (frame : Frame)
    {struct frame} : outcome Frame :=
  match frame with
  | [] => Done []
  | _ :: rest =>
      match edgeCenters with
      | [] => Raised
      | (x, y, z) :: centers =>
          rest' <- RGB_render centers rest ;; Done ((x, y, z) :: rest')
      end
  end.

End Plain.

(** ** WavesLayer and DigitalRainLayer.calculateColor *)

Module Waves.
Local Open Scope R_scope.

(** The integer part of a real toward zero, as C's [trunc]. *)
Definition trunc (r : R) : Z :=
  if Rle_dec 0 r then Int_part r else (- Int_part (- r))%Z.

(** [math.fmod(x, y)]: the remainder with the sign of [x]. *)
Definition cfmod (x y : R) : R := x - IZR (trunc (x / y)) * y.

Definition color : R * R * R := (5 / 10, 5 / 10, 1).
Definition width : R := 4 / 10.
Definition speed : R := 15 / 10.
Definition period : R := 15.

(** The pulse shape at a LED [d] away from the root when the wavefront is
    at [center]: [cos(min(|d - center| * (pi/2 / width), pi/2))]. *)
Definition pulse (center d : R) : R :=
  cos (Rmin (Rabs (d - center) * (PI / 2 / width)) (PI / 2)).

(** [k * self.color] *)
Definition tint (k : R) : R * R * R :=
  let '(r, g, b) := color in (k * r, k * g, k * b).

Definition add_rgb (a b : R * R * R) : R * R * R :=
  let '(r, g, bl) := a in let '(r', g', bl') := b in
  (r + r', g + g', bl + bl').

(** [numpy.add(frame, a.reshape(-1,1) * self.color, frame)]: row by row
    when there is one value per LED; a single value is broadcast to every
    LED; any other shape is an error. *)
Definition add_rows (frame : list (R * R * R)) (a : list R)
  : outcome (list (R * R * R)) :=
  if Nat.eqb (length a) (length frame)
  then Done (map (fun p => add_rgb (fst p) (tint (snd p))) (combine frame a))
  else match a with
       | [k] => Done (map (fun rgb => add_rgb rgb (tint k)) frame)
       | _ => Raised
       end.

(** [WavesLayer.render]; [edgeDistances] is the model's table of distances
    from the root. *)
Definition render (edgeDistances : list R) (time : R)
    (frame : list (R * R * R)) : outcome (list (R * R * R)) :=
  let center := cfmod (time * speed) period in
  if Rlt_dec center 2
  then add_rows frame (map (pulse center) edgeDistances)
  else Done frame.

(** [DigitalRainLayer.calculateColor] *)
Definition rain_color : R * R * R := (90 / 255, 210 / 255, 90 / 255).
Definition rain_bright : R * R * R := (140 / 255, 234 / 255, 191 / 255).

Definition calculateColor (v : R) : R * R * R :=
  if Rlt_dec v (PI / 4) then rain_bright
  else if Rlt_dec v PI
       then let '(r, g, b) := rain_color in
            (r * (sin v) ^ 2, g * (sin v) ^ 2, b * (sin v) ^ 2)
       else (0, 0, 0).

End Waves.

(** ** ImpulsesLayer *)

Module Impulses.
Local Open Scope Q_scope.

Record Layer : Type := mkLayer {
  positions : list (option nat);
  phases : list R;
  frequencies : list Q
}.

(** [ImpulsesLayer.__init__] *)
Definition init (count : nat) : Layer :=
  mkLayer (repeat None count) (repeat 0%R count) (repeat 0 count).

(** [xs[i] = v] *)
Definition assign {A : Type} (i : nat) (v : A) (xs : list A)
  : outcome (list A) :=
  if (i <? length xs)%nat then Done (Swarm.set_nth i v xs) else Raised.

(** [xs[i]] *)
Definition item {A : Type} (xs : list A) (i : nat) : outcome A :=
  match nth_error xs i with
  | Some x => Done x
  | None => Raised
  end.

(** [max(0, math.sin(phase + frequency * time))] *)
Definition brightness (phase : R) (frequency time : Q) : R :=
  Rmax 0 (sin (phase + Q2R frequency * Q2R time)).

(** [random.uniform(0, math.pi * 2)] on the draw [u] *)
Definition random_phase (u : Q) : R := (0 + (PI * 2 - 0) * Q2R u)%R.

(** The body of the [for i in range(len(self.positions))] loop for a slot
    whose impulse is dead. *)
Definition revive (L : Layer) (m : Model) (i : nat) (draws : list Q)
  : outcome (Layer * list Q) :=
  match draws with
  | [] => Starved
  | u :: d1 =>
      if Qltb u (5 # 100) then
        match d1 with
        | [] => Starved
        | c :: d2 =>
            root <- choice c (roots m) ;;
            ps <- assign i (Some root) (positions L) ;;
            match d2 with
            | [] => Starved
            | up :: d3 =>
                phs <- assign i (random_phase up) (phases L) ;;
                match d3 with
                | [] => Starved
                | uf :: d4 =>
                    frs <- assign i (Lightning.uniform 2 10 uf)
                                  (frequencies L) ;;
                    Done (mkLayer ps phs frs, d4)
                end
            end
        end
      else Done (L, d1)
  end.

(** [model.outwardAdjacency[i]] for a slot number [i]: the table is a
    list with [size] entries, and an index beyond it raises. *)
Definition adjacency_at (m : Model) (size i : nat) : outcome (list nat) :=
  if (i <? size)%nat then Done (outwardAdjacency m i) else Raised.

(** The body of the loop for a slot whose impulse sits on [pos]; [size] is
    [len(model.outwardAdjacency)]. *)
Definition draw_and_move (L : Layer) (m : Model) (size : nat) (time : Q)
    (i pos : nat) (frame : Lightning.Frame) (draws : list Q)
  : outcome (Layer * Lightning.Frame * list Q) :=
  ph <- item (phases L) i ;;
  fr <- item (frequencies L) i ;;
  let br := brightness ph fr time in
  frame' <- Lightning.mixAdd_at frame pos (br, br, br) ;;
  match draws with
  | [] => Starved
  | u :: d1 =>
      if Qltb u (2 # 10) then
        choices <- adjacency_at m size i ;;
        match choices with
        | [] =>
            ps <- assign i None (positions L) ;;
            Done (mkLayer ps (phases L) (frequencies L), frame', d1)
        | _ :: _ =>
            match d1 with
            | [] => Starved
            | c :: d2 =>
                next <- choice c choices ;;
                ps <- assign i (Some next) (positions L) ;;
                Done (mkLayer ps (phases L) (frequencies L), frame', d2)
            end
        end
      else Done (L, frame', d1)
  end.

(** [ImpulsesLayer.render], from slot [i] on; [n] is the number of slots
    still to visit and [size] is [len(model.outwardAdjacency)]. *)
Fixpoint render_from (n i : nat) (L : Layer) (m : Model) (size : nat)
    (time : Q) (frame : Lightning.Frame) (draws : list Q)
  : outcome (Layer * Lightning.Frame * list Q) :=
  match n with
  | O => Done (L, frame, draws)
  | S n' =>
      match nth_error (positions L) i with
      | None => Raised
      | Some None =>
          '(L', d) <- revive L m i draws ;;
          render_from n' (S i) L' m size time frame d
      | Some (Some pos) =>
          '(L', frame', d) <- draw_and_move L m size time i pos frame draws ;;
          render_from n' (S i) L' m size time frame' d
      end
  end.

Definition render (L : Layer) (m : Model) (size : nat) (time : Q)
    (frame : Lightning.Frame) (draws : list Q)
  : outcome (Layer * Lightning.Frame * list Q) :=
  render_from (length (positions L)) 0 L m size time frame draws.

End Impulses.

(** * Vocabulary of the statements and sample inputs *)

Local Open Scope Q_scope.

(** A draw as [random.random()] returns it. *)
Definition unit_draw (u : Q) : Prop := 0 <= u /\ u < 1.

(** The level shown during a fade: [old] at progress 0, [new] at 1. *)
Definition blend (T old new t : Q) : Q :=
  (t - T) * new + (1 - (t - T)) * old.

(** The number of entries the [while] loop keeps when it reaches index
    [idx] and [rest] holds the timestamps from [idx] on. *)
Fixpoint cut_at (t0 window : Q) (idx : nat) (rest : list Q) : nat :=
  match rest with
  | [] => idx
  | ti :: rest' =>
      if Qgtb (t0 - ti) window then (idx + 1)%nat
      else cut_at t0 window (S idx) rest'
  end.

(** A layer in the middle of a fade from 1/2 to 1, newest reading at 10. *)
Definition fading_layer : Headset.Layer :=
  Headset.mkLayer Headset.attention_field 5 [1; 1 # 2] [10; 9]
                  (Some (Headset.mkEEG 2 1 0 true)) (Some (1 # 2)) (Some 1).

(** Ten distinct 'on' readings of attention, one per second from 0 s:
    0.5 twice, then 0.0 eight times. *)
Definition zero_run : list (Q * option Headset.EEGInfo) :=
  [(0, Some (Headset.mkEEG 1 (1 # 2) 0 true));
   (1, Some (Headset.mkEEG 2 (1 # 2) 0 true));
   (2, Some (Headset.mkEEG 3 0 0 true));
   (3, Some (Headset.mkEEG 4 0 0 true));
   (4, Some (Headset.mkEEG 5 0 0 true));
   (5, Some (Headset.mkEEG 6 0 0 true));
   (6, Some (Headset.mkEEG 7 0 0 true));
   (7, Some (Headset.mkEEG 8 0 0 true));
   (8, Some (Headset.mkEEG 9 0 0 true));
   (9, Some (Headset.mkEEG 10 0 0 true))].

(** ** Sample models *)

(** A trunk of two LEDs: root edge 0 (height 0, nodes 0 and 1) and its
    child edge 1 (height 1, nodes 1 and 2). *)
Definition twig : Model :=
  mkModel
    (fun e => match e with O => [0; 1] | _ => [1; 2] end)%nat
    (fun n => match n with O => [0] | 1 => [0; 1] | _ => [1] end)%nat
    (fun e => match e with O => 0 | _ => 1 end)%Z
    [0%nat]
    (fun e => match e with O => [1%nat] | _ => [] end)
    (fun _ => "0.0.0.0.0"%string)
    (fun _ _ => true).

Definition white : Impulse.Color := (95 # 100, 95 # 100, 95 # 100).

(** A root edge 0 that forks into the edges 1 and 2. *)
Definition fork : Model :=
  mkModel
    (fun e => match e with O => [0; 1] | 1 => [1; 2] | _ => [1; 3] end)%nat
    (fun n => match n with
              | O => [0] | 1 => [0; 1; 2] | 2 => [1] | _ => [2]
              end)%nat
    (fun e => match e with O => 0 | _ => 1 end)%Z
    [0%nat]
    (fun e => match e with O => [1; 2] | _ => [] end)%nat
    (fun _ => "0.0.0.0.0"%string)
    (fun _ _ => true).

(** An empty three-LED frame. *)
Definition dark : Lightning.Frame := [(0, 0, 0); (0, 0, 0); (0, 0, 0)]%R.

(** ** Impulses *)

(** What one call of [move] can do to an impulse that started on the edge
    of [p]: leave it where it is and mark it dead, or take it to a
    neighbour that is legal for the mode it then has. *)
Definition step_ok (m : Model) (p p' : Impulse.Impulse) : Prop :=
  (Impulse.edge p' = Impulse.edge p
   /\ Impulse.previous_edge p' = Impulse.previous_edge p
   /\ Impulse.dead p' = true)
  \/ (Impulse.previous_edge p' = Some (Impulse.edge p)
      /\ Impulse.dead p' = Impulse.dead p
      /\ (Impulse.motion p' = Impulse.Out ->
          (edgeHeight m (Impulse.edge p) < edgeHeight m (Impulse.edge p'))%Z)
      /\ (Impulse.motion p' = Impulse.In ->
          (edgeHeight m (Impulse.edge p') < edgeHeight m (Impulse.edge p))%Z)).

(** A slot after [_spawn_pulses]: as before, or a formerly empty slot now
    holding a fresh impulse that sits on a root edge in 'Out' mode. *)
Definition kept_or_spawned (m : Model) (old new : option Impulse.Impulse)
  : Prop :=
  old = new
  \/ (old = None
      /\ exists q, new = Some q
                   /\ Impulse.motion q = Impulse.Out
                   /\ Impulse.dead q = false
                   /\ Impulse.previous_edge q = None
                   /\ List.In (Impulse.edge q) (roots m)).

(** ** Bolts *)

(** The edges a bolt lights from [leader] outward, with their
    intensities: at each leader all its outward neighbours are lit, the one
    chosen as next leader at leader intensity and the others at branch
    intensity, and the path goes on from the next leader; it ends at
    [final], a leader without outward neighbours. *)
Inductive Branching (m : Model) : nat -> list nat -> list Q -> nat -> Prop :=
| branching_end (leader : nat) :
    outwardAdjacency m leader = [] ->
    Branching m leader [] [] leader
| branching_step (leader next final : nat) (es : list nat) (ints : list Q) :
    outwardAdjacency m leader <> [] ->
    List.In next (outwardAdjacency m leader) ->
    Branching m next es ints final ->
    Branching m leader
      (outwardAdjacency m leader ++ es)
      (map (Lightning.lit next) (outwardAdjacency m leader) ++ ints)
      final.

(** Channel-wise order on colours. *)
Definition rgb_le (a b : R * R * R) : Prop :=
  let '(r, g, bl) := a in let '(r', g', bl') := b in
  (r <= r' /\ g <= g' /\ bl <= bl')%R.

Definition rgb_lt (a b : R * R * R) : Prop :=
  let '(r, g, bl) := a in let '(r', g', bl') := b in
  (r < r' /\ g < g' /\ bl < bl')%R.

Definition rgb_pos (c : R * R * R) : Prop :=
  let '(r, g, bl) := c in (0 < r /\ 0 < g /\ 0 < bl)%R.

(** ** Headset layer: invariants *)

(** The two history lists line up, and a fade in progress has a newest
    measurement and a steady value to start from. *)
Definition history_ok (L : Headset.Layer) : Prop :=
  length (Headset.measurements L) = length (Headset.timestamps L)
  /\ (truthy (Headset.fading_to L) = true ->
      Headset.timestamps L <> []
      /\ exists old, Headset.last_response_level L = Some old).

(** Every stored measurement and both levels lie in [[lo, hi]]. *)
Definition levels_within (lo hi : Q) (L : Headset.Layer) : Prop :=
  Forall (fun x => lo <= x <= hi) (Headset.measurements L)
  /\ (forall v, Headset.last_response_level L = Some v -> lo <= v <= hi)
  /\ (forall v, Headset.fading_to L = Some v -> lo <= v <= hi).

(** The clock has not run back behind the newest measurement. *)
Definition clock_ok (L : Headset.Layer) (now : Q) : Prop :=
  forall t0 tl, Headset.timestamps L = t0 :: tl -> t0 <= now.

(** ** Bolts: invariants *)

(** A bolt a frame of [n] LEDs can take: one intensity per edge, every
    edge on the frame. *)
Definition bolt_ok (n : nat) (b : Lightning.Bolt) : Prop :=
  length (Lightning.edges b) = length (Lightning.intensities b)
  /\ Forall (fun e => (e < n)%nat) (Lightning.edges b).

(** ** Fireflies *)

(** The same firefly, possibly further on in its cycle. *)
Definition moved_on (a b : Firefly.Firefly) : Prop :=
  Firefly.edge b = Firefly.edge a
  /\ (Firefly.offset a <= Firefly.offset b)%R.

(** ** Impulses along the tree *)

(** The three lists of an [ImpulsesLayer] have one entry per slot. *)
Definition aligned (L : Impulses.Layer) : Prop :=
  length (Impulses.phases L) = length (Impulses.positions L)
  /\ length (Impulses.frequencies L) = length (Impulses.positions L).

(** What one [render] can do to slot number [i]: leave it as it is; put a
    dead impulse on a root; or, for a live impulse, end it where
    [outwardAdjacency[i]] is empty or send it to a member of
    [outwardAdjacency[i]]. *)
Definition slot_step (m : Model) (i : nat) (p p' : option nat) : Prop :=
  p' = p
  \/ (p = None /\ exists root, List.In root (roots m) /\ p' = Some root)
  \/ (p <> None
      /\ ((outwardAdjacency m i = [] /\ p' = None)
          \/ exists next,
               List.In next (outwardAdjacency m i) /\ p' = Some next)).

(** Every live impulse of the layer sits on one of the [n] LEDs. *)
Definition on_frame (n : nat) (L : Impulses.Layer) : Prop :=
  forall pos, List.In (Some pos) (Impulses.positions L) -> (pos < n)%nat.

(** Three live impulses on [twig], whose adjacency table has two
    entries. *)
Definition crowded : Impulses.Layer :=
  Impulses.mkLayer [Some 0%nat; Some 0%nat; Some 1%nat] [0%R; 0%R; 0%R]
                   [2; 2; 2].

(** One live impulse on the root of [twig], oscillating at 2 Hz. *)
Definition lone_impulse : Impulses.Layer :=
  Impulses.mkLayer [Some 0%nat] [0%R] [2].

(** * Properties *)

(** ** Comparisons on floats *)

Lemma Qgtb_true (a b : Q) : Qgtb a b = true <-> (b < a)%Q.
Proof.
  unfold Qgtb. rewrite negb_true_iff, <- not_true_iff_false, Qle_bool_iff.
  split; intro H; [apply Qnot_le_lt | apply Qlt_not_le]; exact H.
Qed.

Lemma Qgtb_false (a b : Q) : Qgtb a b = false <-> (a <= b)%Q.
Proof. unfold Qgtb. rewrite negb_false_iff. apply Qle_bool_iff. Qed.

Lemma Qltb_true (a b : Q) : Qltb a b = true <-> (a < b)%Q.
Proof. apply Qgtb_true. Qed.

Lemma Qltb_false (a b : Q) : Qltb a b = false <-> (b <= a)%Q.
Proof. apply Qgtb_false. Qed.

Lemma truthy_Some (q : Q) : truthy (Some q) = true <-> ~ (q == 0)%Q.
Proof.
  unfold truthy. rewrite negb_true_iff, <- not_true_iff_false, Qeq_bool_iff.
  reflexivity.
Qed.

(** ** The headset-responsive layer *)

Module HeadsetFacts.
Import Headset.
Local Open Scope Q_scope.

(** The first reading a fresh layer takes in is stored and nothing else
    happens to the layer. *)
Lemma first_tick (respond : Field) (smooth now : Q) (e : EEGInfo) :
  on e = true ->
  render (init respond smooth) now (Some e)
  = Done (mkLayer respond smooth [getattr e respond] [now] (Some e) None None,
          None).
Proof.
  intro Hon. unfold render, init, new_reading. cbn. rewrite Hon. cbn.
  destruct (Qgtb (now - now) smooth); reflexivity.
Qed.

(** C1, as stated, fails: the first reading of a fresh layer is stored, and
    the level handed to [render_responsive] on that tick is [None], not the
    reading. *)
Lemma first_reading_gives_no_level :
  let e := mkEEG 1 (3 # 4) 0 true in
  (exists L', render (init attention_field 5) 100 (Some e) = Done (L', None))
  /\ (forall L', render (init attention_field 5) 100 (Some e)
                 <> Done (L', Some (attention e))).
Proof.
  cbv zeta. rewrite first_tick by reflexivity. split.
  - eexists. reflexivity.
  - intros L' H. discriminate H.
Qed.

(** C1, amended: on the first distinct 'on' reading of a fresh layer the
    reading is only recorded and the response level of that tick is absent;
    when the second distinct 'on' reading arrives (smoothing window not
    negative) the mean of the two readings is adopted at once as the steady
    value and is the response level of that same tick, with no fade. *)
Theorem second_reading_adopts_mean
    (respond : Field) (smooth now1 now2 : Q) (e1 e2 : EEGInfo) :
  on e1 = true -> on e2 = true -> ident e2 <> ident e1 -> 0 <= smooth ->
  let r1 := getattr e1 respond in
  let r2 := getattr e2 respond in
  exists L1 L2,
    render (init respond smooth) now1 (Some e1) = Done (L1, None)
    /\ measurements L1 = [r1] /\ last_response_level L1 = None
    /\ render L1 now2 (Some e2) = Done (L2, Some (mean [r2; r1]))
    /\ last_response_level L2 = Some (mean [r2; r1])
    /\ fading_to L2 = None.
Proof.
  intros Hon1 Hon2 Hid Hs r1 r2.
  eexists. eexists. split; [apply first_tick; exact Hon1|].
  split; [reflexivity|]. split; [reflexivity|].
  unfold render, new_reading. cbn.
  apply Nat.eqb_neq in Hid. rewrite Hid, Hon2. cbn.
  assert (H0 : Qgtb (now2 - now2) smooth = false)
    by (apply Qgtb_false; Lqa.lra).
  rewrite H0.
  destruct (Qgtb (now2 - now1) smooth); cbn; repeat split; reflexivity.
Qed.

(** A concrete run of [second_reading_adopts_mean]. *)
Lemma second_reading_adopts_mean_witness :
  exists L1 L2,
    render (init attention_field 5) 100 (Some (mkEEG 1 (3 # 4) 0 true))
    = Done (L1, None)
    /\ measurements L1 = [3 # 4] /\ last_response_level L1 = None
    /\ render L1 101 (Some (mkEEG 2 (1 # 4) 0 true))
       = Done (L2, Some (mean [1 # 4; 3 # 4]))
    /\ last_response_level L2 = Some (mean [1 # 4; 3 # 4])
    /\ fading_to L2 = None.
Proof.
  apply (second_reading_adopts_mean attention_field 5 100 101
           (mkEEG 1 (3 # 4) 0 true) (mkEEG 2 (1 # 4) 0 true)).
  - reflexivity.
  - reflexivity.
  - cbn. lia.
  - Lqa.lra.
Defined.

(** C2: the fade branch of [render], taken on a tick that takes in no new
    reading, with steady value [old], fade target [new] and newest
    measurement at time [T].  The branch is guarded by [elif self.fading_to],
    which a target of 0.0 does not pass.  For a target other than 0.0: at
    every [t] with [T <= t < T + 1] the layer is left as it is and the level
    is [(t-T)*new + (1-(t-T))*old], which lies between [old] and [new] and
    moves toward [new] as [t] grows; at every [t] with [t - T >= 1] the fade
    is committed ([last_response_level] becomes [new], [fading_to] is
    cleared) and [new] is the level.  For the target 0.0, at every [t]
    whatsoever the layer is left as it is, fade pending, and no level at
    all ([None]) is handed on: the fade is neither shown nor committed. *)
Theorem fade_is_shown_unless_target_zero
    (L : Layer) (eeg : option EEGInfo) (T old new : Q) (ts : list Q) :
  timestamps L = T :: ts ->
  last_response_level L = Some old ->
  fading_to L = Some new ->
  new_reading L eeg = None ->
  (~ new == 0 ->
     (forall t, T <= t < T + 1 ->
        render L t eeg = Done (L, Some (blend T old new t))
        /\ Qmin old new <= blend T old new t <= Qmax old new)
     /\ (forall t1 t2, T <= t1 -> t1 <= t2 -> t2 < T + 1 ->
           (old <= new -> blend T old new t1 <= blend T old new t2 <= new)
           /\ (new <= old -> new <= blend T old new t2 <= blend T old new t1))
     /\ (forall t, 1 <= t - T ->
           exists L', render L t eeg = Done (L', Some new)
                      /\ last_response_level L' = Some new
                      /\ fading_to L' = None
                      /\ measurements L' = measurements L
                      /\ timestamps L' = timestamps L))
  /\ (new == 0 -> forall t, render L t eeg = Done (L, None)).
Proof.
  intros Hts Hold Hnew Hno. split.
  - intro Hnz.
    assert (Htr : truthy (fading_to L) = true)
      by (rewrite Hnew; apply truthy_Some; exact Hnz).
    split; [|split].
    + intros t [Ht1 Ht2]. split.
      * unfold render. rewrite Hno, Htr, Hts.
        assert (H : Qle_bool 1 (t - T) = false).
        { apply not_true_iff_false. rewrite Qle_bool_iff. Lqa.lra. }
        rewrite H, Hnew, Hold. reflexivity.
      * unfold blend.
        destruct (Q.min_spec old new) as [[Hlt Hmin]|[Hle Hmin]];
        destruct (Q.max_spec old new) as [[Hlt' Hmax]|[Hle' Hmax]];
        rewrite Hmin, Hmax; split; Lqa.nra.
    + intros t1 t2 H1 H12 H2. unfold blend.
      split; intro Hord; split; Lqa.nra.
    + intros t Ht. exists (end_fade L). split.
      * unfold render. rewrite Hno, Htr, Hts.
        apply Qle_bool_iff in Ht. rewrite Ht. cbn. rewrite Hnew. reflexivity.
      * cbn. rewrite Hnew. repeat split.
  - intros Hz t.
    assert (Htr : truthy (fading_to L) = false).
    { rewrite Hnew. apply not_true_iff_false. rewrite truthy_Some.
      intro Hn. exact (Hn Hz). }
    unfold render. rewrite Hno, Htr. reflexivity.
Qed.

(** [fade_is_shown_unless_target_zero] on a fresh layer with the default
    window of 5 s that takes in readings of 0.5 at 0 s and 1 s and of 0.0
    every second from 2 s to 9 s.  At 9 s the kept readings are all 0.0, so
    the fade target is 0.0 while the steady value is 1/14; half a second
    into that fade and two seconds into it the level is [None] and nothing
    is committed. *)
Lemma fade_is_shown_unless_target_zero_witness :
  exists L old new,
    run (init attention_field 5) zero_run = Done L
    /\ timestamps L = [9; 8; 7; 6; 5; 4; 3]
    /\ last_response_level L = Some old /\ old == 1 # 14
    /\ fading_to L = Some new /\ new == 0
    /\ render L (19 # 2) (last_eeg L) = Done (L, None)
    /\ render L 11 (last_eeg L) = Done (L, None).
Proof.
  destruct (run (init attention_field 5) zero_run) as [L| |] eqn:Hrun;
    [|vm_compute in Hrun; discriminate Hrun
     |vm_compute in Hrun; discriminate Hrun].
  vm_compute in Hrun. injection Hrun as <-.
  do 3 eexists. split; [reflexivity|].
  split; [reflexivity|]. split; [reflexivity|].
  split; [reflexivity|]. split; [reflexivity|].
  split; [reflexivity|].
  split;
    match goal with
    | |- render ?L0 ?t ?e = _ =>
        apply (proj2 (fade_is_shown_unless_target_zero L0 e 9 (1 # 14) (0 # 7)
                        [8; 7; 6; 5; 4; 3] eq_refl eq_refl eq_refl eq_refl))
    end; reflexivity.
Defined.

(** *** Pruning of the history *)

(** Once the scan meets an entry older than the window it stops there:
    what follows that entry in the two lists is never looked at and never
    kept. *)
Lemma trim_stops_at_boundary
    (L : Layer) (t0 tb : Q) (P PM ot om : list Q) (n idx : nat) :
  timestamps L = P ++ ot ->
  measurements L = PM ++ om ->
  length PM = length P ->
  nth_error P 0 = Some t0 ->
  last P t0 = tb ->
  smooth_response_over_n_secs L < t0 - tb ->
  (idx < length P)%nat ->
  (length P <= idx + n)%nat ->
  let k := cut_at t0 (smooth_response_over_n_secs L) idx (skipn idx P) in
  trim n idx L = Done (set_history L (firstn k PM) (firstn k P)).
Proof.
  intros Hts Hms Hlen H0 Hlast Hexp.
  revert idx. induction n as [|n IH]; intros idx Hidx Hn k; [lia|].
  cbn [trim].
  assert (Ht0 : nth_error (timestamps L) 0 = Some t0).
  { rewrite Hts, nth_error_app1; [exact H0|].
    destruct P; [discriminate|cbn; lia]. }
  destruct (nth_error P idx) as [ti|] eqn:Hti;
    [|apply nth_error_None in Hti; lia].
  assert (Hti' : nth_error (timestamps L) idx = Some ti).
  { rewrite Hts, nth_error_app1; assumption. }
  rewrite Ht0, Hti'. cbv zeta.
  assert (Hsk : skipn idx P = ti :: skipn (S idx) P).
  { clear - Hti. revert idx Hti.
    induction P as [|x P IHP]; intros [|idx] H; try discriminate.
    - injection H as ->. reflexivity.
    - cbn in H. apply (IHP idx H). }
  subst k. rewrite Hsk. cbn [cut_at].
  destruct (Qgtb (t0 - ti) (smooth_response_over_n_secs L)) eqn:Hgt.
  - rewrite Hts, Hms, !firstn_app.
    replace (idx + 1 - length P)%nat with 0%nat by lia.
    replace (idx + 1 - length PM)%nat with 0%nat by lia.
    cbn. rewrite !app_nil_r. reflexivity.
  - assert (Hnext : (S idx < length P)%nat).
    { destruct (Nat.eq_dec (S idx) (length P)) as [Heq|]; [|lia].
      exfalso.
      assert (ti = tb).
      { rewrite <- Hlast. clear - Hti Heq. revert idx Hti Heq.
        induction P as [|x P IHP]; intros idx Hti Heq; [discriminate|].
        destruct P as [|y P].
        - destruct idx; [|cbn in Heq; lia]. injection Hti as ->. reflexivity.
        - destruct idx; [cbn in Heq; lia|].
          apply (IHP idx); [exact Hti|cbn in *; lia]. }
      subst ti. apply Qgtb_false in Hgt. Lqa.lra. }
    apply IH; lia.
Qed.

(** The tick that takes in a new reading [e], when the history holds an
    entry [(mb, tb)] that is older than the window: the scan stops at it or
    before it, and the entries after it are never looked at. *)
Lemma render_cut_form
    (L : Layer) (pm pt om ot : list Q) (mb tb now : Q)
    (eeg : option EEGInfo) (e : EEGInfo) :
  length pm = length pt ->
  new_reading L eeg = Some e ->
  smooth_response_over_n_secs L < now - tb ->
  render (set_history L (pm ++ mb :: om) (pt ++ tb :: ot)) now eeg
  = (let L1 := if truthy (fading_to L) then end_fade L else L in
     let P := now :: pt ++ [tb] in
     let PM := getattr e (respond_to L) :: pm ++ [mb] in
     let k := cut_at now (smooth_response_over_n_secs L) 0 P in
     let L3 := mkLayer (respond_to L) (smooth_response_over_n_secs L)
                       (firstn k PM) (firstn k P) (Some e)
                       (last_response_level L1) (fading_to L1) in
     let L4 := if (1 <? length (measurements L3))%nat
               then start_fade L3 (mean (measurements L3)) else L3 in
     Done (L4, last_response_level L4)).
Proof.
  intros Hlen Hnr Hexp. unfold render.
  change (new_reading (set_history L (pm ++ mb :: om) (pt ++ tb :: ot)) eeg)
    with (new_reading L eeg).
  rewrite Hnr. cbv zeta.
  change (fading_to (set_history L (pm ++ mb :: om) (pt ++ tb :: ot)))
    with (fading_to L).
  destruct (truthy (fading_to L)) eqn:Htr.
  - erewrite (trim_stops_at_boundary _ now tb (now :: pt ++ [tb])
                (getattr e (respond_to L) :: pm ++ [mb]) ot om).
    + cbn. reflexivity.
    + cbn. rewrite <- app_assoc. reflexivity.
    + cbn. rewrite <- app_assoc. reflexivity.
    + cbn. rewrite !length_app. cbn. lia.
    + reflexivity.
    + change (now :: pt ++ [tb]) with ((now :: pt) ++ [tb]).
      apply last_last.
    + exact Hexp.
    + cbn. lia.
    + cbn. rewrite !length_app. cbn. lia.
  - erewrite (trim_stops_at_boundary _ now tb (now :: pt ++ [tb])
                (getattr e (respond_to L) :: pm ++ [mb]) ot om).
    + cbn. reflexivity.
    + cbn. rewrite <- app_assoc. reflexivity.
    + cbn. rewrite <- app_assoc. reflexivity.
    + cbn. rewrite !length_app. cbn. lia.
    + reflexivity.
    + change (now :: pt ++ [tb]) with ((now :: pt) ++ [tb]).
      apply last_last.
    + exact Hexp.
    + cbn. lia.
    + cbn. rewrite !length_app. cbn. lia.
Qed.

(** When every entry in front of the boundary is within the window, the
    scan runs up to the boundary and keeps it. *)
Lemma cut_at_within (t0 window tb : Q) (P : list Q) :
  Forall (fun t => t0 - t <= window) P ->
  window < t0 - tb ->
  forall idx, cut_at t0 window idx (P ++ [tb]) = (idx + length P + 1)%nat.
Proof.
  intros Hin Hexp. induction Hin as [|t P Ht _ IH]; intro idx.
  - cbn. apply Qgtb_true in Hexp. rewrite Hexp. lia.
  - cbn. apply Qgtb_false in Ht. rewrite Ht, IH. lia.
Qed.

(** C3, as stated, fails.  Window 5 s, readings at 0 s, 6 s and 7 s.  The
    reading taken at 0 s is older than the window from the tick at 6 s on,
    yet the fade target computed at 7 s still depends on it: 2/3 when it
    was 1, 1/2 when it was 1/2. *)
Lemma expired_measurement_still_counts :
  let ticks := fun x : Q =>
    [(0, Some (mkEEG 1 x 0 true));
     (6, Some (mkEEG 2 (1 # 2) 0 true));
     (7, Some (mkEEG 3 (1 # 2) 0 true))] in
  exists LA LB a b,
    run (init attention_field 5) (ticks 1) = Done LA
    /\ run (init attention_field 5) (ticks (1 # 2)) = Done LB
    /\ measurements LA = [1 # 2; 1 # 2; 1]
    /\ timestamps LA = [7; 6; 0]
    /\ fading_to LA = Some a /\ a == 2 # 3
    /\ fading_to LB = Some b /\ b == 1 # 2
    /\ ~ a == b.
Proof.
  cbv zeta. do 4 eexists.
  split; [vm_compute; reflexivity|].
  split; [vm_compute; reflexivity|].
  cbn [measurements timestamps fading_to].
  repeat split; try reflexivity.
  intro H. vm_compute in H. discriminate H.
Qed.

(** C3, amended: when a new reading [e] is taken in at [now] and the
    history holds a measurement [(mb, tb)] older than the smoothing window,
    the measurements behind it (older still) have no effect on that tick:
    the layer afterwards, its fade target and the level are the same
    whatever those are.  When moreover [(mb, tb)] is the newest one outside
    the window (every newer entry is within it), the history kept is the
    new reading, the entries within the window and [(mb, tb)] itself as the
    cut boundary, nothing behind it; and the rolling mean computed on that
    tick, which becomes the fade target (or the steady value when there is
    none yet), is the mean of exactly these, [mb] included. *)
Theorem measurements_behind_boundary_ignored
    (L : Layer) (pm pt om ot : list Q) (mb tb now : Q)
    (eeg : option EEGInfo) (e : EEGInfo) :
  length pm = length pt ->
  new_reading L eeg = Some e ->
  smooth_response_over_n_secs L < now - tb ->
  (forall om' ot',
     render (set_history L (pm ++ mb :: om) (pt ++ tb :: ot)) now eeg
     = render (set_history L (pm ++ mb :: om') (pt ++ tb :: ot')) now eeg)
  /\ (0 <= smooth_response_over_n_secs L ->
      Forall (fun t => now - t <= smooth_response_over_n_secs L) pt ->
      let kept := getattr e (respond_to L) :: pm ++ [mb] in
      let steady :=
        last_response_level (if truthy (fading_to L) then end_fade L else L) in
      exists L',
        render (set_history L (pm ++ mb :: om) (pt ++ tb :: ot)) now eeg
        = Done (L', last_response_level L')
        /\ measurements L' = kept
        /\ timestamps L' = now :: pt ++ [tb]
        /\ (truthy steady = true ->
            fading_to L' = Some (mean kept)
            /\ last_response_level L' = steady)
        /\ (truthy steady = false ->
            last_response_level L' = Some (mean kept))).
Proof.
  intros Hlen Hnr Hexp. split.
  - intros om' ot'.
    rewrite (render_cut_form L pm pt om ot mb tb now eeg e Hlen Hnr Hexp).
    rewrite (render_cut_form L pm pt om' ot' mb tb now eeg e Hlen Hnr Hexp).
    reflexivity.
  - intros Hs Hin kept steady.
    rewrite (render_cut_form L pm pt om ot mb tb now eeg e Hlen Hnr Hexp).
    cbv zeta.
    assert (Hcut : cut_at now (smooth_response_over_n_secs L) 0
                          (now :: pt ++ [tb]) = (length pt + 2)%nat).
    { change (now :: pt ++ [tb]) with ((now :: pt) ++ [tb]).
      rewrite (cut_at_within now (smooth_response_over_n_secs L) tb
                 (now :: pt)); [cbn; lia| |exact Hexp].
      constructor; [Lqa.lra|exact Hin]. }
    rewrite Hcut.
    assert (Hk1 : firstn (length pt + 2) (getattr e (respond_to L) :: pm ++ [mb])
                  = kept).
    { apply firstn_all2. cbn. rewrite length_app. cbn. lia. }
    assert (Hk2 : firstn (length pt + 2) (now :: pt ++ [tb])
                  = now :: pt ++ [tb]).
    { apply firstn_all2. cbn. rewrite length_app. cbn. lia. }
    rewrite Hk1, Hk2. cbn [measurements].
    assert (Hlong : (1 <? length kept)%nat = true).
    { apply Nat.ltb_lt. subst kept. cbn. rewrite length_app. cbn. lia. }
    rewrite Hlong. eexists. split; [reflexivity|].
    unfold start_fade. cbn [last_response_level]. fold steady.
    destruct (truthy steady); cbn.
    + split; [reflexivity|]. split; [reflexivity|].
      split; [intros _; split; reflexivity|discriminate].
    + split; [reflexivity|]. split; [reflexivity|].
      split; [discriminate|intros _; reflexivity].
Qed.

(** [measurements_behind_boundary_ignored] at 13 s, window 5 s: the
    readings at 6 s and 7 s are both outside the window; the one at 6 s
    may be 1 or 0, or missing, while the one at 7 s is kept and counted. *)
Lemma measurements_behind_boundary_ignored_witness :
  let L := init attention_field 5 in
  let e := mkEEG 4 (1 # 2) 0 true in
  render (set_history L ([1 # 2] ++ (1 # 2) :: [1]) ([12] ++ 7 :: [6]))
         13 (Some e)
  = render (set_history L ([1 # 2] ++ (1 # 2) :: []) ([12] ++ 7 :: []))
           13 (Some e)
  /\ exists L',
       render (set_history L ([1 # 2] ++ (1 # 2) :: [1]) ([12] ++ 7 :: [6]))
              13 (Some e)
       = Done (L', last_response_level L')
       /\ measurements L' = [1 # 2; 1 # 2; 1 # 2]
       /\ timestamps L' = [13; 12; 7].
Proof.
  cbv zeta.
  destruct (measurements_behind_boundary_ignored (init attention_field 5)
              [1 # 2] [12] [1] [6] (1 # 2) 7 13
              (Some (mkEEG 4 (1 # 2) 0 true)) (mkEEG 4 (1 # 2) 0 true))
    as [Hsame Hkept].
  - reflexivity.
  - reflexivity.
  - cbn. Lqa.lra.
  - split; [apply Hsame|].
    destruct Hkept as (L' & Hr & Hm & Ht & _).
    + cbn. Lqa.lra.
    + repeat constructor. cbn. Lqa.lra.
    + exists L'. split; [exact Hr|]. split; [exact Hm|exact Ht].
Defined.

End HeadsetFacts.

(** ** Random choice *)

Lemma choice_In {A : Type} (u : Q) (seq : list A) (x : A) :
  choice u seq = Done x -> In x seq.
Proof.
  unfold choice.
  destruct (_ <? 0)%Z; [discriminate|].
  destruct (nth_error seq _) as [y|] eqn:Hn; [|discriminate].
  intro H. injection H as <-. exact (nth_error_In _ _ Hn).
Qed.

(** A draw in [0, 1) picks the entry whose index is the integer part of
    [u * len(seq)]. *)
Lemma choice_index {A : Type} (u : Q) (seq : list A) :
  (0 <= u)%Q -> (u < 1)%Q -> seq <> [] ->
  let k := Z.to_nat (Qfloor (u * inject_Z (Z.of_nat (length seq)))) in
  (k < length seq)%nat /\
  exists x, nth_error seq k = Some x /\ choice u seq = Done x.
Proof.
  intros H0 H1 Hne k.
  set (len := Z.of_nat (length seq)) in *.
  assert (Hlen : (0 < len)%Z).
  { subst len. destruct seq; [contradiction|cbn; lia]. }
  assert (Hq : (0 < inject_Z len)%Q).
  { change 0%Q with (inject_Z 0). rewrite <- Zlt_Qlt. exact Hlen. }
  assert (Hlo : (0 <= u * inject_Z len)%Q) by Lqa.nra.
  assert (Hhi : (u * inject_Z len < inject_Z len)%Q) by Lqa.nra.
  assert (Hf0 : (0 <= Qfloor (u * inject_Z len))%Z).
  { change 0%Z with (Qfloor 0). apply Qfloor_resp_le. exact Hlo. }
  assert (Hf1 : (Qfloor (u * inject_Z len) < len)%Z).
  { rewrite Zlt_Qlt.
    apply Qle_lt_trans with (u * inject_Z len)%Q; [apply Qfloor_le|exact Hhi]. }
  assert (Hk : (k < length seq)%nat) by (subst k len; lia).
  split; [exact Hk|].
  destruct (nth_error seq k) as [x|] eqn:Hx;
    [|apply nth_error_None in Hx; lia].
  exists x. split; [reflexivity|].
  unfold choice, int_of. fold len.
  apply Qle_bool_iff in Hlo. rewrite Hlo.
  destruct (Qfloor (u * inject_Z len) <? 0)%Z eqn:Hneg;
    [apply Z.ltb_lt in Hneg; lia|].
  rewrite Hneg. fold k. rewrite Hx. reflexivity.
Qed.

(** ** Travelling impulses *)

Module ImpulseFacts.
Import Impulse.
Local Open Scope Q_scope.

Lemma candidates_Out (m : Model) (p : Impulse) (l : list nat) (e : nat) :
  motion p = Out -> candidates m p = Done l -> List.In e l ->
  (edgeHeight m (edge p) < edgeHeight m e)%Z.
Proof.
  unfold candidates. intros -> H Hin. injection H as <-.
  apply filter_In in Hin. destruct Hin as [_ Hlt].
  apply Z.ltb_lt. exact Hlt.
Qed.

Lemma candidates_In (m : Model) (p : Impulse) (l : list nat) (e : nat) :
  motion p = In -> candidates m p = Done l -> List.In e l ->
  (edgeHeight m e < edgeHeight m (edge p))%Z.
Proof.
  unfold candidates. intros -> H Hin. injection H as <-.
  apply filter_In in Hin. destruct Hin as [_ Hlt].
  apply Z.ltb_lt. exact Hlt.
Qed.

(** C4: in every movement step in which an impulse moves, the edge it
    moves to is strictly higher than the edge it leaves if it moves in
    'Out' mode and strictly lower if it moves in 'In' mode (the mode is the
    one in force when the move is made, after the step's mode switch and
    bounce flips; it is also the mode the impulse has after the step).  A
    step that does not move the impulse marks it dead. *)
Theorem move_follows_mode
    (m : Model) (draws rest : list Q) (p p' : Impulse) :
  move m draws p = Done (p', rest) -> step_ok m p p'.
Proof.
  remember (length draws) as n eqn:Hn. revert draws Hn p rest p'.
  induction n as [n IH] using lt_wf_ind.
  intros draws Hn p rest p' H. destruct draws as [|u draws1]; [discriminate|].
  cbn [move] in H.
  set (p1 := set_motion p (switch_mode p (edgeHeight m (edge p)) u)) in *.
  destruct (candidates m p1) as [[|e es]| |] eqn:Hc; try discriminate.
  - destruct draws1 as [|b draws2]; [discriminate|].
    assert (Hdead : Done (set_dead p1, draws2) = Done (p', rest) ->
                    step_ok m p p').
    { intro E. injection E as <- <-. left. repeat split. }
    assert (Hrec : forall mo, move m draws2 (set_motion p1 mo) = Done (p', rest)
                              -> step_ok m p p').
    { intros mo E.
      apply (IH (length draws2)) in E; [exact E|subst n; cbn; lia|reflexivity]. }
    destruct (Qltb b (bounceChance p1)); [|exact (Hdead H)].
    destruct (motion p1); [exact (Hrec _ H)|exact (Hrec _ H)|exact (Hdead H)].
  - unfold _move_to_any_of in H.
    destruct draws1 as [|c draws2]; [discriminate|].
    destruct (choice c (e :: es)) as [x| |] eqn:Hx; try discriminate.
    cbn in H. injection H as <- <-. apply choice_In in Hx.
    right. cbn. repeat split.
    + intro Hm. exact (candidates_Out m p1 _ x Hm Hc Hx).
    + intro Hm. exact (candidates_In m p1 _ x Hm Hc Hx).
Qed.

(** [move_follows_mode] on the trunk: an 'Out' impulse on the root moves
    to the child edge. *)
Lemma move_follows_mode_witness :
  step_ok twig (Impulse_init white 0 "Out"%string)
          (mkImpulse white 1 (Some 0%nat) false Out (1 # 10) (2 # 10)).
Proof.
  apply (move_follows_mode twig [1 # 2; 0] []).
  reflexivity.
Defined.

Lemma reap_idempotent (ps : list (option Impulse)) :
  _reap_pulses (_reap_pulses ps) = _reap_pulses ps.
Proof.
  unfold _reap_pulses. rewrite map_map. apply map_ext.
  intros [q|]; [|reflexivity].
  destruct (dead q) eqn:Hd; [reflexivity|]. rewrite Hd. reflexivity.
Qed.

(** C5: an impulse with no candidate edge for its mode whose bounce draw
    fails (the draw is not below [bounceChance]; always so for a zero
    [bounceChance]) is marked dead by that very call of [move], without
    moving; rendering a dead impulse leaves the frame as it is; and the
    next movement cycle (the next [_move_pulses] that passes the time gate)
    replaces every dead impulse by an empty slot before it does anything
    else: it behaves exactly as on the layer with those slots already
    emptied.  (The gate is passed when [last_time], set and not 0.0, lies
    at least [frequency] back.) *)
Theorem dead_end_kills_then_reaped
    (hsv_to_rgb : Q -> Q -> Q -> Color)
    (m : Model) (p : Impulse) (u b : Q) (rest : list Q) :
  let p1 := set_motion p (switch_mode p (edgeHeight m (edge p)) u) in
  candidates m p1 = Done [] ->
  (bounceChance p <= b \/ (bounceChance p == 0 /\ 0 <= b)) ->
  move m (u :: b :: rest) p = Done (set_dead p1, rest)
  /\ dead (set_dead p1) = true
  /\ edge (set_dead p1) = edge p
  /\ (forall q frame, dead q = true -> Impulse_render q frame = Done frame)
  /\ (forall ps i q, nth_error ps i = Some (Some q) -> dead q = true ->
        nth_error (_reap_pulses ps) i = Some None)
  /\ (forall L time draws lt,
        last_time L = Some lt -> ~ lt == 0 ->
        lt + frequency L <= time ->
        _move_pulses hsv_to_rgb L m time draws
        = _move_pulses hsv_to_rgb (set_pulses L (_reap_pulses (pulses L)))
                       m time draws).
Proof.
  intros p1 Hc Hb.
  assert (Hfail : Qltb b (bounceChance p1) = false).
  { apply Qltb_false. cbn. destruct Hb as [Hb|[Hz Hb]]; [exact Hb|].
    rewrite Hz. exact Hb. }
  split; [|split; [|split; [|split; [|split]]]].
  - cbn [move]. fold p1. rewrite Hc, Hfail. reflexivity.
  - reflexivity.
  - reflexivity.
  - intros q frame Hd. unfold Impulse_render. rewrite Hd. reflexivity.
  - intros ps i q Hn Hd. unfold _reap_pulses.
    rewrite nth_error_map, Hn. cbn. rewrite Hd. reflexivity.
  - intros L time draws lt Hlt Hnz Hgate. apply truthy_Some in Hnz as Htr.
    unfold _move_pulses. cbn.
    rewrite Hlt, Htr. cbn.
    assert (Hg : Qltb time (lt + frequency L) = false)
      by (apply Qltb_false; exact Hgate).
    rewrite Hg, reap_idempotent.
    destruct (_spawn_pulses _ _ _ _ _ _ _) as [[ps2 d2]| |]; try reflexivity.
Qed.

(** [dead_end_kills_then_reaped] on the trunk: an 'Out' impulse on the
    outermost edge has nowhere to go; its draws are 1/2 (no mode switch)
    and 1/2 (no bounce). *)
Lemma dead_end_kills_then_reaped_witness :
  let p := mkImpulse white 1 (Some 0%nat) false Out (1 # 10) (2 # 10) in
  move twig [1 # 2; 1 # 2] p
  = Done (mkImpulse white 1 (Some 0%nat) true Out (1 # 10) (2 # 10), []).
Proof.
  cbv zeta.
  apply (dead_end_kills_then_reaped (fun _ _ v => (v, v, v)) twig
           (mkImpulse white 1 (Some 0%nat) false Out (1 # 10) (2 # 10))
           (1 # 2) (1 # 2) []).
  - reflexivity.
  - left. cbn. Lqa.lra.
Defined.

Lemma kept_or_spawned_refl (m : Model) (ps : list (option Impulse)) :
  Forall2 (kept_or_spawned m) ps ps.
Proof. induction ps; constructor; [left; reflexivity|assumption]. Qed.

Lemma kept_or_spawned_trans (m : Model) (a b c : list (option Impulse)) :
  Forall2 (kept_or_spawned m) a b -> Forall2 (kept_or_spawned m) b c ->
  Forall2 (kept_or_spawned m) a c.
Proof.
  intro Hab. revert c. induction Hab as [|x y a b Hxy Hab IH]; intros c Hbc.
  - inversion Hbc. constructor.
  - inversion Hbc as [|y' z b' c' Hyz Hbc']; subst. constructor.
    + destruct Hxy as [->|[-> [q [-> Hq]]]]; [exact Hyz|].
      destruct Hyz as [<-|[Hy _]]; [|discriminate].
      right. split; [reflexivity|]. exists q. split; [reflexivity|exact Hq].
    + apply IH. exact Hbc'.
Qed.

Lemma fill_first_free_spec
    (m : Model) (ps ps' : list (option Impulse)) (c : Color) (r : nat)
    (A : Type) (x : A) :
  List.In r (roots m) ->
  fill_first_free ps (Impulse_init c r x) = Some ps' ->
  Forall2 (kept_or_spawned m) ps ps'.
Proof.
  intro Hr. revert ps'. induction ps as [|[p|] ps IH]; intros ps' H; cbn in H.
  - discriminate.
  - destruct (fill_first_free ps _) as [rest|]; [|discriminate].
    injection H as <-. constructor; [left; reflexivity|].
    apply IH. reflexivity.
  - injection H as <-. constructor; [|apply kept_or_spawned_refl].
    right. split; [reflexivity|]. eexists. split; [reflexivity|].
    cbn. auto.
Qed.

(** C10: whatever is passed as [motion], the impulse built by the
    constructor is in 'Out' mode; and every impulse that [_spawn_pulses]
    puts into a free slot sits on a root edge, alive, in 'Out' mode, the
    other slots being left as they were. *)
Theorem constructor_ignores_motion :
  (forall (A : Type) (c : Color) (e : nat) (motion_arg : A),
      motion (Impulse_init c e motion_arg) = Out)
  /\ (forall (c : Color) (e : nat),
        Impulse_init c e "In"%string = Impulse_init c e "Out"%string
        /\ Impulse_init c e Loop = Impulse_init c e Out)
  /\ (forall hsv_to_rgb m chance maxsat bright draws ps ps' rest,
        _spawn_pulses hsv_to_rgb m chance maxsat bright draws ps
        = Done (ps', rest) ->
        Forall2 (kept_or_spawned m) ps ps').
Proof.
  split; [reflexivity|]. split; [split; reflexivity|].
  intros hsv m chance maxsat bright draws.
  remember (length draws) as n eqn:Hn. revert draws Hn.
  induction n as [n IH] using lt_wf_ind.
  intros draws Hn ps ps' rest H.
  destruct draws as [|u d1]; [discriminate|]. cbn [_spawn_pulses] in H.
  assert (Hsame : Done (ps, d1) = Done (ps', rest) ->
                  Forall2 (kept_or_spawned m) ps ps').
  { intro E. injection E as <- <-. apply kept_or_spawned_refl. }
  destruct (Qltb u chance); [|exact (Hsame H)].
  destruct (has_free ps); [|exact (Hsame H)].
  destruct (negb (Qeq_bool maxsat 0)).
  - destruct d1 as [|hue [|sat [|c d4]]]; try discriminate.
    destruct (choice c (roots m)) as [r| |] eqn:Hr; try discriminate.
    apply choice_In in Hr.
    destruct (fill_first_free ps _) as [ps1|] eqn:Hf.
    + apply (kept_or_spawned_trans m ps ps1 ps').
      * exact (fill_first_free_spec m ps ps1 _ r _ _ Hr Hf).
      * apply (IH (length d4)) with (draws := d4) (rest := rest);
          [subst n; cbn; lia|reflexivity|exact H].
    + injection H as <- <-. apply kept_or_spawned_refl.
  - destruct d1 as [|c d2]; try discriminate.
    destruct (choice c (roots m)) as [r| |] eqn:Hr; try discriminate.
    apply choice_In in Hr.
    destruct (fill_first_free ps _) as [ps1|] eqn:Hf.
    + apply (kept_or_spawned_trans m ps ps1 ps').
      * exact (fill_first_free_spec m ps ps1 _ r _ _ Hr Hf).
      * apply (IH (length d2)) with (draws := d2) (rest := rest);
          [subst n; cbn; lia|reflexivity|exact H].
    + injection H as <- <-. apply kept_or_spawned_refl.
Qed.

(** [constructor_ignores_motion] on the trunk: one spawn into a layer of
    two empty slots (draws: spawn 0, hue 0, saturation 0, root 0, then 1/2
    ends the spawning). *)
Lemma constructor_ignores_motion_witness :
  Forall2 (kept_or_spawned twig) [None; None]
          [Some (Impulse_init white 0 "Out"%string); None].
Proof.
  apply (proj2 (proj2 constructor_ignores_motion)
           (fun _ _ v => (v, v, v)) twig (25 # 100) (25 # 100) (95 # 100)
           [0; 0; 0; 0; 1 # 2] [None; None] _ []).
  reflexivity.
Defined.

End ImpulseFacts.

(** ** Lightning *)

Module LightningFacts.
Import Lightning.
Local Open Scope Q_scope.

Lemma intensities_differ : ~ leader_intensity == branch_intensity.
Proof. intro H. vm_compute in H. discriminate H. Qed.

(** Among the neighbours lit in one pass, the next leader and only the
    next leader is at leader intensity. *)
Lemma lit_leader (next e : nat) :
  (lit next e = leader_intensity <-> e = next)
  /\ (lit next e = branch_intensity <-> e <> next).
Proof.
  unfold lit. destruct (Nat.eqb_spec e next) as [->|Hne]; split; split;
    try tauto; intro H; exfalso.
  - apply intensities_differ. rewrite H. reflexivity.
  - apply intensities_differ. rewrite <- H. reflexivity.
Qed.

Lemma extend_path_spec (m : Model) (draws : list Q) :
  forall leader es0 ints0 es ints rest,
    extend_path m draws leader es0 ints0 = Done (es, ints, rest) ->
    exists es1 ints1 final,
      es = es0 ++ es1 /\ ints = ints0 ++ ints1
      /\ Branching m leader es1 ints1 final.
Proof.
  induction draws as [|u draws IH]; intros leader es0 ints0 es ints rest H.
  - cbn in H. destruct (outwardAdjacency m leader) eqn:Hadj; [|discriminate].
    injection H as <- <- <-. exists [], [], leader.
    rewrite !app_nil_r. repeat split. constructor. exact Hadj.
  - cbn [extend_path] in H.
    destruct (outwardAdjacency m leader) as [|a adj] eqn:Hadj.
    + injection H as <- <- <-. exists [], [], leader.
      rewrite !app_nil_r. repeat split. constructor. exact Hadj.
    + destruct (choice u (a :: adj)) as [next| |] eqn:Hch; try discriminate.
      apply IH in H. destruct H as (es1 & ints1 & final & -> & -> & Hb).
      exists ((a :: adj) ++ es1), (map (lit next) (a :: adj) ++ ints1), final.
      rewrite <- !app_assoc. repeat split.
      rewrite <- Hadj. constructor.
      * rewrite Hadj. discriminate.
      * rewrite Hadj. exact (choice_In _ _ _ Hch).
      * exact Hb.
Qed.

(** On a model whose outward adjacency goes down a rank at every step, the
    loop comes to an end as soon as it has one draw per step left. *)
Lemma extend_path_total (m : Model) (rank : nat -> nat) :
  (forall e e', List.In e' (outwardAdjacency m e) -> (rank e' < rank e)%nat) ->
  forall draws leader es0 ints0,
    Forall unit_draw draws -> (rank leader <= length draws)%nat ->
    exists es ints rest,
      extend_path m draws leader es0 ints0 = Done (es, ints, rest).
Proof.
  intros Hrank. induction draws as [|u draws IH];
    intros leader es0 ints0 Hd Hlen.
  - cbn. destruct (outwardAdjacency m leader) as [|a adj] eqn:Hadj.
    + do 3 eexists. reflexivity.
    + specialize (Hrank leader a). rewrite Hadj in Hrank.
      specialize (Hrank (or_introl eq_refl)). cbn in Hlen. lia.
  - cbn [extend_path].
    destruct (outwardAdjacency m leader) as [|a adj] eqn:Hadj.
    + do 3 eexists. reflexivity.
    + inversion Hd as [|u' d' [Hu0 Hu1] Hd']; subst.
      destruct (choice_index u (a :: adj) Hu0 Hu1 ltac:(discriminate))
        as (_ & next & Hnth & Hch).
      rewrite Hch. apply IH; [exact Hd'|].
      apply nth_error_In in Hnth. rewrite <- Hadj in Hnth.
      apply Hrank in Hnth. cbn in Hlen. lia.
Qed.

Lemma Branching_shape (m : Model) (leader final : nat)
    (es : list nat) (ints : list Q) :
  Branching m leader es ints final ->
  outwardAdjacency m final = [] /\ length es = length ints
  /\ Forall (fun x => x = leader_intensity \/ x = branch_intensity) ints.
Proof.
  induction 1 as [leader Hadj|leader next final es ints Hne Hin Hb IH].
  - repeat split; [exact Hadj|constructor].
  - destruct IH as (Hf & Hl & Hall). split; [exact Hf|]. split.
    + rewrite !length_app, length_map, Hl. reflexivity.
    + apply Forall_app. split; [|exact Hall].
      apply Forall_forall. intros x Hx. apply in_map_iff in Hx.
      destruct Hx as (e & <- & _). unfold lit.
      destruct (Nat.eqb e next); auto.
Qed.

(** The bolts after a tick: the old ones that are still alive, then at
    most one new one, built from the draws that follow the tick's first. *)
Lemma render_bolts (L L' : Layer) (m : Model) (time : Q) (frame f : Frame)
    (draws rest' : list Q) :
  render L m time frame draws = Done (L', f, rest') ->
  exists u rest new,
    draws = u :: rest
    /\ bolts L' = purge time (bolts L) ++ new
    /\ forall b, List.In b new -> exists r, Bolt_init m time rest = Done (b, r).
Proof.
  intro H. unfold render in H.
  assert (Hbolts : bolts (note_first_tick L time) = bolts L).
  { unfold note_first_tick. destruct (negb _); reflexivity. }
  rewrite Hbolts in H.
  destruct (last_time (note_first_tick L time)); [|discriminate].
  destruct (Qeq_bool _ 0); [discriminate|].
  destruct draws as [|u rest]; [discriminate|].
  exists u, rest.
  destruct (strikes _ _ _ _).
  - destruct (Bolt_init m time rest) as [[b r]| |] eqn:Hb; try discriminate.
    cbn in H. destruct (update_all _ _ _); try discriminate.
    cbn in H. injection H as <- <- <-. exists [b].
    repeat split. intros b' [<-|[]]. exists r. reflexivity.
  - cbn in H. destruct (update_all _ _ _); try discriminate.
    cbn in H. injection H as <- <- <-. exists [].
    rewrite app_nil_r. repeat split. intros b' [].
Qed.

(** C6: every path [choose_random_path] returns, on any model, starts at
    a root edge lit at leader intensity; from there, at every leader, all
    outward neighbours are lit, the next leader (and no other edge) at
    leader intensity and every other neighbour at the dimmer branch
    intensity; and the path ends exactly at a leader without outward
    neighbours.  The root is the one picked by the first draw, each root
    owning an interval of draws of the same length; and on a model with a
    root whose outward adjacency is well founded the construction does
    return, given draws in [0, 1), one per step.  A render tick never
    alters a bolt: the bolts after it are bolts it had before, unchanged,
    or the one it has just built. *)
Theorem bolt_path_is_leader_with_branches (m : Model) :
  (forall draws es' ints' rest,
      choose_random_path m draws = Done (es', ints', rest) ->
      exists root es ints final,
        es' = root :: es /\ ints' = leader_intensity :: ints
        /\ List.In root (roots m)
        /\ Branching m root es ints final
        /\ outwardAdjacency m final = []
        /\ length es = length ints)
  /\ (forall (rank : nat -> nat) (u0 : Q) (draws : list Q),
        roots m <> [] ->
        (forall e e', List.In e' (outwardAdjacency m e) ->
                      (rank e' < rank e)%nat) ->
        Forall unit_draw (u0 :: draws) ->
        (forall r, List.In r (roots m) -> (rank r <= length draws)%nat) ->
        let n := inject_Z (Z.of_nat (length (roots m))) in
        let k := Z.to_nat (Qfloor (u0 * n)) in
        exists root es ints rest,
          choose_random_path m (u0 :: draws)
          = Done (root :: es, leader_intensity :: ints, rest)
          /\ nth_error (roots m) k = Some root
          /\ inject_Z (Z.of_nat k) / n <= u0 < (inject_Z (Z.of_nat k) + 1) / n)
  /\ (forall next e,
        (lit next e = leader_intensity <-> e = next)
        /\ (lit next e = branch_intensity <-> e <> next))
  /\ (forall L m' time frame ds L' f r b,
        render L m' time frame ds = Done (L', f, r) ->
        List.In b (bolts L') ->
        List.In b (bolts L)
        \/ exists ds' r', Bolt_init m' time ds' = Done (b, r')).
Proof.
  split; [|split; [|split]].
  - intros draws es' ints' rest H. unfold choose_random_path in H.
    destruct draws as [|u d]; [discriminate|].
    destruct (choice u (roots m)) as [root| |] eqn:Hch; try discriminate.
    cbn in H. apply extend_path_spec in H.
    destruct H as (es & ints & final & -> & -> & Hb).
    destruct (Branching_shape m root final es ints Hb) as (Hf & Hl & _).
    exists root, es, ints, final. repeat split; auto.
    exact (choice_In _ _ _ Hch).
  - intros rank u0 draws Hroots Hrank Hd Hlen n k.
    inversion Hd as [|u d [Hu0 Hu1] Hd']; subst.
    destruct (choice_index u0 (roots m) Hu0 Hu1 Hroots)
      as (Hk & root & Hnth & Hch).
    fold n k in Hk, Hnth.
    destruct (extend_path_total m rank Hrank draws root [root]
                [leader_intensity] Hd' (Hlen root (nth_error_In _ _ Hnth)))
      as (es' & ints' & rest & Hext).
    destruct (extend_path_spec m draws _ _ _ _ _ _ Hext)
      as (es & ints & final & -> & -> & Hb).
    exists root, es, ints, rest.
    split; [cbn [choose_random_path bind]; rewrite Hch; exact Hext|].
    split; [exact Hnth|].
    assert (Hn : 0 < n).
    { subst n. change 0 with (inject_Z 0). rewrite <- Zlt_Qlt.
      destruct (roots m); [contradiction|cbn; lia]. }
    assert (Hfl0 : (0 <= Qfloor (u0 * n))%Z).
    { change 0%Z with (Qfloor 0). apply Qfloor_resp_le. Lqa.nra. }
    assert (Hk' : inject_Z (Z.of_nat k) == inject_Z (Qfloor (u0 * n))).
    { subst k. rewrite Z2Nat.id by exact Hfl0. reflexivity. }
    pose proof (Qfloor_le (u0 * n)) as Hlo.
    pose proof (Qlt_floor (u0 * n)) as Hhi.
    rewrite inject_Z_plus in Hhi. rewrite <- Hk' in Hlo, Hhi.
    split.
    + apply Qle_shift_div_r; [exact Hn|exact Hlo].
    + apply Qlt_shift_div_l; [exact Hn|exact Hhi].
  - exact lit_leader.
  - intros L m' time frame ds L' f r b H Hin.
    destruct (render_bolts _ _ _ _ _ _ _ _ H)
      as (u & rest & new & -> & Hbs & Hnew).
    rewrite Hbs in Hin. apply in_app_or in Hin. destruct Hin as [Hin|Hin].
    + left. apply filter_In in Hin. tauto.
    + right. destruct (Hnew b Hin) as (r' & Hb). exists rest, r'. exact Hb.
Qed.

(** [bolt_path_is_leader_with_branches] on the fork: every draw 0 picks
    the root, then edge 1 as leader; edge 2 is lit as a branch. *)
Lemma bolt_path_is_leader_with_branches_witness :
  exists root es ints rest,
    choose_random_path fork [0; 0; 0]
    = Done (root :: es, leader_intensity :: ints, rest)
    /\ nth_error (roots fork) 0 = Some root
    /\ inject_Z 0 / 1 <= 0 < (inject_Z 0 + 1) / 1.
Proof.
  apply (proj1 (proj2 (bolt_path_is_leader_with_branches fork))
           (fun e => match e with O => 1 | _ => 0 end)%nat 0 [0; 0]).
  - discriminate.
  - intros [|[|e]] e' H; cbn in H; try contradiction.
    destruct H as [<-|[<-|[]]]; lia.
  - repeat constructor; unfold unit_draw; Lqa.lra.
  - intros r [<-|[]]. cbn. lia.
Defined.

Lemma Bolt_init_fields (m : Model) (time : Q) (draws rest : list Q) (b : Bolt) :
  Bolt_init m time draws = Done (b, rest) ->
  exists u draws' final es ints,
    draws = u :: draws'
    /\ init_time b = time
    /\ pulse_time b = uniform (25 # 100) (35 # 100) u
    /\ life_time b = pulse_time b + FADE_TIME
    /\ color b = (230 / 255, 230 / 255, 255 / 255)
    /\ edges b = es /\ intensities b = ints
    /\ length es = length ints
    /\ Forall (fun x => x = leader_intensity \/ x = branch_intensity) ints
    /\ (exists root es' ints', es = root :: es' /\ ints = leader_intensity :: ints'
                               /\ Branching m root es' ints' final).
Proof.
  unfold Bolt_init. destruct draws as [|u draws']; [discriminate|].
  destruct (choose_random_path m draws') as [[[es ints] r]| |] eqn:Hp;
    try discriminate.
  cbn. intro H. injection H as <- <-.
  unfold choose_random_path in Hp.
  destruct draws' as [|u1 d1]; [discriminate|].
  destruct (choice u1 (roots m)) as [root| |]; try discriminate.
  cbn in Hp. apply extend_path_spec in Hp.
  destruct Hp as (es1 & ints1 & final & -> & -> & Hb).
  destruct (Branching_shape m root final es1 ints1 Hb) as (_ & Hl & Hall).
  exists u, (u1 :: d1), final, ([root] ++ es1), ([leader_intensity] ++ ints1).
  cbn. repeat split; auto.
  exists root, es1, ints1. auto.
Qed.

(** C7: the strike test of [render].  On every tick the bolts kept are the
    old ones still alive at [time], in their old order, the purge coming
    before the decision, and a new bolt, born at [time], is put behind
    them.  The layer takes a tick for its first when [self.last_time] fails
    the test [if not self.last_time], which [None] and 0.0 both do.  On a
    tick after one at a time [T] other than 0.0, a bolt is built and
    appended exactly when the draw [u] of the tick is strictly below
    [(time - T) / bolt_every].  On a tick after one at time 0.0 the elapsed
    time is taken for zero and, for a draw that is not negative, no bolt is
    built, however large [(time - T) / bolt_every] is. *)
Theorem strike_test_needs_nonzero_last_time
    (L L' : Layer) (m : Model) (time u : Q) (rest rest' : list Q)
    (frame f : Frame) :
  render L m time frame (u :: rest) = Done (L', f, rest') ->
  (exists new,
      bolts L' = purge time (bolts L) ++ new
      /\ (new = [] \/ exists b r, new = [b]
                                  /\ Bolt_init m time rest = Done (b, r)
                                  /\ init_time b = time))
  /\ (forall b, List.In b (purge time (bolts L))
                <-> List.In b (bolts L) /\ time < init_time b + life_time b)
  /\ (forall T, last_time L = Some T -> ~ T == 0 ->
        (u < (time - T) / bolt_every L
         <-> exists b r, Bolt_init m time rest = Done (b, r)
                         /\ bolts L' = purge time (bolts L) ++ [b])
        /\ (~ u < (time - T) / bolt_every L
            <-> bolts L' = purge time (bolts L)))
  /\ (forall T, last_time L = Some T -> T == 0 -> 0 <= u ->
        bolts L' = purge time (bolts L) /\ rest' = rest).
Proof.
  intro H.
  assert (Hpurge : forall b, List.In b (purge time (bolts L))
                   <-> List.In b (bolts L) /\ time < init_time b + life_time b).
  { intro b. unfold purge. rewrite filter_In. unfold alive.
    rewrite Qgtb_true. reflexivity. }
  assert (Hbolts : bolts (note_first_tick L time) = bolts L).
  { unfold note_first_tick. destruct (negb _); reflexivity. }
  assert (Hevery : bolt_every (note_first_tick L time) = bolt_every L).
  { unfold note_first_tick. destruct (negb _); reflexivity. }
  assert (Hzero : forall T, last_time L = Some T -> T == 0 -> 0 <= u ->
            forall last, last_time (note_first_tick L time) = Some last ->
            strikes time last (bolt_every L) u = false).
  { intros T HT Hz Hu last Hl.
    assert (Htr : truthy (last_time L) = false).
    { rewrite HT. apply not_true_iff_false. rewrite truthy_Some.
      intro Hn. exact (Hn Hz). }
    unfold note_first_tick in Hl. rewrite Htr in Hl. cbn in Hl.
    injection Hl as <-. unfold strikes. apply Qgtb_false.
    assert (E : (time - time) / bolt_every L == 0).
    { unfold Qdiv. setoid_replace (time - time) with 0 by ring. ring. }
    rewrite E. exact Hu. }
  unfold render in H. rewrite Hbolts, Hevery in H.
  destruct (last_time (note_first_tick L time)) as [last|] eqn:Hlast;
    [|discriminate].
  destruct (Qeq_bool (bolt_every L) 0); [discriminate|].
  assert (Hlen : forall (b : Bolt) l, l ++ [b] <> l).
  { intros b l E. apply (f_equal (@length Bolt)) in E.
    rewrite length_app in E. cbn in E. lia. }
  destruct (strikes time last (bolt_every L) u) eqn:Hs.
  - destruct (Bolt_init m time rest) as [[b r]| |] eqn:Hb; try discriminate.
    cbn in H. destruct (update_all _ _ _); try discriminate.
    cbn in H. injection H as <- <- <-. cbn [bolts].
    split; [|split; [exact Hpurge|split]].
    + exists [b]. split; [reflexivity|]. right. exists b, r.
      repeat split.
      destruct (Bolt_init_fields m time rest r b Hb)
        as (u' & d' & fin & es & ints & _ & Ht & _). exact Ht.
    + intros T HT Hnz. apply truthy_Some in Hnz as Htr.
      unfold note_first_tick in Hlast.
      rewrite HT, Htr in Hlast. cbn in Hlast. rewrite HT in Hlast.
      injection Hlast as <-. apply Qgtb_true in Hs. split; split.
      * intros _. exists b, r. split; reflexivity.
      * intros _. exact Hs.
      * intro Hn. contradiction.
      * intro E. exfalso. exact (Hlen _ _ E).
    + intros T HT Hz Hu. exfalso.
      rewrite (Hzero T HT Hz Hu last eq_refl) in Hs. discriminate.
  - cbn in H. destruct (update_all _ _ _); try discriminate.
    cbn in H. injection H as <- <- <-. cbn [bolts].
    split; [|split; [exact Hpurge|split]].
    + exists []. rewrite app_nil_r. auto.
    + intros T HT Hnz. apply truthy_Some in Hnz as Htr.
      unfold note_first_tick in Hlast.
      rewrite HT, Htr in Hlast. cbn in Hlast. rewrite HT in Hlast.
      injection Hlast as <-. apply Qgtb_false in Hs. split; split.
      * intro Hlt. exfalso. Lqa.lra.
      * intros (b & r & _ & E). exfalso. symmetry in E. exact (Hlen _ _ E).
      * intros _. reflexivity.
      * intros _. Lqa.lra.
    + intros T HT Hz Hu. split; reflexivity.
Qed.

(** [strike_test_needs_nonzero_last_time] on a fresh layer over the fork
    with a bolt every 0.25 s on average: the first tick comes at time 0.0,
    the second at 5 s with draw 1/2.  The ratio is 20, far above the draw,
    and no bolt is built. *)
Lemma strike_test_needs_nonzero_last_time_witness :
  exists L1 f1 L2 f2 rest2,
    render (init (1 # 4)) fork 0 dark [1 # 2] = Done (L1, f1, [])
    /\ last_time L1 = Some 0
    /\ render L1 fork 5 dark [1 # 2; 0; 0; 0] = Done (L2, f2, rest2)
    /\ 1 # 2 < (5 - 0) / bolt_every L1
    /\ bolts L2 = [] /\ rest2 = [0; 0; 0].
Proof.
  exists (mkLayer [] (1 # 4) (Some 0)), dark.
  destruct (render (mkLayer [] (1 # 4) (Some 0)) fork 5 dark [1 # 2; 0; 0; 0])
    as [[[L2 f2] rest2]| |] eqn:H;
    [|cbn in H; discriminate H|cbn in H; discriminate H].
  exists L2, f2, rest2. split; [reflexivity|]. split; [reflexivity|].
  split; [reflexivity|]. split; [reflexivity|].
  apply (proj2 (proj2 (proj2
           (strike_test_needs_nonzero_last_time _ _ _ _ _ _ _ _ _ H)))
           0 eq_refl).
  - reflexivity.
  - discriminate.
Defined.

(** *** Drawing a bolt *)

Lemma rgb_le_refl (a : R * R * R) : rgb_le a a.
Proof. destruct a as [[r g] bl]. cbn. Lra.lra. Qed.

Lemma rgb_lt_le_trans (a b c : R * R * R) :
  rgb_lt a b -> rgb_le b c -> rgb_lt a c.
Proof.
  destruct a as [[? ?] ?], b as [[? ?] ?], c as [[? ?] ?]. cbn. Lra.lra.
Qed.

(** [mixAdd] on a frame that has the LED: that LED grows by [c], the
    others stay. *)
Lemma mixAdd_at_spec (c : R * R * R) (frame : Frame) (e : nat) :
  (e < length frame)%nat ->
  exists frame',
    mixAdd_at frame e c = Done frame'
    /\ length frame' = length frame
    /\ (forall i, i <> e -> nth_error frame' i = nth_error frame i)
    /\ (rgb_pos c -> forall rgb, nth_error frame e = Some rgb ->
          exists rgb', nth_error frame' e = Some rgb' /\ rgb_lt rgb rgb').
Proof.
  revert e. induction frame as [|[[r g] bl] frame IH]; intros e He.
  - cbn in He. lia.
  - destruct e as [|e].
    + destruct c as [[r' g'] bl']. eexists. split; [reflexivity|].
      split; [reflexivity|]. split.
      * intros [|i] Hi; [contradiction|reflexivity].
      * intros (Hr & Hg & Hb) rgb Hrgb. injection Hrgb as <-.
        eexists. split; [reflexivity|]. cbn. Lra.lra.
    + cbn in He. destruct (IH e) as (frame' & Hm & Hl & Hother & Hsame); [lia|].
      exists ((r, g, bl) :: frame'). split; [cbn; rewrite Hm; reflexivity|].
      split; [cbn; rewrite Hl; reflexivity|]. split.
      * intros [|i] Hi; [reflexivity|]. cbn. apply Hother. lia.
      * intros Hc rgb Hrgb. cbn in *. exact (Hsame Hc rgb Hrgb).
Qed.

(** The drawing loop with positive contributions on a frame that has all
    the bolt's LEDs: it returns, no LED gets darker, and every LED on the
    path gets strictly brighter in each channel. *)
Lemma draw_edges_brightens (b : Bolt) (dt : Q) (es : list nat) :
  forall (ints : list Q) (frame : Frame),
    length es = length ints ->
    Forall (fun x => rgb_pos (scaled (color b) (level b dt x))) ints ->
    (forall e, List.In e es -> (e < length frame)%nat) ->
    exists frame',
      draw_edges b dt es ints frame = Done frame'
      /\ length frame' = length frame
      /\ forall i rgb, nth_error frame i = Some rgb ->
           exists rgb', nth_error frame' i = Some rgb'
                        /\ rgb_le rgb rgb'
                        /\ (List.In i es -> rgb_lt rgb rgb').
Proof.
  induction es as [|e es IH]; intros ints frame Hlen Hpos Hin.
  - exists frame. split; [reflexivity|]. split; [reflexivity|].
    intros i rgb Hi. exists rgb. split; [exact Hi|].
    split; [apply rgb_le_refl|intros []].
  - destruct ints as [|x ints]; [discriminate|].
    inversion Hpos as [|x' l' Hx Hpos']; subst.
    destruct (mixAdd_at_spec (scaled (color b) (level b dt x)) frame e)
      as (f1 & Hm & Hl1 & Hother & Hsame); [apply Hin; left; reflexivity|].
    destruct (IH ints f1) as (frame' & Hd & Hl & Hall).
    + cbn in Hlen. lia.
    + exact Hpos'.
    + intros e' He'. rewrite Hl1. apply Hin. right. exact He'.
    + exists frame'. split; [cbn; rewrite Hm; cbn; exact Hd|].
      split; [congruence|].
      intros i rgb Hi. destruct (Nat.eq_dec i e) as [->|Hne].
      * destruct (Hsame Hx rgb Hi) as (rgb1 & H1 & Hlt).
        destruct (Hall e rgb1 H1) as (rgb' & H' & Hle & _).
        exists rgb'. split; [exact H'|].
        assert (Hlt' : rgb_lt rgb rgb')
          by exact (rgb_lt_le_trans _ _ _ Hlt Hle).
        split; [|intros _; exact Hlt'].
        destruct rgb as [[? ?] ?], rgb' as [[? ?] ?]. cbn in *. Lra.lra.
      * rewrite <- (Hother i Hne) in Hi.
        destruct (Hall i rgb Hi) as (rgb' & H' & Hle & Hlt).
        exists rgb'. split; [exact H'|]. split; [exact Hle|].
        intros [Heq|Hin']; [congruence|exact (Hlt Hin')].
Qed.

(** While the bolt pulses, the cosine can take at most [PULSE_INTENSITY]
    off an edge's base intensity, and both base intensities are larger. *)
Lemma pulse_level_positive (dt x : Q) :
  x = leader_intensity \/ x = branch_intensity ->
  (0 < Q2R x + phase dt * Q2R PULSE_INTENSITY)%R.
Proof.
  intro Hx. pose proof (COS_bound (2 * PI * Q2R dt * Q2R PULSE_FREQUENCY)) as Hc.
  fold (phase dt) in Hc.
  assert (Hp : Q2R PULSE_INTENSITY = (8 / 100)%R)
    by (unfold Q2R; cbn; Lra.lra).
  assert (Hl : Q2R leader_intensity = (92 / 100)%R)
    by (unfold Q2R; cbn; Lra.lra).
  assert (Hb : Q2R branch_intensity = (368 / 1000)%R)
    by (unfold Q2R; cbn; Lra.lra).
  rewrite Hp. destruct Hx as [-> | ->]; [rewrite Hl|rewrite Hb]; Lra.lra.
Qed.

Lemma storm_color_positive (k : R) :
  (0 < k)%R -> rgb_pos (scaled (230 / 255, 230 / 255, 255 / 255) k).
Proof.
  intro Hk. unfold scaled, rgb_pos.
  assert (H1 : Q2R (230 / 255) = (230 / 255)%R) by (unfold Q2R; cbn; Lra.lra).
  assert (H2 : Q2R (255 / 255) = 1%R) by (unfold Q2R; cbn; Lra.lra).
  rewrite H1, H2. repeat split; Lra.nra.
Qed.

(** C8: for every bolt built by the constructor.  At every time with
    [dt = current_time - init_time < pulse_time], the factor applied to the
    bolt's colour for each edge of its path, base intensity plus cosine
    modulation, is strictly positive, and [update_frame] on a frame that
    has the bolt's LEDs makes every LED of the path strictly brighter in
    each channel.  At a tick with [dt >= pulse_time + FADE_TIME] the bolt
    is dropped before anything is drawn: it is not among the layer's bolts
    after that tick. *)
Theorem bolt_lit_while_pulsing_then_purged
    (m : Model) (t0 : Q) (d0 r0 : list Q) (b : Bolt) :
  Bolt_init m t0 d0 = Done (b, r0) ->
  (forall current_time x,
      current_time - init_time b < pulse_time b ->
      List.In x (intensities b) ->
      level b (current_time - init_time b) x
      = (Q2R x + phase (current_time - init_time b) * Q2R PULSE_INTENSITY)%R
      /\ (0 < Q2R x
              + phase (current_time - init_time b) * Q2R PULSE_INTENSITY)%R)
  /\ (forall current_time frame,
        current_time - init_time b < pulse_time b ->
        (forall e, List.In e (edges b) -> (e < length frame)%nat) ->
        exists frame',
          update_frame b frame current_time = Done frame'
          /\ length frame' = length frame
          /\ forall e rgb, List.In e (edges b) ->
               nth_error frame e = Some rgb ->
               exists rgb', nth_error frame' e = Some rgb'
                            /\ rgb_lt rgb rgb')
  /\ (forall L L' m' time frame f draws rest,
        List.In b (bolts L) ->
        Forall unit_draw draws ->
        pulse_time b + FADE_TIME <= time - init_time b ->
        render L m' time frame draws = Done (L', f, rest) ->
        ~ List.In b (bolts L')).
Proof.
  intro Hb.
  destruct (Bolt_init_fields m t0 d0 r0 b Hb)
    as (u & d' & final & es & ints & Hd & Hinit & Hpt & Hlife & Hcol
        & Hes & Hints & Hlen & Hall & _).
  assert (Hlevel : forall dt x, dt < pulse_time b -> List.In x (intensities b) ->
            level b dt x = (Q2R x + phase dt * Q2R PULSE_INTENSITY)%R
            /\ (0 < Q2R x + phase dt * Q2R PULSE_INTENSITY)%R).
  { intros dt x Hdt Hx. split.
    - unfold level. apply Qltb_true in Hdt. rewrite Hdt. reflexivity.
    - apply pulse_level_positive. rewrite Hints in Hx.
      rewrite Forall_forall in Hall. apply Hall. exact Hx. }
  split; [|split].
  - intros current_time x Hdt Hx. apply Hlevel; assumption.
  - intros current_time frame Hdt Hfr. unfold update_frame.
    destruct (draw_edges_brightens b (current_time - init_time b) (edges b)
                (intensities b) frame) as (frame' & Hdr & Hl & Hinc).
    + congruence.
    + apply Forall_forall. intros x Hx. rewrite Hcol.
      apply storm_color_positive.
      destruct (Hlevel _ x Hdt Hx) as [-> Hpos]. exact Hpos.
    + exact Hfr.
    + exists frame'. split; [exact Hdr|]. split; [exact Hl|].
      intros e rgb He Hrgb. destruct (Hinc e rgb Hrgb) as (rgb' & H' & _ & Hlt).
      exists rgb'. split; [exact H'|exact (Hlt He)].
  - intros L L' m' time frame f draws rest HinL Hdraws Hexp Hr Hin'.
    destruct (render_bolts _ _ _ _ _ _ _ _ Hr)
      as (u1 & rest1 & new & Hdr & Hbs & Hnew).
    rewrite Hbs in Hin'. apply in_app_or in Hin'. destruct Hin' as [Hk|Hn].
    + apply filter_In in Hk. destruct Hk as [_ Hal].
      unfold alive in Hal. apply Qgtb_true in Hal. rewrite Hlife in Hal.
      Lqa.lra.
    + destruct (Hnew b Hn) as (r & Hb').
      destruct (Bolt_init_fields m' time rest1 r b Hb')
        as (u' & d'' & fin' & es' & ints' & Hd' & Hinit' & Hpt' & _).
      subst draws rest1. inversion Hdraws as [|? ? _ Hrest]; subst.
      inversion Hrest as [|? ? [Hu0 _] _]; subst.
      rewrite Hpt' in Hexp. unfold uniform, FADE_TIME in Hexp.
      Lqa.lra.
Qed.

(** [bolt_lit_while_pulsing_then_purged] for a bolt struck on the fork at
    10 s, at the moment it is born. *)
Lemma bolt_lit_while_pulsing_then_purged_witness :
  (0 < Q2R leader_intensity + phase (10 - 10) * Q2R PULSE_INTENSITY)%R.
Proof.
  apply (proj1 (bolt_lit_while_pulsing_then_purged fork 10 [0; 0; 0] []
                  (mkBolt 10 (uniform (25 # 100) (35 # 100) 0)
                          (230 / 255, 230 / 255, 255 / 255)
                          (uniform (25 # 100) (35 # 100) 0 + FADE_TIME)
                          [0; 1; 2]%nat
                          [leader_intensity; leader_intensity;
                           branch_intensity])
                  eq_refl) 10 leader_intensity).
  - reflexivity.
  - left. reflexivity.
Defined.

End LightningFacts.

(** ** Fireflies *)

Module FireflyFacts.
Import Firefly.
Local Open Scope R_scope.

Lemma fmod_range (x y : R) : 0 < y -> 0 <= fmod x y < y.
Proof.
  intro Hy. unfold fmod.
  destruct (base_Int_part (x / y)) as [Hlo Hhi].
  assert (Hx : x = x / y * y) by (field; Lra.lra).
  set (k := IZR (Int_part (x / y))) in *. set (q := x / y) in *.
  split; Lra.nra.
Qed.

(** Moving the argument forward within the current period moves the
    remainder by the same amount. *)
Lemma fmod_shift (x y d : R) :
  0 < y -> 0 <= fmod x y + d < y -> fmod (x + d) y = fmod x y + d.
Proof.
  intros Hy Hd. unfold fmod in *.
  assert (Hk : Int_part (x / y) = Int_part ((x + d) / y)).
  { apply Int_part_spec.
    set (k := IZR (Int_part (x / y))) in *.
    assert (Hq : (x + d) / y = k + (x - k * y + d) / y) by (field; Lra.lra).
    assert (H0 : 0 <= (x - k * y + d) / y).
    { apply Rmult_le_pos; [Lra.lra|].
      left. apply Rinv_0_lt_compat. exact Hy. }
    assert (H1 : (x - k * y + d) / y < 1).
    { apply Rmult_lt_reg_r with y; [exact Hy|].
      replace ((x - k * y + d) / y * y) with (x - k * y + d)
        by (field; Lra.lra).
      Lra.lra. }
    rewrite Hq. split; Lra.lra. }
  rewrite <- Hk. ring.
Qed.

Lemma CYCLE_TIME_pos : 0 < CYCLE_TIME.
Proof. unfold CYCLE_TIME. Lra.lra. Qed.

Lemma phi_range (f : Firefly) (time : R) :
  1 / 100 <= phi f time < 1 + 1 / 100.
Proof.
  unfold phi. pose proof CYCLE_TIME_pos as HC.
  destruct (fmod_range (time + offset f) CYCLE_TIME HC) as [Hlo Hhi].
  set (r := fmod (time + offset f) CYCLE_TIME) in *.
  assert (H0 : 0 <= r / CYCLE_TIME).
  { apply Rmult_le_pos; [exact Hlo|].
    left. apply Rinv_0_lt_compat. exact HC. }
  assert (H1 : r / CYCLE_TIME < 1).
  { apply Rmult_lt_reg_r with CYCLE_TIME; [exact HC|].
    replace (r / CYCLE_TIME * CYCLE_TIME) with r by (field; Lra.lra).
    Lra.lra. }
  split; Lra.lra.
Qed.

(** The two maps between phase and activation undo each other. *)
Lemma activation_to_phi_activation (p : R) :
  0 < p -> activation_to_phi (activation p) = p.
Proof.
  intro Hp. unfold activation_to_phi, activation, EXP.
  rewrite Rpower_mult. replace (1 / 2 * 2) with 1 by field.
  apply Rpower_1. exact Hp.
Qed.

Lemma activation_activation_to_phi (a : R) :
  0 < a -> activation (activation_to_phi a) = a.
Proof.
  intro Ha. unfold activation_to_phi, activation, EXP.
  rewrite Rpower_mult. replace (2 * (1 / 2)) with 1 by field.
  apply Rpower_1. exact Ha.
Qed.

Lemma activation_pos (p : R) : 0 < activation p.
Proof. unfold activation, Rpower. apply exp_pos. Qed.

Lemma activation_to_phi_le (a a2 : R) :
  0 < a -> a <= a2 -> activation_to_phi a <= activation_to_phi a2.
Proof.
  intros Ha Hle. unfold activation_to_phi, EXP.
  apply Rle_Rpower_l; Lra.lra.
Qed.

Lemma activation_to_phi_1 : activation_to_phi 1 = 1.
Proof.
  unfold activation_to_phi, EXP, Rpower. rewrite ln_1, Rmult_0_r. apply exp_0.
Qed.

(** [update] records a blink and leaves the offset alone. *)
Lemma update_offset (f : Firefly) (time : R) :
  offset (fst (update f time)) = offset f.
Proof. unfold update. destruct (Rle_dec _ _); reflexivity. Qed.

Lemma phi_offset (f g : Firefly) (time : R) :
  offset f = offset g -> phi f time = phi g time.
Proof. unfold phi. intros ->. reflexivity. Qed.

(** A firefly that is not yet at the threshold comes out of [nudge] with
    its activation raised by [NUDGE], capped at 1. *)
Lemma nudge_activation (f : Firefly) (time : R) :
  activation (phi f time) < 1 ->
  activation (phi (nudge f time) time)
  = Rmin (activation (phi f time) + NUDGE) 1.
Proof.
  intro Hlt. unfold nudge. destruct (Rlt_dec _ _) as [_|Hn]; [|contradiction].
  set (p := phi f time) in *. set (a := activation p) in *.
  set (a2 := Rmin (a + NUDGE) 1).
  pose proof (phi_range f time) as [Hp0 Hp1]. fold p in Hp0, Hp1.
  pose proof (activation_pos p) as Ha. fold a in Ha.
  assert (Ha2 : a <= a2 <= 1).
  { subst a2. unfold Rmin, NUDGE. destruct (Rle_dec _ _); Lra.lra. }
  assert (Hpa : activation_to_phi a = p)
    by (apply activation_to_phi_activation; Lra.lra).
  assert (Hp2 : p <= activation_to_phi a2 <= 1).
  { split.
    - rewrite <- Hpa. apply activation_to_phi_le; Lra.lra.
    - rewrite <- activation_to_phi_1. apply activation_to_phi_le; Lra.lra. }
  set (p2 := activation_to_phi a2) in *.
  rewrite (phi_offset _ _ time (update_offset _ time)).
  assert (Hphi : phi (mkFirefly (offset f + Rmax (p2 - p) 0 * CYCLE_TIME)
                                (edge f) (blinktime f)) time = p2).
  { unfold phi. cbn [offset].
    rewrite Rmax_left by Lra.lra.
    pose proof CYCLE_TIME_pos as HC.
    assert (Hm : fmod (time + offset f) CYCLE_TIME = (p - 1 / 100) * CYCLE_TIME).
    { subst p. unfold phi. field. Lra.lra. }
    replace (time + (offset f + (p2 - p) * CYCLE_TIME))
      with (time + offset f + (p2 - p) * CYCLE_TIME) by ring.
    rewrite fmod_shift; [|exact HC|rewrite Hm; split; Lra.nra].
    rewrite Hm. field. Lra.lra. }
  rewrite Hphi. subst p2. apply activation_activation_to_phi. Lra.lra.
Qed.

(** C9: at the moment of a nudge the firefly's activation does not go
    down: below the threshold it goes up by [NUDGE], capped at the
    threshold 1 and so never past it; at or above the threshold the nudge
    leaves the firefly as it is. *)
Theorem nudge_never_lowers_activation (f : Firefly) (time : R) :
  let a := activation (phi f time) in
  let a' := activation (phi (nudge f time) time) in
  a <= a'
  /\ a' <= Rmax a 1
  /\ (a < 1 -> a' = Rmin (a + NUDGE) 1 /\ a < a' /\ a' <= 1)
  /\ (1 <= a -> nudge f time = f /\ a' = a).
Proof.
  cbv zeta.
  destruct (Rlt_dec (activation (phi f time)) 1) as [Hlt|Hge].
  - pose proof (nudge_activation f time Hlt) as Hn.
    set (a := activation (phi f time)) in *.
    assert (Hmin : a < Rmin (a + NUDGE) 1 <= 1).
    { unfold Rmin, NUDGE. destruct (Rle_dec _ _); Lra.lra. }
    rewrite Hn. repeat split; try Lra.lra.
    unfold Rmax. destruct (Rle_dec a 1); Lra.lra.
  - assert (Hsame : nudge f time = f).
    { unfold nudge. destruct (Rlt_dec _ _); [contradiction|reflexivity]. }
    rewrite Hsame. repeat split; try Lra.lra.
    unfold Rmax. destruct (Rle_dec _ 1); Lra.lra.
Qed.

End FireflyFacts.

(** ** The headset-responsive layer: invariants and edge cases *)

Module HeadsetInvariants.
Import Headset.
Local Open Scope Q_scope.

(** What the [while] loop leaves: the first [k] entries of both lists,
    all of them but the last within the window. *)
Lemma trim_shape (L : Layer) (t0 : Q) (n idx : nat) :
  length (measurements L) = length (timestamps L) ->
  nth_error (timestamps L) 0 = Some t0 ->
  (idx + n = length (timestamps L))%nat ->
  (forall i t, (i < idx)%nat -> nth_error (timestamps L) i = Some t ->
               t0 - t <= smooth_response_over_n_secs L) ->
  exists k,
    (1 <= k <= length (timestamps L))%nat
    /\ (forall i t, (S i < k)%nat -> nth_error (timestamps L) i = Some t ->
                    t0 - t <= smooth_response_over_n_secs L)
    /\ ((trim n idx L = Done L /\ k = length (timestamps L))
        \/ trim n idx L
           = Done (set_history L (firstn k (measurements L))
                                 (firstn k (timestamps L)))).
Proof.
  intros Hlen H0. revert idx. induction n as [|n IH]; intros idx Hn Hchk.
  - exists (length (timestamps L)). split.
    + destruct (timestamps L); [discriminate|cbn; lia].
    + split; [|left; split; reflexivity].
      intros i t Hi Hnth. apply (Hchk i t); [lia|exact Hnth].
  - cbn [trim]. rewrite H0.
    destruct (nth_error (timestamps L) idx) as [ti|] eqn:Hti;
      [|apply nth_error_None in Hti; lia].
    cbv zeta.
    destruct (Qgtb (t0 - ti) (smooth_response_over_n_secs L)) eqn:Hgt.
    + exists (idx + 1)%nat. split; [lia|]. split; [|right; reflexivity].
      intros i t Hi Hnth. apply (Hchk i t); [lia|exact Hnth].
    + apply IH; [lia|]. intros i t Hi Hnth.
      destruct (Nat.eq_dec i idx) as [->|Hne].
      * rewrite Hti in Hnth. injection Hnth as <-.
        apply Qgtb_false. exact Hgt.
      * apply (Hchk i t); [lia|exact Hnth].
Qed.

(** The layer a tick with a new reading [e] leaves, for some number [k] of
    kept entries. *)
Definition after_reading (L : Layer) (now : Q) (e : EEGInfo) (k : nat)
  : Layer :=
  let L1 := if truthy (fading_to L) then end_fade L else L in
  let ms := firstn k (getattr e (respond_to L) :: measurements L) in
  let L3 := mkLayer (respond_to L) (smooth_response_over_n_secs L) ms
                    (firstn k (now :: timestamps L)) (Some e)
                    (last_response_level L1) (fading_to L1) in
  if (1 <? length ms)%nat then start_fade L3 (mean ms) else L3.

Lemma reading_tick (L : Layer) (now : Q) (eeg : option EEGInfo) (e : EEGInfo) :
  length (measurements L) = length (timestamps L) ->
  new_reading L eeg = Some e ->
  exists k,
    (1 <= k <= S (length (timestamps L)))%nat
    /\ (forall i t, (S i < k)%nat ->
                    nth_error (now :: timestamps L) i = Some t ->
                    now - t <= smooth_response_over_n_secs L)
    /\ render L now eeg
       = Done (after_reading L now e k,
               last_response_level (after_reading L now e k)).
Proof.
  intros Hlen Hnr. unfold render. rewrite Hnr. cbv zeta.
  remember (if truthy (fading_to L) then end_fade L else L) as L1 eqn:HL1.
  assert (H1 : respond_to L1 = respond_to L
               /\ smooth_response_over_n_secs L1 = smooth_response_over_n_secs L
               /\ measurements L1 = measurements L
               /\ timestamps L1 = timestamps L).
  { rewrite HL1. destruct (truthy (fading_to L)); repeat split. }
  destruct H1 as (Hr & Hs & Hm & Ht).
  set (L2 := set_last_eeg
               (set_history L1 (getattr e (respond_to L1) :: measurements L1)
                            (now :: timestamps L1)) e).
  destruct (trim_shape L2 now (length (measurements L2)) 0) as (k & Hk & Hin & Hres).
  - cbn. rewrite Hm, Ht, Hlen. reflexivity.
  - reflexivity.
  - cbn. rewrite Hm, Ht, Hlen. reflexivity.
  - intros i t Hi. lia.
  - exists k. cbn in Hk, Hin. rewrite Ht in Hk, Hin. rewrite Hs in Hin.
    split; [exact Hk|]. split; [exact Hin|].
    assert (Htrim : trim (length (measurements L2)) 0 L2
                    = Done (set_history L2 (firstn k (measurements L2))
                                           (firstn k (timestamps L2)))).
    { destruct Hres as [[Hsame Hkl]|Hcut]; [|exact Hcut].
      rewrite Hsame. f_equal. subst k.
      rewrite !firstn_all2; [reflexivity|reflexivity|].
      cbn. rewrite Hm, Ht, Hlen. lia. }
    rewrite Htrim. cbn [bind]. cbv zeta.
    assert (E : set_history L2 (firstn k (measurements L2))
                            (firstn k (timestamps L2))
                = mkLayer (respond_to L) (smooth_response_over_n_secs L)
                    (firstn k (getattr e (respond_to L) :: measurements L))
                    (firstn k (now :: timestamps L)) (Some e)
                    (last_response_level L1) (fading_to L1)).
    { rewrite <- Hr, <- Hs, <- Hm, <- Ht. reflexivity. }
    rewrite E. unfold after_reading. rewrite <- HL1. reflexivity.
Qed.

Lemma after_reading_ok (L : Layer) (now : Q) (e : EEGInfo) (k : nat) :
  length (measurements L) = length (timestamps L) ->
  (1 <= k)%nat ->
  history_ok (after_reading L now e k).
Proof.
  intros Hlen Hk. unfold after_reading. cbv zeta.
  remember (if truthy (fading_to L) then end_fade L else L) as L1 eqn:HL1.
  assert (Hf : truthy (fading_to L1) = false).
  { rewrite HL1. destruct (truthy (fading_to L)) eqn:E; [reflexivity|exact E]. }
  remember (firstn k (getattr e (respond_to L) :: measurements L)) as ms
    eqn:Hms.
  remember (firstn k (now :: timestamps L)) as ts eqn:Hts.
  assert (Hl : length ms = length ts).
  { subst ms ts. rewrite !length_firstn. cbn [length]. rewrite Hlen.
    reflexivity. }
  assert (Hne : ts <> []).
  { subst ts. destruct k; [lia|]. discriminate. }
  unfold history_ok, start_fade, set_levels.
  destruct (1 <? length ms)%nat;
    cbn [measurements timestamps fading_to last_response_level];
    [|split; [exact Hl|rewrite Hf; discriminate]].
  destruct (last_response_level L1) as [old|] eqn:Hl1.
  - destruct (truthy (Some old));
      cbn [negb measurements timestamps fading_to last_response_level].
    + split; [exact Hl|]. intros _. split; [exact Hne|].
      exists old. reflexivity.
    + split; [exact Hl|]. rewrite Hf. discriminate.
  - cbn [truthy negb measurements timestamps fading_to last_response_level].
    split; [exact Hl|]. rewrite Hf. discriminate.
Qed.

(** X1: [render] raises only in [render_responsive].  A fresh layer's
    history is in order; on a layer whose history is in order the state
    update of [render] always completes and leaves the history in order,
    whatever the clock value and the reading, so that the call as a whole
    comes to [render_responsive] and returns or raises as that does.  In
    the class itself, whose [render_responsive] raises
    [NotImplementedError], every call of [render] therefore raises; in
    [ResponsiveGreenHighRedLow], every call returns; and every run of
    state updates from a fresh layer completes. *)
Theorem render_raises_only_in_hand_off :
  (forall respond smooth, history_ok (init respond smooth))
  /\ (forall (F : Type) (rr : F -> option Q -> outcome F) L now eeg frame,
        history_ok L ->
        exists L' lvl,
          render L now eeg = Done (L', lvl) /\ history_ok L'
          /\ render_with rr L now eeg frame
             = (frame' <- rr frame lvl ;; Done (L', frame')))
  /\ (forall (F : Type) L now eeg (frame : F),
        history_ok L ->
        render_with render_responsive L now eeg frame = Raised)
  /\ (forall L now eeg frame,
        history_ok L ->
        exists L' lvl,
          render L now eeg = Done (L', lvl) /\ history_ok L'
          /\ Plain.Responsive_render L now eeg frame
             = Done (L', Plain.render_responsive frame lvl))
  /\ (forall respond smooth ticks,
        exists L', run (init respond smooth) ticks = Done L'
                   /\ history_ok L').
Proof.
  assert (Hinit : forall respond smooth, history_ok (init respond smooth)).
  { intros. split; [reflexivity|]. cbn. discriminate. }
  assert (Hstep : forall L now eeg, history_ok L ->
            exists L' lvl, render L now eeg = Done (L', lvl) /\ history_ok L').
  { intros L now eeg [Hlen Hfade].
    destruct (new_reading L eeg) as [e|] eqn:Hnr.
    - destruct (reading_tick L now eeg e Hlen Hnr) as (k & [Hk _] & _ & Hr).
      do 2 eexists. split; [exact Hr|].
      apply after_reading_ok; assumption.
    - unfold render. rewrite Hnr.
      destruct (truthy (fading_to L)) eqn:Htr.
      + destruct (Hfade eq_refl) as [Hne [old Hold]].
        destruct (timestamps L) as [|t0 tl] eqn:Hts; [contradiction|].
        destruct (Qle_bool 1 (now - t0)).
        * do 2 eexists. split; [reflexivity|].
          split; [cbn; rewrite Hts; exact Hlen|]. cbn. discriminate.
        * destruct (fading_to L) as [target|] eqn:Hft; [|discriminate].
          rewrite Hold. do 2 eexists. split; [reflexivity|].
          split; [rewrite Hts; exact Hlen|].
          intros _. split; [rewrite Hts; discriminate|].
          exists old. exact Hold.
      + do 2 eexists. split; [reflexivity|].
        split; [exact Hlen|]. rewrite Htr. discriminate. }
  split; [exact Hinit|]. split; [|split; [|split]].
  - intros F rr L now eeg frame HL.
    destruct (Hstep L now eeg HL) as (L' & lvl & Hr & HL').
    exists L', lvl. split; [exact Hr|]. split; [exact HL'|].
    unfold render_with. rewrite Hr. reflexivity.
  - intros F L now eeg frame HL.
    destruct (Hstep L now eeg HL) as (L' & lvl & Hr & _).
    unfold render_with. rewrite Hr. reflexivity.
  - intros L now eeg frame HL.
    destruct (Hstep L now eeg HL) as (L' & lvl & Hr & HL').
    exists L', lvl. split; [exact Hr|]. split; [exact HL'|].
    unfold Plain.Responsive_render. rewrite Hr. reflexivity.
  - intros respond smooth ticks.
    generalize (Hinit respond smooth). generalize (init respond smooth).
    induction ticks as [|[now eeg] ticks IH]; intros L HL.
    + exists L. split; [reflexivity|exact HL].
    + destruct (Hstep L now eeg HL) as (L' & lvl & Hr & HL').
      destruct (IH L' HL') as (L'' & Hrun & HL'').
      exists L''. split; [|exact HL'']. cbn. rewrite Hr. exact Hrun.
Qed.

(** [render_raises_only_in_hand_off] on the layer caught in the middle of
    a fade: in the class itself the call raises. *)
Lemma render_raises_only_in_hand_off_witness :
  render_with render_responsive fading_layer (21 # 2) None dark = Raised.
Proof.
  apply (proj1 (proj2 (proj2 render_raises_only_in_hand_off))
           Lightning.Frame fading_layer (21 # 2) None dark).
  split; [reflexivity|]. intros _. split; [discriminate|].
  exists (1 # 2). reflexivity.
Defined.

(** X2: the tick that commits a fade passes the target on; from then on,
    as long as no new reading is taken in, [render] leaves the layer alone
    and passes no level at all ([None]), although the steady value is
    there. *)
Theorem idle_after_commit_passes_none
    (L : Layer) (eeg eeg2 : option EEGInfo) (T old new t1 t2 : Q)
    (ts : list Q) :
  timestamps L = T :: ts ->
  last_response_level L = Some old ->
  fading_to L = Some new ->
  ~ new == 0 ->
  new_reading L eeg = None ->
  new_reading L eeg2 = None ->
  1 <= t1 - T ->
  exists L1,
    render L t1 eeg = Done (L1, Some new)
    /\ last_response_level L1 = Some new
    /\ render L1 t2 eeg2 = Done (L1, None).
Proof.
  intros Hts Hold Hnew Hnz Hno Hno2 Ht.
  exists (end_fade L). split; [|split].
  - unfold render. rewrite Hno, Hnew.
    apply truthy_Some in Hnz. rewrite Hnz, Hts.
    apply Qle_bool_iff in Ht. rewrite Ht. cbn. rewrite Hnew. reflexivity.
  - cbn. exact Hnew.
  - unfold render.
    change (new_reading (end_fade L) eeg2) with (new_reading L eeg2).
    rewrite Hno2. reflexivity.
Qed.

(** [idle_after_commit_passes_none] on the layer caught in a fade: the
    tick at 12 s commits, the tick at 12.1 s passes nothing. *)
Lemma idle_after_commit_passes_none_witness :
  exists L1,
    render fading_layer 12 None = Done (L1, Some 1)
    /\ last_response_level L1 = Some 1
    /\ render L1 (121 # 10) None = Done (L1, None).
Proof.
  apply (idle_after_commit_passes_none fading_layer None None 10 (1 # 2) 1
           12 (121 # 10) [9]); try reflexivity.
  - discriminate.
  - Lqa.lra.
Defined.

(** X3: after a tick that takes in a new reading, the newest timestamp is
    the tick's clock value and every kept entry except the last one is
    within the smoothing window: at most one kept measurement is older
    than the window, and it is the oldest. *)
Theorem kept_history_within_window
    (L L' : Layer) (now : Q) (eeg : option EEGInfo) (e : EEGInfo)
    (lvl : option Q) :
  length (measurements L) = length (timestamps L) ->
  new_reading L eeg = Some e ->
  render L now eeg = Done (L', lvl) ->
  (exists tl, timestamps L' = now :: tl)
  /\ length (measurements L') = length (timestamps L')
  /\ (forall i t, (S i < length (timestamps L'))%nat ->
                  nth_error (timestamps L') i = Some t ->
                  now - t <= smooth_response_over_n_secs L).
Proof.
  intros Hlen Hnr Hr.
  destruct (reading_tick L now eeg e Hlen Hnr) as (k & Hk & Hin & Hr').
  rewrite Hr' in Hr. injection Hr as <- _.
  assert (Hts : timestamps (after_reading L now e k)
                = firstn k (now :: timestamps L)).
  { unfold after_reading, start_fade, set_levels. cbv zeta.
    destruct (1 <? _)%nat; [|reflexivity].
    destruct (negb _); reflexivity. }
  assert (Hms : measurements (after_reading L now e k)
                = firstn k (getattr e (respond_to L) :: measurements L)).
  { unfold after_reading, start_fade, set_levels. cbv zeta.
    destruct (1 <? _)%nat; [|reflexivity].
    destruct (negb _); reflexivity. }
  rewrite Hts, Hms. split; [|split].
  - destruct k as [|k]; [lia|]. cbn. eexists. reflexivity.
  - rewrite !length_firstn. cbn [length]. rewrite Hlen. reflexivity.
  - intros i t Hi Hnth. rewrite length_firstn in Hi.
    rewrite nth_error_firstn in Hnth.
    destruct (Nat.ltb_spec i k) as [Hik|Hik]; [|discriminate].
    apply (Hin i t); [lia|exact Hnth].
Qed.

(** [kept_history_within_window] at 13 s, window 5 s, with older readings
    at 12 s, 7 s and 6 s. *)
Lemma kept_history_within_window_witness :
  let L := set_history (init attention_field 5)
                       [1 # 2; 1 # 2; 1] [12; 7; 6] in
  exists L' lvl,
    render L 13 (Some (mkEEG 4 (1 # 2) 0 true)) = Done (L', lvl)
    /\ (exists tl, timestamps L' = 13 :: tl)
    /\ length (measurements L') = length (timestamps L')
    /\ (forall i t, (S i < length (timestamps L'))%nat ->
                    nth_error (timestamps L') i = Some t ->
                    13 - t <= 5).
Proof.
  cbv zeta.
  destruct (render (set_history (init attention_field 5)
                                [1 # 2; 1 # 2; 1] [12; 7; 6])
                   13 (Some (mkEEG 4 (1 # 2) 0 true)))
    as [[L' lvl]| |] eqn:H;
    [|vm_compute in H; discriminate H|vm_compute in H; discriminate H].
  exists L', lvl. split; [reflexivity|].
  apply (kept_history_within_window
           (set_history (init attention_field 5)
                        [1 # 2; 1 # 2; 1] [12; 7; 6])
           L' 13 (Some (mkEEG 4 (1 # 2) 0 true)) (mkEEG 4 (1 # 2) 0 true)
           lvl eq_refl eq_refl H).
Defined.

(** *** Range of the level *)

Lemma Forall_firstn_keep {A : Type} (P : A -> Prop) (k : nat) (l : list A) :
  Forall P l -> Forall P (firstn k l).
Proof.
  revert l. induction k as [|k IH]; intros [|x l] H; cbn; try constructor.
  - inversion H; assumption.
  - apply IH. inversion H; assumption.
Qed.

Lemma sum_from_bounds (lo hi : Q) (xs : list Q) :
  Forall (fun x => lo <= x <= hi) xs ->
  forall acc,
    acc + inject_Z (Z.of_nat (length xs)) * lo <= fold_left Qplus xs acc
    /\ fold_left Qplus xs acc <= acc + inject_Z (Z.of_nat (length xs)) * hi.
Proof.
  induction 1 as [|x xs [Hx1 Hx2] Hall IH]; intro acc.
  - cbn [fold_left length]. change (inject_Z (Z.of_nat 0)) with 0.
    split; Lqa.lra.
  - cbn [fold_left length]. destruct (IH (acc + x)) as [IH1 IH2].
    assert (E : inject_Z (Z.of_nat (S (length xs)))
                == inject_Z (Z.of_nat (length xs)) + 1).
    { rewrite Nat2Z.inj_succ. unfold Z.succ. rewrite inject_Z_plus.
      reflexivity. }
    rewrite E. split; Lqa.lra.
Qed.

(** The mean of values in a range lies in the range. *)
Lemma mean_within (lo hi : Q) (xs : list Q) :
  xs <> [] -> Forall (fun x => lo <= x <= hi) xs -> lo <= mean xs <= hi.
Proof.
  intros Hne Hall. unfold mean, sum.
  destruct (sum_from_bounds lo hi xs Hall 0) as [H1 H2].
  assert (Hn : 0 < inject_Z (Z.of_nat (length xs))).
  { change 0 with (inject_Z 0). rewrite <- Zlt_Qlt.
    destruct xs; [contradiction|cbn; lia]. }
  split.
  - apply Qle_shift_div_l; [exact Hn|]. Lqa.lra.
  - apply Qle_shift_div_r; [exact Hn|]. Lqa.lra.
Qed.

Lemma after_reading_within
    (lo hi : Q) (L : Layer) (now : Q) (e : EEGInfo) (k : nat) :
  levels_within lo hi L ->
  lo <= getattr e (respond_to L) <= hi ->
  levels_within lo hi (after_reading L now e k).
Proof.
  intros (Hms & Hlast & Hfade) He. unfold after_reading. cbv zeta.
  remember (if truthy (fading_to L) then end_fade L else L) as L1 eqn:HL1.
  assert (H1 : (forall v, last_response_level L1 = Some v -> lo <= v <= hi)
               /\ (forall v, fading_to L1 = Some v -> lo <= v <= hi)).
  { rewrite HL1. destruct (truthy (fading_to L)); [|split; assumption].
    cbn. split; [exact Hfade|discriminate]. }
  destruct H1 as [Hlast1 Hfade1].
  remember (firstn k (getattr e (respond_to L) :: measurements L)) as ms
    eqn:Ems.
  assert (Hall : Forall (fun x => lo <= x <= hi) ms).
  { subst ms. apply Forall_firstn_keep. constructor; assumption. }
  unfold levels_within, start_fade, set_levels.
  destruct (1 <? length ms)%nat eqn:Hlen;
    cbn [measurements last_response_level fading_to];
    [|repeat split; try assumption; [apply Hlast1|apply Hlast1|apply Hfade1
                                      |apply Hfade1]; assumption].
  assert (Hmean : lo <= mean ms <= hi).
  { apply mean_within; [|exact Hall]. apply Nat.ltb_lt in Hlen.
    destruct ms; [cbn in Hlen; lia|discriminate]. }
  destruct (negb (truthy (last_response_level L1)));
    cbn [measurements last_response_level fading_to].
  - split; [exact Hall|]. split.
    + intros v Hv. injection Hv as <-. exact Hmean.
    + exact Hfade1.
  - split; [exact Hall|]. split.
    + exact Hlast1.
    + intros v Hv. injection Hv as <-. exact Hmean.
Qed.

(** X4: the level never leaves the range of the readings.  If the stored
    measurements, the steady value and the fade target lie in [[lo, hi]],
    the clock has not run back behind the newest measurement and the
    reading taken in (if any) lies in [[lo, hi]], then after [render] they
    still do, and so does the level passed to [render_responsive], when
    there is one. *)
Theorem level_stays_in_range
    (lo hi : Q) (L L' : Layer) (now : Q) (eeg : option EEGInfo)
    (lvl : option Q) :
  length (measurements L) = length (timestamps L) ->
  levels_within lo hi L ->
  clock_ok L now ->
  (forall e, new_reading L eeg = Some e ->
             lo <= getattr e (respond_to L) <= hi) ->
  render L now eeg = Done (L', lvl) ->
  levels_within lo hi L'
  /\ (forall now', now <= now' -> clock_ok L' now')
  /\ (forall v, lvl = Some v -> lo <= v <= hi).
Proof.
  intros Hlen Hin Hclk He Hr.
  destruct (new_reading L eeg) as [e|] eqn:Hnr.
  - destruct (reading_tick L now eeg e Hlen Hnr) as (k & [Hk _] & _ & Hr').
    rewrite Hr' in Hr. injection Hr as <- <-.
    pose proof (after_reading_within lo hi L now e k Hin (He e eq_refl)) as Hw.
    split; [exact Hw|]. split; [|apply Hw].
    intros now' Hnow t0 tl Hts.
    assert (E : timestamps (after_reading L now e k)
                = firstn k (now :: timestamps L)).
    { unfold after_reading, start_fade, set_levels. cbv zeta.
      destruct (1 <? _)%nat; [|reflexivity].
      destruct (negb _); reflexivity. }
    rewrite E in Hts. destruct k as [|k]; [lia|].
    cbn in Hts. injection Hts as <- _. exact Hnow.
  - unfold render in Hr. rewrite Hnr in Hr.
    destruct Hin as (Hms & Hlast & Hfade).
    destruct (truthy (fading_to L)) eqn:Htr.
    + destruct (timestamps L) as [|t0 tl] eqn:Hts; [discriminate|].
      pose proof (Hclk t0 tl Hts) as Ht0.
      destruct (Qle_bool 1 (now - t0)) eqn:Hp.
      * injection Hr as <- <-. cbn. split; [|split].
        -- split; [exact Hms|]. split; [exact Hfade|discriminate].
        -- intros now' Hnow t tl' E. cbn in E. rewrite Hts in E.
           injection E as <- _. Lqa.lra.
        -- exact Hfade.
      * destruct (fading_to L) as [target|] eqn:Hft; [|discriminate].
        destruct (last_response_level L) as [steady|] eqn:Hls;
          [|discriminate].
        injection Hr as <- <-. split; [|split].
        -- split; [exact Hms|]. split; [rewrite Hls; exact Hlast|].
           rewrite Hft. exact Hfade.
        -- intros now' Hnow t tl' E. rewrite Hts in E.
           injection E as <- _. Lqa.lra.
        -- intros v Hv. injection Hv as <-.
           apply not_true_iff_false in Hp. rewrite Qle_bool_iff in Hp.
           pose proof (Hfade target eq_refl) as [Ha Hb].
           pose proof (Hlast steady eq_refl) as [Hc Hd].
           split; Lqa.nra.
    + injection Hr as <- <-. split; [|split].
      * split; [exact Hms|]. split; assumption.
      * intros now' Hnow t tl E. pose proof (Hclk t tl E). Lqa.lra.
      * discriminate.
Qed.

(** [level_stays_in_range] on the layer caught in a fade, half a second
    into it, for the range [[0, 1]]. *)
Lemma level_stays_in_range_witness :
  0 <= blend 10 (1 # 2) 1 (21 # 2) <= 1.
Proof.
  assert (H : forall v, Some (blend 10 (1 # 2) 1 (21 # 2)) = Some v ->
                        0 <= v <= 1).
  { apply (level_stays_in_range 0 1 fading_layer fading_layer (21 # 2) None).
    - reflexivity.
    - split; [|split].
      + repeat constructor; cbn; Lqa.lra.
      + intros v H. injection H as <-. Lqa.lra.
      + intros v H. injection H as <-. Lqa.lra.
    - intros t0 tl H. injection H as <- _. Lqa.lra.
    - discriminate.
    - reflexivity. }
  exact (H _ eq_refl).
Defined.

End HeadsetInvariants.

(** ** Travelling impulses: invariants *)

Module ImpulseInvariants.
Import Impulse.
Local Open Scope Q_scope.

(** X5: [move] only ever touches an impulse's place, mode and liveness:
    its colour and its two chances stay, a dead impulse stays dead, and
    every call uses up at least two draws (the mode-switch draw, then the
    choice of the edge or the bounce draw). *)
Theorem move_keeps_identity
    (m : Model) (draws rest : list Q) (p p' : Impulse) :
  move m draws p = Done (p', rest) ->
  color p' = color p
  /\ loopChance p' = loopChance p
  /\ bounceChance p' = bounceChance p
  /\ (dead p = true -> dead p' = true)
  /\ exists used, draws = used ++ rest /\ (2 <= length used)%nat.
Proof.
  remember (length draws) as n eqn:Hn. revert draws Hn p rest p'.
  induction n as [n IH] using lt_wf_ind.
  intros draws Hn p rest p' H. destruct draws as [|u draws1]; [discriminate|].
  cbn [move] in H.
  set (p1 := set_motion p (switch_mode p (edgeHeight m (edge p)) u)) in *.
  destruct (candidates m p1) as [[|e es]| |]; try discriminate.
  - destruct draws1 as [|b draws2]; [discriminate|].
    set (Goal := color p' = color p
                 /\ loopChance p' = loopChance p
                 /\ bounceChance p' = bounceChance p
                 /\ (dead p = true -> dead p' = true)
                 /\ exists used, u :: b :: draws2 = used ++ rest
                                 /\ (2 <= length used)%nat).
    assert (Hdead : Done (set_dead p1, draws2) = Done (p', rest) -> Goal).
    { intro E. injection E as <- <-. subst Goal. cbn.
      repeat split. exists [u; b]. split; [reflexivity|cbn; lia]. }
    assert (Hrec : forall mo,
               move m draws2 (set_motion p1 mo) = Done (p', rest) -> Goal).
    { intros mo E.
      apply (IH (length draws2)) in E; [|subst n; cbn; lia|reflexivity].
      destruct E as (Hc & Hl & Hb & Hd & used & Hu & Hlen).
      subst Goal. cbn in *. repeat split; try assumption.
      exists (u :: b :: used). split; [rewrite Hu; reflexivity|cbn; lia]. }
    destruct (Qltb b (bounceChance p1)); [|exact (Hdead H)].
    destruct (motion p1); [exact (Hrec _ H)|exact (Hrec _ H)|exact (Hdead H)].
  - unfold _move_to_any_of in H.
    destruct draws1 as [|c draws2]; [discriminate|].
    destruct (choice c (e :: es)) as [x| |]; try discriminate.
    cbn in H. injection H as <- <-. cbn. repeat split; try tauto.
    exists [u; c]. split; [reflexivity|cbn; lia].
Qed.

Lemma move_keeps_identity_witness :
  color (mkImpulse white 1 (Some 0%nat) false Out (1 # 10) (2 # 10)) = white.
Proof.
  apply (move_keeps_identity twig [1 # 2; 0] []
           (Impulse_init white 0 "Out"%string)).
  reflexivity.
Defined.

Lemma candidates_set_dead (m : Model) (p : Impulse) :
  candidates m (set_dead p) = candidates m p.
Proof. reflexivity. Qed.

(** X6: an impulse only dies at a dead end.  If a live impulse comes out
    of [move] dead, it has not moved; the mode it is left in is the last
    one it went through in that call, and in that mode it has no candidate
    edge at all; nor had it one in the first mode it went through, the one
    in force after the [loopChance] draw. *)
Theorem dies_only_at_dead_end
    (m : Model) (draws rest : list Q) (p p' : Impulse) :
  move m draws p = Done (p', rest) ->
  dead p = false -> dead p' = true ->
  edge p' = edge p
  /\ previous_edge p' = previous_edge p
  /\ candidates m p' = Done []
  /\ exists u draws1,
       draws = u :: draws1
       /\ candidates m (set_motion p (switch_mode p (edgeHeight m (edge p)) u))
          = Done [].
Proof.
  remember (length draws) as n eqn:Hn. revert draws Hn p rest p'.
  induction n as [n IH] using lt_wf_ind.
  intros draws Hn p rest p' H Hlive Hdead.
  destruct draws as [|u draws1]; [discriminate|].
  cbn [move] in H.
  set (mo1 := switch_mode p (edgeHeight m (edge p)) u) in *.
  destruct (candidates m (set_motion p mo1)) as [[|e es]| |] eqn:Hc;
    try discriminate.
  - destruct draws1 as [|b draws2]; [discriminate|].
    assert (Hfirst : exists u0 d0,
               u :: b :: draws2 = u0 :: d0
               /\ candidates m
                    (set_motion p (switch_mode p (edgeHeight m (edge p)) u0))
                  = Done []).
    { exists u, (b :: draws2). split; [reflexivity|exact Hc]. }
    assert (Hhere : Done (set_dead (set_motion p mo1), draws2) = Done (p', rest)
                    -> edge p' = edge p
                       /\ previous_edge p' = previous_edge p
                       /\ candidates m p' = Done []).
    { intro E. injection E as <- <-. split; [reflexivity|].
      split; [reflexivity|]. rewrite candidates_set_dead. exact Hc. }
    assert (Hrec : forall mo,
               move m draws2 (set_motion (set_motion p mo1) mo)
               = Done (p', rest) ->
               edge p' = edge p
               /\ previous_edge p' = previous_edge p
               /\ candidates m p' = Done []).
    { intros mo E.
      apply (IH (length draws2)) in E;
        [|subst n; cbn; lia|reflexivity|exact Hlive|exact Hdead].
      destruct E as (He & Hp & Hcand & _).
      split; [exact He|]. split; [exact Hp|exact Hcand]. }
    assert (Hall : edge p' = edge p
                   /\ previous_edge p' = previous_edge p
                   /\ candidates m p' = Done []).
    { destruct (Qltb b (bounceChance (set_motion p mo1))); [|exact (Hhere H)].
      destruct (motion (set_motion p mo1));
        [exact (Hrec _ H)|exact (Hrec _ H)|exact (Hhere H)]. }
    destruct Hall as (He & Hp & Hcand).
    split; [exact He|]. split; [exact Hp|]. split; [exact Hcand|exact Hfirst].
  - unfold _move_to_any_of in H.
    destruct draws1 as [|c draws2]; [discriminate|].
    destruct (choice c (e :: es)) as [x| |]; try discriminate.
    cbn in H. injection H as <- <-. cbn in Hdead. congruence.
Qed.

(** [dies_only_at_dead_end] on the trunk: the impulse on the outermost
    edge, travelling outward, dies there; outward of that edge there is
    nothing. *)
Lemma dies_only_at_dead_end_witness :
  move twig [1 # 2; 1 # 2]
       (mkImpulse white 1 (Some 0%nat) false Out (1 # 10) (2 # 10))
  = Done (mkImpulse white 1 (Some 0%nat) true Out (1 # 10) (2 # 10), [])
  /\ candidates twig
       (mkImpulse white 1 (Some 0%nat) true Out (1 # 10) (2 # 10))
     = Done [].
Proof.
  assert (H : move twig [1 # 2; 1 # 2]
                (mkImpulse white 1 (Some 0%nat) false Out (1 # 10) (2 # 10))
              = Done (mkImpulse white 1 (Some 0%nat) true Out (1 # 10) (2 # 10),
                      [])) by reflexivity.
  split; [exact H|].
  exact (proj1 (proj2 (proj2 (dies_only_at_dead_end twig [1 # 2; 1 # 2] []
           (mkImpulse white 1 (Some 0%nat) false Out (1 # 10) (2 # 10))
           (mkImpulse white 1 (Some 0%nat) true Out (1 # 10) (2 # 10))
           H eq_refl eq_refl)))).
Defined.

(** *** The list of slots *)

Lemma fill_first_free_length (ps ps' : list (option Impulse)) (q : Impulse) :
  fill_first_free ps q = Some ps' -> length ps' = length ps.
Proof.
  revert ps'. induction ps as [|[p|] ps IH]; intros ps' H; cbn in H.
  - discriminate.
  - destruct (fill_first_free ps q) as [r|]; [|discriminate].
    injection H as <-. cbn. rewrite (IH r eq_refl). reflexivity.
  - injection H as <-. reflexivity.
Qed.

Lemma spawn_length (hsv_to_rgb : Q -> Q -> Q -> Color) (m : Model)
    (chance maxsat bright : Q) (draws : list Q) :
  forall ps ps' rest,
    _spawn_pulses hsv_to_rgb m chance maxsat bright draws ps
    = Done (ps', rest) ->
    length ps' = length ps.
Proof.
  remember (length draws) as n eqn:Hn. revert draws Hn.
  induction n as [n IH] using lt_wf_ind.
  intros draws Hn ps ps' rest H.
  destruct draws as [|u d1]; [discriminate|]. cbn [_spawn_pulses] in H.
  assert (Hsame : forall d, Done (ps, d) = Done (ps', rest) ->
                            length ps' = length ps).
  { intros d E. injection E as <- _. reflexivity. }
  destruct (Qltb u chance); [|exact (Hsame _ H)].
  destruct (has_free ps); [|exact (Hsame _ H)].
  destruct (negb (Qeq_bool maxsat 0)).
  - destruct d1 as [|hue [|sat [|c d4]]]; try discriminate.
    destruct (choice c (roots m)) as [r| |]; try discriminate.
    destruct (fill_first_free ps _) as [ps1|] eqn:Hf; [|exact (Hsame _ H)].
    apply (IH (length d4)) in H; [|subst n; cbn; lia|reflexivity].
    rewrite H. exact (fill_first_free_length _ _ _ Hf).
  - destruct d1 as [|c d2]; try discriminate.
    destruct (choice c (roots m)) as [r| |]; try discriminate.
    destruct (fill_first_free ps _) as [ps1|] eqn:Hf; [|exact (Hsame _ H)].
    apply (IH (length d2)) in H; [|subst n; cbn; lia|reflexivity].
    rewrite H. exact (fill_first_free_length _ _ _ Hf).
Qed.

Lemma move_all_length (m : Model) (ps : list (option Impulse)) :
  forall draws ps' rest,
    move_all m draws ps = Done (ps', rest) -> length ps' = length ps.
Proof.
  induction ps as [|[p|] ps IH]; intros draws ps' rest H; cbn in H.
  - injection H as <- _. reflexivity.
  - destruct (move m draws p) as [[p1 d1]| |]; try discriminate. cbn in H.
    destruct (move_all m d1 ps) as [[r d2]| |] eqn:Hr; try discriminate.
    cbn in H. injection H as <- _. cbn. rewrite (IH _ _ _ Hr). reflexivity.
  - destruct (move_all m draws ps) as [[r d2]| |] eqn:Hr; try discriminate.
    cbn in H. injection H as <- _. cbn. rewrite (IH _ _ _ Hr). reflexivity.
Qed.

(** X7: [_move_pulses] never resizes the list of slots, and its time gate
    works as follows: the first call (no [last_time] yet) only records the
    time; a call less than [frequency] after the recorded time changes
    nothing; in both cases no draw is used.  A call that passes the gate
    records the time it ran. *)
Theorem move_pulses_gate
    (hsv_to_rgb : Q -> Q -> Q -> Color) (L L' : Layer) (m : Model)
    (time : Q) (draws rest : list Q) :
  _move_pulses hsv_to_rgb L m time draws = Done (L', rest) ->
  length (pulses L') = length (pulses L)
  /\ (truthy (last_time L) = false ->
      L' = set_last_time L time /\ rest = draws)
  /\ (forall lt, last_time L = Some lt -> ~ lt == 0 ->
        (time < lt + frequency L -> L' = L /\ rest = draws)
        /\ (lt + frequency L <= time -> last_time L' = Some time)).
Proof.
  intro H. unfold _move_pulses in H.
  destruct (truthy (last_time L)) eqn:Htr; cbn [negb] in H.
  - destruct (last_time L) as [lt|] eqn:Hlt; [|discriminate].
    destruct (Qltb time (lt + frequency L)) eqn:Hg.
    + injection H as <- <-. split; [reflexivity|]. split; [discriminate|].
      intros lt' E Hnz. injection E as <-. split; [auto|].
      apply Qltb_true in Hg. intro Hle. exfalso. Lqa.lra.
    + destruct (_spawn_pulses _ _ _ _ _ _ _) as [[ps2 d2]| |] eqn:Hs;
        try discriminate.
      cbn in H. destruct (move_all m d2 ps2) as [[ps3 d3]| |] eqn:Hm;
        try discriminate.
      cbn in H. injection H as <- <-. cbn. split.
      * rewrite (move_all_length _ _ _ _ _ Hm), (spawn_length _ _ _ _ _ _ _ _ _ Hs).
        unfold _reap_pulses. apply length_map.
      * split; [discriminate|]. intros lt' E Hnz. injection E as <-.
        split; [|reflexivity]. apply Qltb_false in Hg. intro Hl.
        exfalso. Lqa.lra.
  - injection H as <- <-. split; [reflexivity|]. split; [auto|].
    intros lt E Hnz. rewrite E in Htr. apply truthy_Some in Hnz.
    congruence.
Qed.

(** [move_pulses_gate] on a fresh layer of three slots: the first call
    only records the time. *)
Lemma move_pulses_gate_witness :
  length (pulses (set_last_time (init 3) 7)) = length (pulses (init 3)).
Proof.
  apply (move_pulses_gate (fun _ _ v => (v, v, v)) (init 3) _ twig 7 [] []).
  reflexivity.
Defined.

(** *** Drawing the impulses *)

Lemma add_at_spec (c : Color) (frame : Frame) (i : nat) :
  (i < length frame)%nat ->
  exists f, add_at frame i c = Done f
            /\ length f = length frame
            /\ forall j, j <> i -> nth_error f j = nth_error frame j.
Proof.
  revert i. induction frame as [|rgb frame IH]; intros i Hi.
  - cbn in Hi. lia.
  - destruct i as [|i].
    + eexists. split; [reflexivity|]. split; [reflexivity|].
      intros [|j] Hj; [contradiction|reflexivity].
    + cbn in Hi. destruct (IH i) as (f & Hf & Hl & Ho); [lia|].
      exists (rgb :: f). split; [cbn; rewrite Hf; reflexivity|].
      split; [cbn; rewrite Hl; reflexivity|].
      intros [|j] Hj; [reflexivity|]. cbn. apply Ho. lia.
Qed.

Lemma add_at_out_of_range (c : Color) (frame : Frame) (i : nat) :
  (length frame <= i)%nat -> add_at frame i c = Raised.
Proof.
  revert i. induction frame as [|rgb frame IH]; intros i Hi.
  - destruct i; reflexivity.
  - destruct i as [|i]; [cbn in Hi; lia|].
    cbn. rewrite IH; [reflexivity|cbn in Hi; lia].
Qed.

(** X8: drawing the impulses of a layer fails exactly when a live impulse
    sits on an edge the frame does not have.  When every live impulse is
    on the frame, the drawing returns a frame of the same length, and the
    LEDs that carry no live impulse are left as they were. *)
Theorem render_touches_only_live_edges
    (ps : list (option Impulse)) (frame : Frame) :
  ((forall p, List.In (Some p) ps -> dead p = false ->
              (edge p < length frame)%nat) ->
   exists f,
     render_all ps frame = Done f
     /\ length f = length frame
     /\ forall i, (forall p, List.In (Some p) ps -> dead p = false ->
                             edge p <> i) ->
                  nth_error f i = nth_error frame i)
  /\ ((exists p, List.In (Some p) ps /\ dead p = false
                 /\ (length frame <= edge p)%nat) ->
      render_all ps frame = Raised).
Proof.
  split.
  - revert frame. induction ps as [|[p|] ps IH]; intros frame Hin.
    + exists frame. repeat split.
    + cbn [render_all]. unfold Impulse_render.
      destruct (dead p) eqn:Hd.
      * cbn. destruct (IH frame) as (f & Hf & Hl & Ho).
        { intros q Hq. apply Hin. right. exact Hq. }
        exists f. split; [exact Hf|]. split; [exact Hl|].
        intros i Hi. apply Ho. intros q Hq. apply Hi. right. exact Hq.
      * destruct (add_at_spec (color p) frame (edge p)) as (f1 & Hf1 & Hl1 & Ho1).
        { apply Hin; [left; reflexivity|exact Hd]. }
        rewrite Hf1. cbn. destruct (IH f1) as (f & Hf & Hl & Ho).
        { intros q Hq Hdq. rewrite Hl1. apply Hin; [right; exact Hq|exact Hdq]. }
        exists f. split; [exact Hf|]. split; [congruence|].
        intros i Hi. rewrite Ho.
        -- apply Ho1. intro E. apply (Hi p); [left; reflexivity|exact Hd|].
           symmetry. exact E.
        -- intros q Hq. apply Hi. right. exact Hq.
    + cbn [render_all]. destruct (IH frame) as (f & Hf & Hl & Ho).
      { intros q Hq. apply Hin. right. exact Hq. }
      exists f. split; [exact Hf|]. split; [exact Hl|].
      intros i Hi. apply Ho. intros q Hq. apply Hi. right. exact Hq.
  - revert frame. induction ps as [|[p|] ps IH]; intros frame (q & Hq & Hd & Hout).
    + destruct Hq.
    + cbn [render_all]. unfold Impulse_render.
      destruct Hq as [E|Hq].
      * injection E as ->. rewrite Hd.
        rewrite add_at_out_of_range by exact Hout. reflexivity.
      * destruct (dead p) eqn:Hdp.
        -- cbn. apply IH. exists q. auto.
        -- destruct (Nat.lt_ge_cases (edge p) (length frame)) as [Hlt|Hge].
           ++ destruct (add_at_spec (color p) frame (edge p) Hlt)
                as (f1 & Hf1 & Hl1 & _).
              rewrite Hf1. cbn. apply IH. exists q. rewrite Hl1. auto.
           ++ rewrite add_at_out_of_range by exact Hge. reflexivity.
    + cbn [render_all]. destruct Hq as [E|Hq]; [discriminate|].
      apply IH. exists q. auto.
Qed.

(** [render_touches_only_live_edges] for one live impulse on LED 1 of a
    three-LED frame: LED 0 is left alone. *)
Lemma render_touches_only_live_edges_witness :
  exists f,
    render_all [Some (mkImpulse white 1 None false Out (1 # 10) (2 # 10))]
               [(0, 0, 0); (0, 0, 0); (0, 0, 0)]
    = Done f
    /\ length f = 3%nat
    /\ forall i, (forall p,
                    List.In (Some p)
                      [Some (mkImpulse white 1 None false Out (1 # 10) (2 # 10))]
                    -> dead p = false -> edge p <> i) ->
                 nth_error f i
                 = nth_error [(0, 0, 0); (0, 0, 0); (0, 0, 0)] i.
Proof.
  apply (proj1 (render_touches_only_live_edges
                  [Some (mkImpulse white 1 None false Out (1 # 10) (2 # 10))]
                  [(0, 0, 0); (0, 0, 0); (0, 0, 0)])).
  intros p [E|[]] _. injection E as <-. cbn. lia.
Defined.

End ImpulseInvariants.

(** ** Lightning: invariants and edge cases *)

Module LightningInvariants.
Import Lightning.
Local Open Scope Q_scope.

Lemma no_strike_at_zero_elapsed (time every u : Q) :
  0 <= u -> strikes time time every u = false.
Proof.
  intro Hu. unfold strikes. apply Qgtb_false.
  assert (E : (time - time) / every == 0) by (unfold Qdiv; ring).
  rewrite E. exact Hu.
Qed.

(** X9: the first tick of a storm never strikes.  On a layer that has not
    recorded a time yet (or recorded 0.0), with a draw that is not
    negative, [render] only drops the expired bolts, uses up that one draw
    and records the time; and every tick that returns records its time and
    keeps [bolt_every]. *)
Theorem first_tick_never_strikes
    (L L' : Layer) (m : Model) (time u : Q) (rest rest' : list Q)
    (frame f : Frame) :
  render L m time frame (u :: rest) = Done (L', f, rest') ->
  last_time L' = Some time
  /\ bolt_every L' = bolt_every L
  /\ (truthy (last_time L) = false -> 0 <= u ->
      bolts L' = purge time (bolts L) /\ rest' = rest).
Proof.
  intro H. unfold render in H.
  assert (Hbolts : bolts (note_first_tick L time) = bolts L).
  { unfold note_first_tick. destruct (negb _); reflexivity. }
  assert (Hevery : bolt_every (note_first_tick L time) = bolt_every L).
  { unfold note_first_tick. destruct (negb _); reflexivity. }
  rewrite Hbolts, Hevery in H.
  destruct (last_time (note_first_tick L time)) as [last|] eqn:Hlast;
    [|discriminate].
  destruct (Qeq_bool (bolt_every L) 0); [discriminate|].
  destruct (strikes time last (bolt_every L) u) eqn:Hs.
  - destruct (Bolt_init m time rest) as [[b r]| |]; try discriminate.
    cbn in H. destruct (update_all _ _ _); try discriminate.
    cbn in H. injection H as <- <- <-. cbn [last_time bolt_every bolts].
    split; [reflexivity|]. split; [reflexivity|]. intros Htr Hu. exfalso.
    unfold note_first_tick in Hlast. rewrite Htr in Hlast. cbn in Hlast.
    injection Hlast as <-.
    rewrite (no_strike_at_zero_elapsed time (bolt_every L) u Hu) in Hs.
    discriminate.
  - cbn in H. destruct (update_all _ _ _); try discriminate.
    cbn in H. injection H as <- <- <-. cbn [last_time bolt_every bolts].
    split; [reflexivity|]. split; [reflexivity|]. intros _ _.
    split; reflexivity.
Qed.

Lemma first_tick_never_strikes_witness :
  last_time (mkLayer [] (1 # 4) (Some 10)) = Some 10.
Proof.
  apply (first_tick_never_strikes (init (1 # 4)) _ fork 10 (1 # 2) [] []
           dark dark).
  reflexivity.
Defined.

(** X10: after a tick that draws from [0, 1), every bolt of the layer is
    alive at the time of the tick: the expired ones are gone and a new one
    has its whole life before it. *)
Theorem bolts_alive_after_tick
    (L L' : Layer) (m : Model) (time : Q) (draws rest' : list Q)
    (frame f : Frame) :
  Forall unit_draw draws ->
  render L m time frame draws = Done (L', f, rest') ->
  Forall (fun b => time < init_time b + life_time b) (bolts L').
Proof.
  intros Hd H.
  destruct (LightningFacts.render_bolts _ _ _ _ _ _ _ _ H)
    as (u & rest & new & -> & Hbs & Hnew).
  rewrite Hbs. apply Forall_app. split.
  - apply Forall_forall. intros b Hb. apply filter_In in Hb.
    destruct Hb as [_ Hal]. apply Qgtb_true. exact Hal.
  - apply Forall_forall. intros b Hb. destruct (Hnew b Hb) as (r & Hinit).
    destruct (LightningFacts.Bolt_init_fields m time rest r b Hinit)
      as (u' & d' & fin & es & ints & Hrest & Ht & Hpt & Hlife & _).
    subst rest. inversion Hd as [|? ? _ Hd']; subst.
    inversion Hd' as [|? ? [Hu0 _] _]; subst.
    rewrite Hlife, Hpt. unfold uniform, FADE_TIME. Lqa.lra.
Qed.

(** [bolts_alive_after_tick] on the fork, on a tick at 10.2 s that builds
    a bolt: the layer then holds that one bolt, with its life before it. *)
Lemma bolts_alive_after_tick_witness :
  exists L' f rest' b,
    render (mkLayer [] (1 # 4) (Some 10)) fork (102 # 10) dark
           [1 # 2; 0; 0; 0] = Done (L', f, rest')
    /\ bolts L' = [b]
    /\ 102 # 10 < init_time b + life_time b.
Proof.
  destruct (render (mkLayer [] (1 # 4) (Some 10)) fork (102 # 10) dark
                   [1 # 2; 0; 0; 0]) as [[[L' f] rest']| |] eqn:H;
    [|cbn in H; discriminate H|cbn in H; discriminate H].
  assert (Hd : Forall unit_draw [1 # 2; 0; 0; 0]).
  { repeat constructor; unfold unit_draw; Lqa.lra. }
  pose proof (bolts_alive_after_tick _ _ _ _ _ _ _ _ Hd H) as Hall.
  cbn in H. injection H as <- <- <-.
  do 4 eexists. split; [reflexivity|]. split; [reflexivity|].
  inversion Hall as [|b bs Hb _]. exact Hb.
Defined.

(** *** Brightness of a bolt over its life *)

Lemma Q2R_0 : Q2R 0 = 0%R.
Proof. unfold Q2R. cbn. Lra.lra. Qed.

(** X11: a bolt built by the constructor never drives an edge past its
    colour and never below zero while it lives.  While it pulses the factor
    applied to the colour is in (0, 1]; from [pulse_time] to
    [pulse_time + FADE_TIME] it is the base intensity scaled down
    linearly, between 0 and the base intensity, never growing, and 0 at
    the end of the bolt's life. *)
Theorem bolt_level_bounded
    (m : Model) (t0 : Q) (d0 r0 : list Q) (b : Bolt) (x : Q) :
  Bolt_init m t0 d0 = Done (b, r0) ->
  List.In x (intensities b) ->
  (forall dt, dt < pulse_time b -> (0 < level b dt x <= 1)%R)
  /\ (forall dt, pulse_time b <= dt -> dt <= pulse_time b + FADE_TIME ->
        (0 <= level b dt x <= Q2R x)%R)
  /\ (forall dt1 dt2, pulse_time b <= dt1 -> dt1 <= dt2 ->
        (level b dt2 x <= level b dt1 x)%R)
  /\ level b (pulse_time b + FADE_TIME) x = 0%R.
Proof.
  intros Hb Hx.
  destruct (LightningFacts.Bolt_init_fields m t0 d0 r0 b Hb)
    as (u & d' & fin & es & ints & _ & _ & _ & _ & _ & _ & Hints & _ & Hall & _).
  rewrite Hints in Hx. rewrite Forall_forall in Hall.
  pose proof (Hall x Hx) as Hxv.
  assert (Hxpos : 0 < x /\ x <= 92 # 100).
  { destruct Hxv as [-> | ->]; (split; [reflexivity|discriminate]). }
  assert (Hfade : forall dt, pulse_time b <= dt ->
            level b dt x
            = Q2R ((1 - (dt - pulse_time b) * 1 / FADE_TIME) * x)).
  { intros dt Hdt. unfold level.
    apply Qltb_false in Hdt. rewrite Hdt. reflexivity. }
  set (fade_factor := fun dt => 1 - (dt - pulse_time b) * 1 / FADE_TIME).
  assert (Hff : forall dt, fade_factor dt == 1 - (dt - pulse_time b) * 4).
  { intro dt. subst fade_factor. unfold FADE_TIME. cbv beta. field. }
  split; [|split; [|split]].
  - intros dt Hdt. unfold level. apply Qltb_true in Hdt. rewrite Hdt.
    split; [apply LightningFacts.pulse_level_positive; exact Hxv|].
    pose proof (COS_bound (2 * PI * Q2R dt * Q2R PULSE_FREQUENCY)) as Hc.
    fold (phase dt) in Hc.
    assert (Hp : Q2R PULSE_INTENSITY = (8 / 100)%R)
      by (unfold Q2R; cbn; Lra.lra).
    assert (Hle : (Q2R x <= 92 / 100)%R).
    { replace (92 / 100)%R with (Q2R (92 # 100))
        by (unfold Q2R; cbn; Lra.lra).
      apply Qle_Rle. apply Hxpos. }
    rewrite Hp. Lra.lra.
  - intros dt H1 H2. rewrite (Hfade dt H1). rewrite <- Q2R_0.
    assert (Hf : 0 <= fade_factor dt <= 1).
    { rewrite Hff. unfold FADE_TIME in H2. split; Lqa.lra. }
    split; apply Qle_Rle; fold (fade_factor dt); Lqa.nra.
  - intros dt1 dt2 H1 H2.
    rewrite (Hfade dt1 H1), (Hfade dt2) by Lqa.lra.
    apply Qle_Rle. fold (fade_factor dt1) (fade_factor dt2).
    assert (Hd : fade_factor dt2 <= fade_factor dt1)
      by (rewrite !Hff; Lqa.lra).
    Lqa.nra.
  - rewrite Hfade by (unfold FADE_TIME; Lqa.lra). rewrite <- Q2R_0.
    apply Qeq_eqR. fold (fade_factor (pulse_time b + FADE_TIME)).
    rewrite Hff. unfold FADE_TIME. ring.
Qed.

(** [bolt_level_bounded] for the leader edge of a bolt struck on the fork
    at 10 s, at the moment it is born. *)
Lemma bolt_level_bounded_witness :
  let b := mkBolt 10 (uniform (25 # 100) (35 # 100) 0)
                  (230 / 255, 230 / 255, 255 / 255)
                  (uniform (25 # 100) (35 # 100) 0 + FADE_TIME)
                  [0; 1; 2]%nat
                  [leader_intensity; leader_intensity; branch_intensity] in
  let lev := level b 0 leader_intensity in
  (0 < lev <= 1)%R.
Proof.
  cbv zeta.
  apply (proj1 (bolt_level_bounded fork 10 [0; 0; 0] [] _ leader_intensity
                  eq_refl (or_introl eq_refl)) 0).
  reflexivity.
Defined.

(** *** The storm on a well-formed model *)

Lemma draw_edges_total (b : Bolt) (dt : Q) (es : list nat) :
  forall (ints : list Q) (frame : Frame),
    length es = length ints ->
    Forall (fun e => (e < length frame)%nat) es ->
    exists f, draw_edges b dt es ints frame = Done f
              /\ length f = length frame.
Proof.
  induction es as [|e es IH]; intros ints frame Hlen Hin.
  - exists frame. split; reflexivity.
  - destruct ints as [|x ints]; [discriminate|].
    inversion Hin as [|e' l' He Hes]; subst.
    destruct (LightningFacts.mixAdd_at_spec
                (scaled (color b) (level b dt x)) frame e He)
      as (f1 & Hm & Hl1 & _).
    destruct (IH ints f1) as (f & Hd & Hl).
    + cbn in Hlen. lia.
    + rewrite Hl1. exact Hes.
    + exists f. split; [cbn; rewrite Hm; cbn; exact Hd|congruence].
Qed.

Lemma update_all_total (time : Q) (bs : list Bolt) :
  forall frame,
    Forall (bolt_ok (length frame)) bs ->
    exists f, update_all bs frame time = Done f /\ length f = length frame.
Proof.
  induction bs as [|b bs IH]; intros frame Hok.
  - exists frame. split; reflexivity.
  - inversion Hok as [|b' l' [Hlen Hin] Hrest]; subst.
    destruct (draw_edges_total b (time - init_time b) (edges b)
                (intensities b) frame Hlen Hin) as (f1 & Hd & Hl1).
    destruct (IH f1) as (f & Hu & Hl).
    + rewrite Hl1. exact Hrest.
    + exists f. split; [|congruence].
      cbn. unfold update_frame. rewrite Hd. cbn. exact Hu.
Qed.

Lemma Branching_edges_below (m : Model) (n leader final : nat)
    (es : list nat) (ints : list Q) :
  (forall e e', List.In e' (outwardAdjacency m e) -> (e' < n)%nat) ->
  Branching m leader es ints final ->
  Forall (fun e => (e < n)%nat) es.
Proof.
  intros Hadj. induction 1 as [|leader next final es ints Hne Hin Hb IH].
  - constructor.
  - apply Forall_app. split; [|exact IH].
    apply Forall_forall. intros e He. exact (Hadj leader e He).
Qed.

(** X12: on a well-formed model the storm never fails.  Take a frame of
    [n] LEDs, a model with a root whose roots and outward neighbours are
    all below [n] and whose outward adjacency is well founded, a non-zero
    [bolt_every], bolts that fit the frame, and draws in [0, 1), three
    more than the rank of any root.  Then [render] returns, the frame
    keeps its length, and the bolts of the layer still fit the frame. *)
Theorem storm_never_fails
    (L : Layer) (m : Model) (rank : nat -> nat) (time : Q)
    (frame : Frame) (draws : list Q) :
  ~ bolt_every L == 0 ->
  roots m <> [] ->
  (forall r, List.In r (roots m) -> (r < length frame)%nat) ->
  (forall e e', List.In e' (outwardAdjacency m e) ->
                (e' < length frame)%nat /\ (rank e' < rank e)%nat) ->
  Forall (bolt_ok (length frame)) (bolts L) ->
  Forall unit_draw draws ->
  (forall r, List.In r (roots m) -> (rank r + 3 <= length draws)%nat) ->
  exists L' f rest,
    render L m time frame draws = Done (L', f, rest)
    /\ length f = length frame
    /\ Forall (bolt_ok (length frame)) (bolts L').
Proof.
  intros Hevery Hroots Hrn Hadj Hok Hd Hlen.
  assert (Hbolts : bolts (note_first_tick L time) = bolts L).
  { unfold note_first_tick. destruct (negb _); reflexivity. }
  assert (Hev : bolt_every (note_first_tick L time) = bolt_every L).
  { unfold note_first_tick. destruct (negb _); reflexivity. }
  assert (Hlast : exists last, last_time (note_first_tick L time) = Some last).
  { unfold note_first_tick. destruct (last_time L) as [t|] eqn:E; cbn.
    - destruct (Qeq_bool t 0); cbn; [eexists; reflexivity|].
      rewrite E. eexists. reflexivity.
    - eexists. reflexivity. }
  destruct Hlast as [last Hlast].
  assert (Hkept : Forall (bolt_ok (length frame)) (purge time (bolts L))).
  { rewrite Forall_forall in *. intros b Hb. apply Hok.
    apply filter_In in Hb. tauto. }
  destruct (roots m) as [|r0 rs] eqn:Hr; [contradiction|].
  pose proof (Hlen r0 (or_introl eq_refl)) as Hl0.
  destruct draws as [|u [|u1 [|u2 d3]]]; try (cbn in Hl0; lia).
  inversion Hd as [|? ? _ Hd1]; subst.
  inversion Hd1 as [|? ? _ Hd2]; subst.
  inversion Hd2 as [|? ? [Hu20 Hu21] Hd3]; subst.
  unfold render. rewrite Hbolts, Hev, Hlast.
  destruct (Qeq_bool (bolt_every L) 0) eqn:Hz;
    [apply Qeq_bool_iff in Hz; contradiction|].
  destruct (strikes time last (bolt_every L) u).
  - (* a bolt is built *)
    assert (Hrne : roots m <> []) by (rewrite Hr; discriminate).
    destruct (choice_index u2 (roots m) Hu20 Hu21 Hrne)
      as (_ & root & Hnth & Hch).
    assert (Hroot : List.In root (r0 :: rs)).
    { rewrite <- Hr. exact (nth_error_In _ _ Hnth). }
    destruct (LightningFacts.extend_path_total m rank
                (fun e e' H => proj2 (Hadj e e' H)) d3 root [root]
                [leader_intensity] Hd3) as (es' & ints' & rest & Hext).
    { specialize (Hlen root Hroot). cbn in Hlen. lia. }
    destruct (LightningFacts.extend_path_spec m d3 _ _ _ _ _ _ Hext)
      as (es & ints & final & -> & -> & Hb).
    destruct (LightningFacts.Branching_shape m root final es ints Hb)
      as (_ & Hl & _).
    pose proof (Branching_edges_below m (length frame) root final es ints
                  (fun e e' H => proj1 (Hadj e e' H)) Hb) as Hbelow.
    assert (Hinit : Bolt_init m time (u1 :: u2 :: d3)
                    = Done (mkBolt time (uniform (25 # 100) (35 # 100) u1)
                                   (230 / 255, 230 / 255, 255 / 255)
                                   (uniform (25 # 100) (35 # 100) u1
                                    + FADE_TIME)
                                   ([root] ++ es)
                                   ([leader_intensity] ++ ints), rest)).
    { unfold Bolt_init, choose_random_path.
      rewrite Hch. cbn [bind]. rewrite Hext. reflexivity. }
    rewrite Hinit. cbn [bind].
    set (nb := mkBolt _ _ _ _ _ _).
    assert (Hall : Forall (bolt_ok (length frame))
                          (purge time (bolts L) ++ [nb])).
    { apply Forall_app. split; [exact Hkept|]. constructor; [|constructor].
      split; [cbn; rewrite Hl; reflexivity|].
      cbn. constructor; [|exact Hbelow]. apply Hrn. exact Hroot. }
    destruct (update_all_total time _ frame Hall) as (f & Hu & Hf).
    rewrite Hu. cbn [bind]. do 3 eexists. split; [reflexivity|].
    split; [exact Hf|exact Hall].
  - cbn [bind].
    destruct (update_all_total time _ frame Hkept) as (f & Hu & Hf).
    rewrite Hu. cbn [bind]. do 3 eexists. split; [reflexivity|].
    split; [exact Hf|exact Hkept].
Qed.

(** [storm_never_fails] on the fork with a three-LED frame. *)
Lemma storm_never_fails_witness :
  exists L' f rest,
    render (mkLayer [] (1 # 4) (Some 10)) fork (102 # 10) dark
           [1 # 2; 0; 0; 0] = Done (L', f, rest)
    /\ length f = length dark
    /\ Forall (bolt_ok (length dark)) (bolts L').
Proof.
  apply (storm_never_fails (mkLayer [] (1 # 4) (Some 10)) fork
           (fun e => match e with O => 1 | _ => 0 end)%nat).
  - discriminate.
  - discriminate.
  - intros r [<-|[]]. cbn. lia.
  - intros [|[|e]] e' H; cbn in H; try contradiction.
    destruct H as [<-|[<-|[]]]; cbn; lia.
  - constructor.
  - repeat constructor; unfold unit_draw; Lqa.lra.
  - intros r [<-|[]]. cbn. lia.
Defined.

(** X13: a bolt only lights its root and edges that lie outward of an
    edge it already lights: the first edge of a constructed bolt is a root
    of the model, and every other edge of its path is an outward neighbour
    of an edge of the path. *)
Theorem bolt_lights_outward_only
    (m : Model) (time : Q) (draws rest : list Q) (b : Bolt) :
  Bolt_init m time draws = Done (b, rest) ->
  exists root es,
    edges b = root :: es
    /\ List.In root (roots m)
    /\ forall e, List.In e es ->
         exists e0, List.In e0 (edges b)
                    /\ List.In e (outwardAdjacency m e0).
Proof.
  intro H. unfold Bolt_init in H.
  destruct draws as [|u d]; [discriminate|].
  destruct (choose_random_path m d) as [[[es' ints'] r]| |] eqn:Hp;
    try discriminate.
  cbn in H. injection H as <- <-. cbn [edges].
  unfold choose_random_path in Hp.
  destruct d as [|u1 d1]; [discriminate|].
  destruct (choice u1 (roots m)) as [root| |] eqn:Hch; try discriminate.
  cbn in Hp. apply LightningFacts.extend_path_spec in Hp.
  destruct Hp as (es & ints & final & -> & -> & Hb).
  exists root, es. split; [reflexivity|].
  split; [exact (choice_In _ _ _ Hch)|].
  assert (Hgen : forall leader es ints final,
            Branching m leader es ints final ->
            forall e, List.In e es ->
              exists e0, List.In e0 (leader :: es)
                         /\ List.In e (outwardAdjacency m e0)).
  { clear. induction 1 as [|leader next final es ints Hne Hin Hb IH];
      intros e He; [destruct He|].
    apply in_app_or in He. destruct He as [He|He].
    - exists leader. split; [left; reflexivity|exact He].
    - destruct (IH e He) as (e0 & [<-|H0] & Hadj).
      + exists next. split; [|exact Hadj]. right.
        apply in_or_app. left. exact Hin.
      + exists e0. split; [|exact Hadj]. right.
        apply in_or_app. right. exact H0. }
  exact (Hgen root es ints final Hb).
Qed.

(** [bolt_lights_outward_only] for a bolt struck on the fork. *)
Lemma bolt_lights_outward_only_witness :
  exists root es,
    [0; 1; 2]%nat = root :: es
    /\ List.In root (roots fork)
    /\ forall e, List.In e es ->
         exists e0, List.In e0 [0; 1; 2]%nat
                    /\ List.In e (outwardAdjacency fork e0).
Proof.
  apply (bolt_lights_outward_only fork 10 [0; 0; 0] []
           (mkBolt 10 (uniform (25 # 100) (35 # 100) 0)
                   (230 / 255, 230 / 255, 255 / 255)
                   (uniform (25 # 100) (35 # 100) 0 + FADE_TIME)
                   [0; 1; 2]%nat
                   [leader_intensity; leader_intensity; branch_intensity])).
  reflexivity.
Defined.

End LightningInvariants.

(** ** Fireflies: phase, blinking and drawing *)

Module FireflyInvariants.
Import Firefly.
Local Open Scope R_scope.

Lemma fmod_period (x y : R) : 0 < y -> fmod (x + y) y = fmod x y.
Proof.
  intro Hy. unfold fmod.
  assert (Hk : (Int_part (x / y) + 1)%Z = Int_part ((x + y) / y)).
  { apply Int_part_spec. rewrite plus_IZR.
    destruct (base_Int_part (x / y)) as [Hlo Hhi].
    replace ((x + y) / y) with (x / y + 1) by (field; Lra.lra).
    split; Lra.lra. }
  rewrite <- Hk, plus_IZR. ring.
Qed.

Lemma activation_threshold (p : R) : 0 < p -> (1 <= activation p <-> 1 <= p).
Proof.
  intro Hp. unfold activation, EXP.
  assert (H1 : Rpower 1 (1 / 2) = 1).
  { unfold Rpower. rewrite ln_1, Rmult_0_r. apply exp_0. }
  split; intro H.
  - destruct (Rle_or_lt 1 p) as [Hle|Hlt]; [exact Hle|exfalso].
    assert (Hc : Rpower p (1 / 2) < Rpower 1 (1 / 2))
      by (apply Rlt_Rpower_l; Lra.lra).
    Lra.lra.
  - apply Rle_trans with (Rpower 1 (1 / 2)); [rewrite H1; Lra.lra|].
    apply Rle_Rpower_l; Lra.lra.
Qed.

(** X14: the phase of a firefly is periodic in time with period
    [CYCLE_TIME] and always lies in [0.01, 1.01): it is the fraction of the
    cycle gone by, shifted up by one hundredth. *)
Theorem phase_is_periodic (f : Firefly) (time : R) :
  phi f (time + CYCLE_TIME) = phi f time
  /\ 1 / 100 <= phi f time < 1 + 1 / 100
  /\ phi f time
     = fmod (time + offset f) CYCLE_TIME / CYCLE_TIME + 1 / 100.
Proof.
  split; [|split; [exact (FireflyFacts.phi_range f time)|reflexivity]].
  unfold phi.
  replace (time + CYCLE_TIME + offset f) with (time + offset f + CYCLE_TIME)
    by ring.
  rewrite fmod_period by exact FireflyFacts.CYCLE_TIME_pos. reflexivity.
Qed.

(** X15: [update] reports a blink exactly in the last hundredth of the
    cycle, that is when at least 99% of [CYCLE_TIME] has gone by since the
    cycle began; a blink records the time in [blinktime], anything else
    leaves the firefly as it is; the offset and the edge are never
    touched. *)
Theorem blink_in_last_hundredth (f : Firefly) (time : R) :
  (snd (update f time) = true
   <-> 99 / 100 * CYCLE_TIME <= fmod (time + offset f) CYCLE_TIME)
  /\ (snd (update f time) = true -> blinktime (fst (update f time)) = time)
  /\ (snd (update f time) = false -> fst (update f time) = f)
  /\ offset (fst (update f time)) = offset f
  /\ edge (fst (update f time)) = edge f.
Proof.
  pose proof (FireflyFacts.phi_range f time) as [Hp0 Hp1].
  pose proof FireflyFacts.CYCLE_TIME_pos as HC.
  assert (Hth : 1 <= activation (phi f time)
                <-> 99 / 100 * CYCLE_TIME <= fmod (time + offset f) CYCLE_TIME).
  { rewrite activation_threshold by Lra.lra. unfold phi.
    set (r := fmod (time + offset f) CYCLE_TIME).
    split; intro H.
    - apply Rmult_le_reg_r with (/ CYCLE_TIME);
        [apply Rinv_0_lt_compat; exact HC|].
      replace (99 / 100 * CYCLE_TIME * / CYCLE_TIME) with (99 / 100)
        by (field; Lra.lra).
      fold (r / CYCLE_TIME). Lra.lra.
    - assert (H' : 99 / 100 <= r / CYCLE_TIME).
      { apply Rmult_le_reg_r with CYCLE_TIME; [exact HC|].
        replace (r / CYCLE_TIME * CYCLE_TIME) with r by (field; Lra.lra).
        exact H. }
      Lra.lra. }
  unfold update. destruct (Rle_dec 1 (activation (phi f time))) as [Hb|Hn];
    cbn [fst snd offset edge blinktime].
  - split; [split; [intros _; apply Hth; exact Hb|reflexivity]|].
    split; [reflexivity|]. split; [discriminate|]. split; reflexivity.
  - split; [split; [discriminate|intro H; apply Hth in H; contradiction]|].
    split; [discriminate|]. split; [reflexivity|]. split; reflexivity.
Qed.

(** X16: a nudge never sets a firefly back: its offset does not decrease
    and its edge stays, and its [blinktime] is left alone or set to the
    time of the nudge. *)
Theorem nudge_moves_forward (f : Firefly) (time : R) :
  offset f <= offset (nudge f time)
  /\ edge (nudge f time) = edge f
  /\ (blinktime (nudge f time) = blinktime f
      \/ blinktime (nudge f time) = time).
Proof.
  pose proof FireflyFacts.CYCLE_TIME_pos as HC.
  split; [|split].
  - unfold nudge. destruct (Rlt_dec _ 1); [|Lra.lra].
    rewrite FireflyFacts.update_offset. cbn [offset].
    pose proof (Rmax_r (activation_to_phi
                          (Rmin (activation (phi f time) + NUDGE) 1)
                        - phi f time) 0) as Hm.
    Lra.nra.
  - unfold nudge, update. destruct (Rlt_dec _ 1); [|reflexivity].
    destruct (Rle_dec 1 _); reflexivity.
  - unfold nudge, update. destruct (Rlt_dec _ 1); [|left; reflexivity].
    destruct (Rle_dec 1 _); [right|left]; reflexivity.
Qed.

(** *** Drawing a firefly *)

Lemma mixAdd_at_value (c : R * R * R) (frame : Lightning.Frame) (e : nat) :
  (e < length frame)%nat ->
  exists frame',
    Lightning.mixAdd_at frame e c = Done frame'
    /\ length frame' = length frame
    /\ (forall i, i <> e -> nth_error frame' i = nth_error frame i)
    /\ (forall r g b, nth_error frame e = Some (r, g, b) ->
          nth_error frame' e
          = Some (r + fst (fst c), g + snd (fst c), b + snd c)).
Proof.
  revert e. induction frame as [|[[r0 g0] b0] frame IH]; intros e He.
  - cbn in He. lia.
  - destruct e as [|e].
    + destruct c as [[r' g'] b']. eexists. split; [reflexivity|].
      split; [reflexivity|]. split.
      * intros [|i] Hi; [contradiction|reflexivity].
      * intros r g b H. injection H as <- <- <-. reflexivity.
    + cbn in He. destruct (IH e) as (f' & Hm & Hl & Ho & Hv); [lia|].
      exists ((r0, g0, b0) :: f'). split; [cbn; rewrite Hm; reflexivity|].
      split; [cbn; rewrite Hl; reflexivity|]. split.
      * intros [|i] Hi; [reflexivity|]. cbn. apply Ho. lia.
      * intros r g b H. cbn in *. exact (Hv r g b H).
Qed.

Lemma mixAdd_at_beyond (c : R * R * R) (frame : Lightning.Frame) (e : nat) :
  (length frame <= e)%nat -> Lightning.mixAdd_at frame e c = Raised.
Proof.
  revert e. induction frame as [|[[r0 g0] b0] frame IH]; intros e He.
  - destruct e; reflexivity.
  - destruct e as [|e]; [cbn in He; lia|].
    cbn. rewrite IH; [reflexivity|cbn in He; lia].
Qed.

(** X17: a firefly is drawn only during the first half cycle after its
    last blink.  From [CYCLE_TIME / 2] after [blinktime] on, the frame is
    left as it is.  Within the half cycle, the firefly's LED, if the frame
    has it, gets the same amount added to its three channels, an amount
    between 0 and 1, and the other LEDs stay; if the frame does not have
    the LED, the drawing raises. *)
Theorem firefly_drawn_for_half_a_cycle
    (f : Firefly) (time : R) (frame : Lightning.Frame) :
  (CYCLE_TIME / 2 <= time - blinktime f ->
   Swarm.Firefly_render f time frame = Done frame)
  /\ (0 <= time - blinktime f < CYCLE_TIME / 2 ->
      (edge f < length frame)%nat ->
      exists s frame',
        0 <= s <= 1
        /\ Swarm.Firefly_render f time frame = Done frame'
        /\ length frame' = length frame
        /\ (forall i, i <> edge f -> nth_error frame' i = nth_error frame i)
        /\ (forall r g b, nth_error frame (edge f) = Some (r, g, b) ->
              nth_error frame' (edge f) = Some (r + s, g + s, b + s)))
  /\ (time - blinktime f < CYCLE_TIME / 2 ->
      (length frame <= edge f)%nat ->
      Swarm.Firefly_render f time frame = Raised).
Proof.
  pose proof FireflyFacts.CYCLE_TIME_pos as HC.
  unfold Swarm.Firefly_render. split; [|split].
  - intro H. destruct (Rlt_dec _ _); [Lra.lra|reflexivity].
  - intros [H0 H1] He. destruct (Rlt_dec _ _) as [_|Hn]; [|Lra.lra].
    set (dt := time - blinktime f) in *.
    set (s := 1 * sin (PI * dt / (CYCLE_TIME / 2))).
    destruct (mixAdd_at_value (s, s, s) frame (edge f) He)
      as (frame' & Hm & Hl & Ho & Hv).
    exists s, frame'. split; [|auto].
    pose proof PI_RGT_0 as Hpi.
    assert (Hq : 0 <= dt / (CYCLE_TIME / 2) <= 1).
    { split.
      - apply Rmult_le_pos; [exact H0|].
        left. apply Rinv_0_lt_compat. Lra.lra.
      - apply Rmult_le_reg_r with (CYCLE_TIME / 2); [Lra.lra|].
        replace (dt / (CYCLE_TIME / 2) * (CYCLE_TIME / 2)) with dt
          by (field; Lra.lra).
        Lra.lra. }
    assert (Harg : PI * dt / (CYCLE_TIME / 2) = PI * (dt / (CYCLE_TIME / 2)))
      by (field; Lra.lra).
    subst s. rewrite Harg.
    pose proof (SIN_bound (PI * (dt / (CYCLE_TIME / 2)))) as [_ Hs1].
    assert (Hs0 : 0 <= sin (PI * (dt / (CYCLE_TIME / 2)))).
    { apply sin_ge_0; Lra.nra. }
    Lra.lra.
  - intros H He. destruct (Rlt_dec _ _) as [_|Hn]; [|Lra.lra].
    apply mixAdd_at_beyond. exact He.
Qed.

(** [firefly_drawn_for_half_a_cycle] for a firefly that blinked at 2 s,
    seen at 3 s on the dark frame. *)
Lemma firefly_drawn_for_half_a_cycle_witness :
  Swarm.Firefly_render (mkFirefly 0 1 2) 3 dark = Done dark.
Proof.
  apply (proj1 (firefly_drawn_for_half_a_cycle (mkFirefly 0 1 2) 3 dark)).
  unfold CYCLE_TIME. cbn. Lra.lra.
Defined.

(** *** The swarm *)

Lemma moved_on_refl (a : Firefly) : moved_on a a.
Proof. split; [reflexivity|Lra.lra]. Qed.

Lemma moved_on_trans (a b c : Firefly) :
  moved_on a b -> moved_on b c -> moved_on a c.
Proof. intros [E1 O1] [E2 O2]. split; [congruence|Lra.lra]. Qed.

Lemma swarm_refl (cs : list Firefly) : Forall2 moved_on cs cs.
Proof. induction cs; constructor; [apply moved_on_refl|assumption]. Qed.

Lemma swarm_trans (a b c : list Firefly) :
  Forall2 moved_on a b -> Forall2 moved_on b c -> Forall2 moved_on a c.
Proof.
  intro Hab. revert c. induction Hab as [|x y a b Hxy Hab IH]; intros c Hbc.
  - inversion Hbc. constructor.
  - inversion Hbc as [|y' z b' c' Hyz Hbc']; subst. constructor.
    + exact (moved_on_trans _ _ _ Hxy Hyz).
    + apply IH. exact Hbc'.
Qed.

Lemma swarm_length (a b : list Firefly) :
  Forall2 moved_on a b -> length b = length a.
Proof. induction 1; cbn; congruence. Qed.

Lemma set_nth_moved_on (cs : list Firefly) (i : nat) (c c' : Firefly) :
  nth_error cs i = Some c -> moved_on c c' ->
  Forall2 moved_on cs (Swarm.set_nth i c' cs).
Proof.
  revert i. induction cs as [|x cs IH]; intros [|i] H Hm; try discriminate.
  - injection H as ->. constructor; [exact Hm|apply swarm_refl].
  - cbn. constructor; [apply moved_on_refl|]. apply IH; assumption.
Qed.

Lemma update_moved_on (c : Firefly) (time : R) :
  moved_on c (fst (update c time)).
Proof.
  unfold update. destruct (Rle_dec _ _); cbn; split; try reflexivity;
    Lra.lra.
Qed.

Lemma nudge_moved_on (c : Firefly) (time : R) : moved_on c (nudge c time).
Proof.
  unfold nudge. destruct (Rlt_dec _ 1); [|apply moved_on_refl].
  set (c' := mkFirefly _ _ _).
  apply moved_on_trans with c'; [|apply update_moved_on].
  split; [reflexivity|]. cbn.
  pose proof FireflyFacts.CYCLE_TIME_pos as HC.
  pose proof (Rmax_r (activation_to_phi
                        (Rmin (activation (phi c time) + NUDGE) 1)
                      - phi c time) 0) as Hm.
  Lra.nra.
Qed.

Lemma nudge_each_moved_on (targets : list nat) (time : R) :
  forall cs cs',
    Swarm.nudge_each cs targets time = Done cs' -> Forall2 moved_on cs cs'.
Proof.
  induction targets as [|i targets IH]; intros cs cs' H; cbn in H.
  - injection H as <-. apply swarm_refl.
  - unfold Swarm.nudge_at in H.
    destruct (nth_error cs i) as [c|] eqn:Hc; [|discriminate].
    cbn in H. apply swarm_trans with (Swarm.set_nth i (nudge c time) cs).
    + apply (set_nth_moved_on cs i c); [exact Hc|apply nudge_moved_on].
    + apply IH. exact H.
Qed.

Lemma nudge_each_total (targets : list nat) (time : R) :
  forall cs,
    Forall (fun i => (i < length cs)%nat) targets ->
    exists cs', Swarm.nudge_each cs targets time = Done cs'.
Proof.
  induction targets as [|i targets IH]; intros cs Hin.
  - exists cs. reflexivity.
  - inversion Hin as [|i' l' Hi Hrest]; subst. cbn. unfold Swarm.nudge_at.
    destruct (nth_error cs i) as [c|] eqn:Hc;
      [|apply nth_error_None in Hc; lia].
    cbn. apply IH.
    rewrite (swarm_length _ _ (set_nth_moved_on cs i c _ Hc
                                 (nudge_moved_on c time))).
    exact Hrest.
Qed.

Lemma update_from_moved_on (m : Model) (time : R) (n : nat) :
  forall i cs cs',
    Swarm.update_from n i m cs time = Done cs' -> Forall2 moved_on cs cs'.
Proof.
  induction n as [|n IH]; intros i cs cs' H; cbn in H.
  - injection H as <-. apply swarm_refl.
  - destruct (nth_error cs i) as [c|] eqn:Hc; [|discriminate].
    pose proof (update_moved_on c time) as Hu.
    destruct (update c time) as [c' blink]. cbn [fst] in Hu.
    pose proof (set_nth_moved_on cs i c c' Hc Hu) as H1.
    destruct blink.
    + destruct (roots m) as [|r0 others]; [discriminate|].
      destruct (Nat.eqb (edge c') r0).
      * destruct (Swarm.nudge_each (Swarm.set_nth i c' cs) others time)
          as [cs2| |] eqn:H2; try discriminate.
        cbn in H.
        destruct (Swarm.nudge_each cs2 (outwardAdjacency m (edge c')) time)
          as [cs3| |] eqn:H3; try discriminate.
        cbn in H. apply IH in H.
        apply nudge_each_moved_on in H2. apply nudge_each_moved_on in H3.
        eauto using swarm_trans.
      * cbn in H.
        destruct (Swarm.nudge_each (Swarm.set_nth i c' cs)
                    (outwardAdjacency m (edge c')) time)
          as [cs3| |] eqn:H3; try discriminate.
        cbn in H. apply IH in H. apply nudge_each_moved_on in H3.
        eauto using swarm_trans.
    + cbn in H. apply IH in H. eauto using swarm_trans.
Qed.

Lemma update_from_total (m : Model) (time : R) (n : nat) :
  roots m <> [] ->
  forall i cs,
    (i + n = length cs)%nat ->
    (forall r, List.In r (roots m) -> (r < length cs)%nat) ->
    (forall e e', List.In e' (outwardAdjacency m e) -> (e' < length cs)%nat) ->
    exists cs', Swarm.update_from n i m cs time = Done cs'.
Proof.
  intro Hroots. induction n as [|n IH]; intros i cs Hn Hr Hadj.
  - exists cs. reflexivity.
  - cbn. destruct (nth_error cs i) as [c|] eqn:Hc;
      [|apply nth_error_None in Hc; lia].
    pose proof (update_moved_on c time) as Hu.
    destruct (update c time) as [c' blink]. cbn [fst] in Hu.
    pose proof (set_nth_moved_on cs i c c' Hc Hu) as H1.
    pose proof (swarm_length _ _ H1) as Hl1.
    assert (Hnext : forall cs3, Forall2 moved_on cs cs3 ->
              exists cs', Swarm.update_from n (S i) m cs3 time = Done cs').
    { intros cs3 H3. pose proof (swarm_length _ _ H3) as Hl3.
      apply IH; rewrite Hl3; [lia|exact Hr|exact Hadj]. }
    assert (Hadj_ok : forall cs2 e, length cs2 = length cs ->
              exists cs3, Swarm.nudge_each cs2 (outwardAdjacency m e) time
                          = Done cs3).
    { intros cs2 e Hl2. apply nudge_each_total. apply Forall_forall.
      intros e' He'. rewrite Hl2. exact (Hadj e e' He'). }
    destruct blink; [|cbn; apply Hnext; exact H1].
    destruct (roots m) as [|r0 others] eqn:Hrs; [contradiction|].
    destruct (Nat.eqb (edge c') r0).
    + destruct (nudge_each_total others time (Swarm.set_nth i c' cs))
        as (cs2 & H2).
      { apply Forall_forall. intros r Hin. rewrite Hl1.
        apply Hr. right. exact Hin. }
      rewrite H2. cbn. pose proof (nudge_each_moved_on _ _ _ _ H2) as M2.
      destruct (Hadj_ok cs2 (edge c')) as (cs3 & H3).
      { rewrite (swarm_length _ _ M2). exact Hl1. }
      rewrite H3. cbn. apply Hnext.
      pose proof (nudge_each_moved_on _ _ _ _ H3) as M3.
      eauto using swarm_trans.
    + cbn. destruct (Hadj_ok (Swarm.set_nth i c' cs) (edge c') Hl1)
        as (cs3 & H3).
      rewrite H3. cbn. apply Hnext.
      pose proof (nudge_each_moved_on _ _ _ _ H3) as M3.
      eauto using swarm_trans.
Qed.

Lemma render_each_length (time : R) (cs : list Firefly) :
  forall frame f,
    Swarm.render_each cs time frame = Done f -> length f = length frame.
Proof.
  induction cs as [|c cs IH]; intros frame f H; cbn in H.
  - injection H as <-. reflexivity.
  - unfold Swarm.Firefly_render in H.
    destruct (Rlt_dec _ _).
    + destruct (Nat.lt_ge_cases (edge c) (length frame)) as [Hlt|Hge].
      * destruct (mixAdd_at_value
                    (1 * sin (PI * (time - blinktime c) / (CYCLE_TIME / 2)),
                     1 * sin (PI * (time - blinktime c) / (CYCLE_TIME / 2)),
                     1 * sin (PI * (time - blinktime c) / (CYCLE_TIME / 2)))
                    frame (edge c) Hlt) as (f1 & Hm & Hl & _).
        rewrite Hm in H. cbn in H. rewrite (IH _ _ H). exact Hl.
      * rewrite mixAdd_at_beyond in H by exact Hge. discriminate.
    + cbn in H. exact (IH _ _ H).
Qed.

Lemma render_each_total (time : R) (cs : list Firefly) :
  forall frame,
    Forall (fun c => (edge c < length frame)%nat) cs ->
    exists f, Swarm.render_each cs time frame = Done f.
Proof.
  induction cs as [|c cs IH]; intros frame Hin.
  - exists frame. reflexivity.
  - inversion Hin as [|c0 l Hc Hrest]; subst. cbn.
    unfold Swarm.Firefly_render. destruct (Rlt_dec _ _).
    + destruct (mixAdd_at_value
                  (1 * sin (PI * (time - blinktime c) / (CYCLE_TIME / 2)),
                   1 * sin (PI * (time - blinktime c) / (CYCLE_TIME / 2)),
                   1 * sin (PI * (time - blinktime c) / (CYCLE_TIME / 2)))
                  frame (edge c) Hc) as (f1 & Hm & Hl & _).
      rewrite Hm. cbn. apply IH. rewrite Hl. exact Hrest.
    + cbn. apply IH. exact Hrest.
Qed.

(** X18: a tick of the swarm keeps the swarm: when [render] returns there
    are as many fireflies as before, each on the edge it had, none with a
    smaller offset (blinks and nudges only move a firefly on in its
    cycle), and the frame has its old length.  And [render] does return
    when the model has a root, every root and every outward neighbour is
    the index of a firefly, and every firefly's edge is an LED of the
    frame. *)
Theorem swarm_tick_keeps_swarm
    (cs : list Firefly) (m : Model) (time : R) (frame : Lightning.Frame) :
  (forall cs' f,
      Swarm.render cs m time frame = Done (cs', f) ->
      Forall2 moved_on cs cs' /\ length cs' = length cs
      /\ length f = length frame)
  /\ (roots m <> [] ->
      (forall r, List.In r (roots m) -> (r < length cs)%nat) ->
      (forall e e', List.In e' (outwardAdjacency m e) ->
                    (e' < length cs)%nat) ->
      Forall (fun c => (edge c < length frame)%nat) cs ->
      exists cs' f, Swarm.render cs m time frame = Done (cs', f)).
Proof.
  split.
  - intros cs' f H. unfold Swarm.render in H.
    destruct (Swarm.update_from (length cs) 0 m cs time) as [cs1| |] eqn:Hu;
      try discriminate.
    cbn in H. destruct (Swarm.render_each cs1 time frame) as [f1| |] eqn:Hr;
      try discriminate.
    cbn in H. injection H as <- <-.
    pose proof (update_from_moved_on m time _ _ _ _ Hu) as M.
    split; [exact M|]. split; [exact (swarm_length _ _ M)|].
    exact (render_each_length _ _ _ _ Hr).
  - intros Hroots Hr Hadj Hed. unfold Swarm.render.
    destruct (update_from_total m time (length cs) Hroots 0 cs eq_refl Hr Hadj)
      as (cs1 & Hu).
    rewrite Hu. cbn.
    pose proof (update_from_moved_on m time _ _ _ _ Hu) as M.
    destruct (render_each_total time cs1 frame) as (f & Hf).
    { clear - M Hed. induction M as [|a b l l' [He _] M IH];
        [constructor|].
      inversion Hed; subst. constructor; [rewrite He; assumption|].
      apply IH. assumption. }
    rewrite Hf. cbn. eauto.
Qed.

(** [swarm_tick_keeps_swarm] for three fireflies on the fork, one per
    LED. *)
Lemma swarm_tick_keeps_swarm_witness :
  exists cs' f,
    Swarm.render [mkFirefly 0 0 0; mkFirefly 0 1 0; mkFirefly 0 2 0]
                 fork 3 dark = Done (cs', f).
Proof.
  apply (proj2 (swarm_tick_keeps_swarm
                  [mkFirefly 0 0 0; mkFirefly 0 1 0; mkFirefly 0 2 0]
                  fork 3 dark)).
  - discriminate.
  - intros r [<-|[]]. cbn. lia.
  - intros [|[|e]] e' H; cbn in H; try contradiction.
    destruct H as [<-|[<-|[]]]; cbn; lia.
  - repeat constructor.
Defined.

(** *** Building the swarm *)

Lemma init_from_spec (n : nat) :
  forall e draws,
    (n <= length draws)%nat ->
    exists cs,
      Swarm.init_from e n draws = Done (cs, skipn n draws)
      /\ length cs = n
      /\ forall i u, (i < n)%nat -> nth_error draws i = Some u ->
           nth_error cs i = Some (mkFirefly (Q2R u * CYCLE_TIME) (e + i) 0).
Proof.
  induction n as [|n IH]; intros e draws Hlen.
  - exists []. repeat split. intros i u Hi. lia.
  - destruct draws as [|u d]; [cbn in Hlen; lia|].
    destruct (IH (S e) d) as (cs & Hcs & Hl & Hv); [cbn in Hlen; lia|].
    exists (Swarm.Firefly_init e u :: cs). cbn. rewrite Hcs. cbn.
    split; [reflexivity|]. split; [rewrite Hl; reflexivity|].
    intros [|i] u' Hi Hu; cbn in Hu.
    + injection Hu as <-. cbn. rewrite Nat.add_0_r. reflexivity.
    + cbn. rewrite (Hv i u'); [|lia|exact Hu].
      replace (S e + i)%nat with (e + S i)%nat by lia. reflexivity.
Qed.

(** X24: the swarm is built with one firefly per LED.  Given at least
    [numLEDs] draws from [0, 1), [FireflySwarm.__init__] uses exactly
    [numLEDs] of them and returns [numLEDs] fireflies; the firefly at index
    [i] sits on edge [i], has never blinked ([blinktime] 0), and starts
    somewhere within its first cycle ([0 <= offset < CYCLE_TIME]). *)
Theorem swarm_has_one_firefly_per_led (numLEDs : nat) (draws : list Q) :
  (numLEDs <= length draws)%nat ->
  Forall unit_draw draws ->
  exists cs,
    Swarm.init numLEDs draws = Done (cs, skipn numLEDs draws)
    /\ length cs = numLEDs
    /\ forall i, (i < numLEDs)%nat ->
         exists c, nth_error cs i = Some c
                   /\ edge c = i /\ blinktime c = 0
                   /\ 0 <= offset c < CYCLE_TIME.
Proof.
  intros Hlen Hd.
  destruct (init_from_spec numLEDs 0 draws Hlen) as (cs & Hcs & Hl & Hv).
  exists cs. split; [exact Hcs|]. split; [exact Hl|].
  intros i Hi.
  destruct (nth_error draws i) as [u|] eqn:Hu;
    [|apply nth_error_None in Hu; lia].
  eexists. split; [exact (Hv i u Hi Hu)|]. cbn.
  split; [reflexivity|]. split; [reflexivity|].
  rewrite Forall_forall in Hd.
  destruct (Hd u (nth_error_In _ _ Hu)) as [Hu0 Hu1].
  apply Qle_Rle in Hu0. apply Qlt_Rlt in Hu1.
  assert (E0 : Q2R 0 = 0) by (unfold Q2R; cbn; Lra.lra).
  assert (E1 : Q2R 1 = 1) by (unfold Q2R; cbn; Lra.lra).
  rewrite E0 in Hu0. rewrite E1 in Hu1.
  pose proof FireflyFacts.CYCLE_TIME_pos as HC.
  split; Lra.nra.
Qed.

Lemma swarm_has_one_firefly_per_led_witness :
  exists cs,
    Swarm.init 2 [0%Q; (1 # 2)%Q; (3 # 4)%Q]
    = Done (cs, skipn 2 [0%Q; (1 # 2)%Q; (3 # 4)%Q])
    /\ length cs = 2%nat
    /\ forall i, (i < 2)%nat ->
         exists c, nth_error cs i = Some c
                   /\ edge c = i /\ blinktime c = 0
                   /\ 0 <= offset c < CYCLE_TIME.
Proof.
  apply (swarm_has_one_firefly_per_led 2 [0%Q; (1 # 2)%Q; (3 # 4)%Q]).
  - cbn. lia.
  - repeat constructor; unfold unit_draw; Lqa.lra.
Defined.

End FireflyInvariants.

(** ** The plain layers *)

Module PlainFacts.
Import Plain.
Local Open Scope Q_scope.

(** X19: two ticks of the blinker light the frame once.  Whatever the
    flag, two [render] calls in a row bring the flag back and add white to
    every LED exactly once, just as one [WhiteOut] does; and one call
    never changes the number of LEDs. *)
Theorem blinky_two_ticks_add_white_once (on : bool) (frame : Frame) :
  let '(on1, f1) := Blinky_render on frame in
  let '(on2, f2) := Blinky_render on1 f1 in
  on2 = on /\ f2 = WhiteOut_render frame
  /\ length f1 = length frame
  /\ (f1 = frame \/ f1 = WhiteOut_render frame).
Proof.
  unfold Blinky_render, WhiteOut_render. destruct on; cbn.
  - repeat split. left. reflexivity.
  - repeat split; [apply length_map|right; reflexivity].
Qed.

(** What the snow adds to LED [i]: the draw number [i], on each channel. *)
Lemma Snowstorm_spec (frame : Frame) :
  forall draws,
    (length frame <= length draws)%nat ->
    exists f,
      Snowstorm_render frame draws = Done (f, skipn (length frame) draws)
      /\ length f = length frame
      /\ forall i rgb u, nth_error frame i = Some rgb ->
                         nth_error draws i = Some u ->
                         nth_error f i = Some (mixAdd rgb u u u).
Proof.
  induction frame as [|rgb frame IH]; intros draws Hlen.
  - exists []. repeat split. intros [|i]; discriminate.
  - destruct draws as [|u d]; [cbn in Hlen; lia|].
    destruct (IH d) as (f & Hf & Hl & Hv); [cbn in Hlen; lia|].
    exists (mixAdd rgb u u u :: f). cbn. rewrite Hf. cbn.
    split; [reflexivity|]. split; [rewrite Hl; reflexivity|].
    intros [|i] rgb' u' H1 H2; cbn in *.
    + injection H1 as <-. injection H2 as <-. reflexivity.
    + exact (Hv i rgb' u' H1 H2).
Qed.

(** X20: the snowstorm is grey noise.  With at least one draw per LED,
    [render] returns a frame of the same length, uses exactly one draw per
    LED, in order, and adds LED [i]'s draw to each of its three channels,
    so the differences between the channels of an LED are kept. *)
Theorem snowstorm_is_grey_noise (frame : Frame) (draws : list Q) :
  (length frame <= length draws)%nat ->
  exists f,
    Snowstorm_render frame draws = Done (f, skipn (length frame) draws)
    /\ length f = length frame
    /\ forall i r g b r' g' b',
         nth_error frame i = Some (r, g, b) ->
         nth_error f i = Some (r', g', b') ->
         exists u, nth_error draws i = Some u
                   /\ r' = r + u /\ g' = g + u /\ b' = b + u
                   /\ r' - g' == r - g /\ g' - b' == g - b.
Proof.
  intro Hlen. destruct (Snowstorm_spec frame draws Hlen) as (f & Hf & Hl & Hv).
  exists f. split; [exact Hf|]. split; [exact Hl|].
  intros i r g b r' g' b' H1 H2.
  destruct (nth_error draws i) as [u|] eqn:Hu.
  - exists u. split; [reflexivity|].
    rewrite (Hv i (r, g, b) u H1 Hu) in H2. cbn in H2.
    injection H2 as <- <- <-. repeat split; ring.
  - apply nth_error_None in Hu.
    assert (i < length frame)%nat by (apply nth_error_Some; congruence).
    lia.
Qed.

Lemma snowstorm_is_grey_noise_witness :
  exists f,
    Snowstorm_render [(0, 1 # 2, 1); (0, 0, 0)] [1 # 4; 1 # 2; 3 # 4]
    = Done (f, skipn 2 [1 # 4; 1 # 2; 3 # 4])
    /\ length f = 2%nat
    /\ forall i r g b r' g' b',
         nth_error [(0, 1 # 2, 1); (0, 0, 0)] i = Some (r, g, b) ->
         nth_error f i = Some (r', g', b') ->
         exists u, nth_error [1 # 4; 1 # 2; 3 # 4] i = Some u
                   /\ r' = r + u /\ g' = g + u /\ b' = b + u
                   /\ r' - g' == r - g /\ g' - b' == g - b.
Proof.
  apply (snowstorm_is_grey_noise [(0, 1 # 2, 1); (0, 0, 0)]
           [1 # 4; 1 # 2; 3 # 4]).
  cbn. lia.
Defined.

(** X21: the technicolor snowstorm draws three times per LED.  With at
    least three draws per LED, [render] returns a frame of the same
    length, uses exactly three draws per LED, and LED [i] gets the draws
    number [3i], [3i+1] and [3i+2] added to its red, green and blue
    channel. *)
Theorem technicolor_draws_per_channel (frame : Frame) :
  forall draws,
    (3 * length frame <= length draws)%nat ->
    exists f,
      Technicolor_render frame draws
      = Done (f, skipn (3 * length frame) draws)
      /\ length f = length frame
      /\ forall i rgb r g b,
           nth_error frame i = Some rgb ->
           nth_error draws (3 * i) = Some r ->
           nth_error draws (3 * i + 1) = Some g ->
           nth_error draws (3 * i + 2) = Some b ->
           nth_error f i = Some (mixAdd rgb r g b).
Proof.
  induction frame as [|rgb frame IH]; intros draws Hlen.
  - exists []. repeat split. intros [|i]; discriminate.
  - destruct draws as [|r [|g [|b d]]]; try (cbn in Hlen; lia).
    destruct (IH d) as (f & Hf & Hl & Hv); [cbn in Hlen; lia|].
    exists (mixAdd rgb r g b :: f). cbn [Technicolor_render].
    rewrite Hf. cbn [bind].
    replace (3 * length (rgb :: frame))%nat
      with (S (S (S (3 * length frame)))) by (cbn; lia).
    split; [reflexivity|]. split; [cbn; rewrite Hl; reflexivity|].
    intros [|i] rgb' r' g' b' H1 H2 H3 H4.
    + cbn in H1, H2, H3, H4. injection H1 as <-. injection H2 as <-.
      injection H3 as <-. injection H4 as <-. reflexivity.
    + replace (3 * S i)%nat with (S (S (S (3 * i)))) in H2, H3, H4 by lia.
      cbn in H1, H2, H3, H4. cbn [nth_error].
      exact (Hv i rgb' r' g' b' H1 H2 H3 H4).
Qed.

Lemma technicolor_draws_per_channel_witness :
  exists f,
    Technicolor_render [(0, 0, 0)] [1 # 4; 1 # 2; 3 # 4]
    = Done (f, skipn (3 * 1) [1 # 4; 1 # 2; 3 # 4])
    /\ length f = 1%nat
    /\ forall i rgb r g b,
         nth_error [(0, 0, 0)] i = Some rgb ->
         nth_error [1 # 4; 1 # 2; 3 # 4] (3 * i) = Some r ->
         nth_error [1 # 4; 1 # 2; 3 # 4] (3 * i + 1) = Some g ->
         nth_error [1 # 4; 1 # 2; 3 # 4] (3 * i + 2) = Some b ->
         nth_error f i = Some (mixAdd rgb r g b).
Proof.
  apply (technicolor_draws_per_channel [(0, 0, 0)] [1 # 4; 1 # 2; 3 # 4]).
  cbn. lia.
Defined.

(** X22: the colour cube erases what was drawn before.  [RGBLayer.render]
    returns exactly when the model has a centre for every LED of the
    frame; its result is then the first centres, one per LED, whatever the
    frame held, and it raises when the frame has more LEDs than the model
    has centres. *)
Theorem rgb_layer_overwrites
    (edgeCenters : list (Q * Q * Q)) (frame : Frame) :
  ((length frame <= length edgeCenters)%nat ->
   RGB_render edgeCenters frame
   = Done (firstn (length frame) edgeCenters))
  /\ ((length edgeCenters < length frame)%nat ->
      RGB_render edgeCenters frame = Raised)
  /\ (forall frame', length frame' = length frame ->
        RGB_render edgeCenters frame' = RGB_render edgeCenters frame).
Proof.
  split; [|split].
  - revert edgeCenters. induction frame as [|rgb frame IH];
      intros centers Hlen; [reflexivity|].
    destruct centers as [|[[x y] z] centers]; [cbn in Hlen; lia|].
    cbn. rewrite IH by (cbn in Hlen; lia). reflexivity.
  - revert edgeCenters. induction frame as [|rgb frame IH];
      intros centers Hlen; [cbn in Hlen; lia|].
    destruct centers as [|[[x y] z] centers]; [reflexivity|].
    cbn. rewrite IH by (cbn in Hlen; lia). reflexivity.
  - revert edgeCenters. induction frame as [|rgb frame IH];
      intros centers [|rgb' frame'] Hlen; try discriminate; [reflexivity|].
    destruct centers as [|[[x y] z] centers]; [reflexivity|].
    cbn. rewrite (IH centers frame') by (cbn in Hlen; lia). reflexivity.
Qed.

Lemma rgb_layer_overwrites_witness :
  RGB_render [(0, 0, 0); (1 # 2, 1 # 2, 1); (1, 1, 1)] [(1, 1, 1); (1, 1, 1)]
  = Done (firstn 2 [(0, 0, 0); (1 # 2, 1 # 2, 1); (1, 1, 1)]).
Proof.
  apply (proj1 (rgb_layer_overwrites
                  [(0, 0, 0); (1 # 2, 1 # 2, 1); (1, 1, 1)]
                  [(1, 1, 1); (1, 1, 1)])).
  cbn. lia.
Defined.

(** X23: the green/red layer adds one unit of light to every LED.  When
    [render] returns, the frame has its old length and every LED has got
    the same colour added, whose three channels sum to 1: pure blue when
    the headset layer passes no level, and [(1 - level, level, 0)]
    otherwise, which has no negative channel when the level is in
    [0, 1]. *)
Theorem responsive_adds_one_unit
    (L L' : Headset.Layer) (now : Q) (eeg : option Headset.EEGInfo)
    (frame f : Frame) :
  Responsive_render L now eeg frame = Done (L', f) ->
  exists level dr dg db,
    Headset.render L now eeg = Done (L', level)
    /\ length f = length frame
    /\ dr + dg + db == 1
    /\ (level = None -> dr = 0 /\ dg = 0 /\ db = 1)
    /\ (forall v, level = Some v -> dr = 1 - v /\ dg = v /\ db = 0)
    /\ (forall v, level = Some v -> 0 <= v <= 1 ->
                  0 <= dr /\ 0 <= dg /\ 0 <= db)
    /\ forall i r g b, nth_error frame i = Some (r, g, b) ->
                       nth_error f i = Some (r + dr, g + dg, b + db).
Proof.
  intro H. unfold Responsive_render in H.
  destruct (Headset.render L now eeg) as [[L1 level]| |]; try discriminate.
  cbn in H. injection H as <- <-.
  assert (Hmap : forall dr dg db,
            (forall rgb, match level with
                         | None => mixAdd rgb 0 0 1
                         | Some lv => mixAdd rgb (1 - lv) lv 0
                         end = mixAdd rgb dr dg db) ->
            forall i r g b, nth_error frame i = Some (r, g, b) ->
              nth_error (render_responsive frame level) i
              = Some (r + dr, g + dg, b + db)).
  { intros dr dg db E i r g b Hi. unfold render_responsive.
    rewrite (map_nth_error _ _ _ Hi). rewrite E. reflexivity. }
  destruct level as [v|].
  - exists (Some v), (1 - v), v, 0. split; [reflexivity|].
    split; [apply length_map|]. split; [ring|].
    split; [discriminate|]. split.
    { intros v' E. injection E as <-. repeat split. }
    split.
    { intros v' E Hv. injection E as <-. repeat split; Lqa.lra. }
    apply Hmap. reflexivity.
  - exists None, 0, 0, 1. split; [reflexivity|].
    split; [apply length_map|]. split; [ring|].
    split; [repeat split|]. split; [discriminate|]. split; [discriminate|].
    apply Hmap. reflexivity.
Qed.

(** [responsive_adds_one_unit] on the layer caught in a fade, half a
    second into it. *)
Lemma responsive_adds_one_unit_witness :
  exists level dr dg db,
    Headset.render fading_layer (21 # 2) None = Done (fading_layer, level)
    /\ length (render_responsive [(0, 0, 0)]
                                 (Some (blend 10 (1 # 2) 1 (21 # 2))))
       = length [(0, 0, 0)]
    /\ dr + dg + db == 1
    /\ (level = None -> dr = 0 /\ dg = 0 /\ db = 1)
    /\ (forall v, level = Some v -> dr = 1 - v /\ dg = v /\ db = 0)
    /\ (forall v, level = Some v -> 0 <= v <= 1 ->
                  0 <= dr /\ 0 <= dg /\ 0 <= db)
    /\ forall i r g b,
         nth_error [(0, 0, 0)] i = Some (r, g, b) ->
         nth_error (render_responsive [(0, 0, 0)]
                      (Some (blend 10 (1 # 2) 1 (21 # 2)))) i
         = Some (r + dr, g + dg, b + db).
Proof.
  apply (responsive_adds_one_unit fading_layer fading_layer (21 # 2) None
           [(0, 0, 0)]).
  reflexivity.
Defined.

End PlainFacts.

(** ** Waves and rain *)

Module WavesFacts.
Import Waves.
Local Open Scope R_scope.

Lemma width_pos : 0 < width.
Proof. unfold width. Lra.lra. Qed.

Lemma pulse_bounds (center d : R) :
  0 <= pulse center d <= 1
  /\ (width <= Rabs (d - center) -> pulse center d = 0)
  /\ (d = center -> pulse center d = 1).
Proof.
  pose proof PI_RGT_0 as Hpi. pose proof width_pos as Hw.
  assert (Hs : 0 < PI / 2 / width).
  { apply Rmult_lt_0_compat; [Lra.lra|].
    apply Rinv_0_lt_compat. exact Hw. }
  pose proof (Rabs_pos (d - center)) as Ha.
  unfold pulse. set (x := Rabs (d - center) * (PI / 2 / width)).
  assert (Hx : 0 <= x) by (subst x; apply Rmult_le_pos; Lra.lra).
  split; [|split].
  - split; [|apply COS_bound].
    apply cos_ge_0; unfold Rmin; destruct (Rle_dec x (PI / 2)); Lra.lra.
  - intro Hfar.
    assert (Hge : PI / 2 <= x).
    { subst x. replace (PI / 2) with (width * (PI / 2 / width)) at 1
        by (field; Lra.lra).
      apply Rmult_le_compat_r; Lra.lra. }
    rewrite Rmin_right by exact Hge. apply cos_PI2.
  - intros ->. subst x.
    replace (center - center) with 0 by ring.
    rewrite Rabs_R0, Rmult_0_l, Rmin_left by Lra.lra. apply cos_0.
Qed.

Lemma nth_error_combine {A B : Type} (l1 : list A) (l2 : list B) :
  forall i a b,
    nth_error l1 i = Some a -> nth_error l2 i = Some b ->
    nth_error (combine l1 l2) i = Some (a, b).
Proof.
  revert l2. induction l1 as [|x l1 IH]; intros [|y l2] [|i] a b H1 H2;
    try discriminate.
  - injection H1 as ->. injection H2 as ->. reflexivity.
  - cbn in *. apply IH; assumption.
Qed.

(** X25: a wave is a bounded pulse around the wavefront.  With the
    wavefront at [center = fmod(time * speed, period)]: from 2 on, the
    frame is left as it is; below 2, with one distance per LED, the frame
    keeps its length and LED [i] gets [k] times the wave colour
    (0.5, 0.5, 1) added, where [k] is between 0 and 1, is 1 on the
    wavefront and is 0 for every LED at least [width] away from it; and a
    table of distances of another length, unless it has one entry, makes
    the call raise. *)
Theorem wave_is_bounded_pulse
    (edgeDistances : list R) (time : R) (frame : list (R * R * R)) :
  let center := cfmod (time * speed) period in
  (2 <= center -> render edgeDistances time frame = Done frame)
  /\ (center < 2 -> length edgeDistances = length frame ->
      exists f,
        render edgeDistances time frame = Done f
        /\ length f = length frame
        /\ forall i d r g b,
             nth_error edgeDistances i = Some d ->
             nth_error frame i = Some (r, g, b) ->
             exists k,
               0 <= k <= 1
               /\ (width <= Rabs (d - center) -> k = 0)
               /\ (d = center -> k = 1)
               /\ nth_error f i
                  = Some (r + k * (5 / 10), g + k * (5 / 10), b + k * 1))
  /\ (center < 2 -> length edgeDistances <> length frame ->
      length edgeDistances <> 1%nat ->
      render edgeDistances time frame = Raised).
Proof.
  intro center. unfold render. fold center. split; [|split].
  - intro H. destruct (Rlt_dec center 2); [Lra.lra|reflexivity].
  - intros H Hlen. destruct (Rlt_dec center 2) as [_|]; [|Lra.lra].
    unfold add_rows. rewrite length_map, Hlen, Nat.eqb_refl.
    eexists. split; [reflexivity|]. split.
    + rewrite length_map, length_combine, length_map, Hlen.
      apply Nat.min_id.
    + intros i d r g b Hd Hf. exists (pulse center d).
      destruct (pulse_bounds center d) as (Hb & H0 & H1).
      split; [exact Hb|]. split; [exact H0|]. split; [exact H1|].
      assert (Hp : nth_error (map (pulse center) edgeDistances) i
                   = Some (pulse center d))
        by (apply map_nth_error; exact Hd).
      rewrite (map_nth_error _ _ _ (nth_error_combine _ _ _ _ _ Hf Hp)).
      reflexivity.
  - intros H Hne H1. destruct (Rlt_dec center 2) as [_|]; [|Lra.lra].
    unfold add_rows. rewrite length_map.
    destruct (Nat.eqb_spec (length edgeDistances) (length frame));
      [contradiction|].
    destruct edgeDistances as [|d [|d' ds]]; try reflexivity.
    contradiction.
Qed.

(** [wave_is_bounded_pulse] at time 0 (wavefront at the root) for two
    LEDs, at the root and one unit out. *)
Lemma wave_is_bounded_pulse_witness :
  exists f,
    render [0; 1] 0 [(0, 0, 0); (0, 0, 0)] = Done f
    /\ length f = 2%nat.
Proof.
  destruct (proj1 (proj2 (wave_is_bounded_pulse [0; 1] 0
                            [(0, 0, 0); (0, 0, 0)])))
    as (f & Hf & Hl & _).
  - unfold cfmod, trunc. rewrite Rmult_0_l.
    replace (0 / period) with 0 by (unfold period; field).
    destruct (Rle_dec 0 0); [|Lra.lra].
    replace (Int_part 0) with 0%Z; [Lra.lra|].
    apply Int_part_spec. Lra.lra.
  - reflexivity.
  - exists f. split; [exact Hf|exact Hl].
Defined.

(** X26: the rain's colour table holds colours only.  Every channel of
    [calculateColor v] lies in [0, 1]; before [pi/4] it is the bright
    colour, from [pi] on it is black, and in between it is the rain colour
    dimmed by [sin(v)^2], so no brighter than the rain colour. *)
Theorem rain_color_is_bounded (v : R) :
  (let '(r, g, b) := calculateColor v in
   0 <= r <= 1 /\ 0 <= g <= 1 /\ 0 <= b <= 1)
  /\ (v < PI / 4 -> calculateColor v = rain_bright)
  /\ (PI <= v -> calculateColor v = (0, 0, 0))
  /\ (PI / 4 <= v < PI ->
      let '(r, g, b) := calculateColor v in
      0 <= r <= 90 / 255 /\ 0 <= g <= 210 / 255 /\ 0 <= b <= 90 / 255).
Proof.
  pose proof PI_RGT_0 as Hpi.
  pose proof (SIN_bound v) as [Hs0 Hs1].
  assert (Hsq : 0 <= (sin v) ^ 2 <= 1).
  { set (s := sin v) in *. cbn [pow]. split; Lra.nra. }
  unfold calculateColor, rain_bright, rain_color.
  destruct (Rlt_dec v (PI / 4)) as [H4|H4];
    [|destruct (Rlt_dec v PI) as [H1|H1]].
  - split; [repeat split; Lra.lra|]. split; [reflexivity|].
    split; [intro; Lra.lra|]. intros [H _]. Lra.lra.
  - set (q := (sin v) ^ 2) in *.
    split; [repeat split; Lra.nra|]. split; [intro; Lra.lra|].
    split; [intro; Lra.lra|]. intros _. repeat split; Lra.nra.
  - split; [repeat split; Lra.lra|]. split; [intro; Lra.lra|].
    split; [reflexivity|]. intros [_ H]. Lra.lra.
Qed.

End WavesFacts.

(** ** Impulses along the tree *)

Module ImpulsesFacts.
Import Impulses.
Local Open Scope nat_scope.

Lemma set_nth_length {A : Type} (v : A) (xs : list A) :
  forall i, length (Swarm.set_nth i v xs) = length xs.
Proof.
  induction xs as [|x xs IH]; intros [|i]; cbn; try reflexivity.
  rewrite IH. reflexivity.
Qed.

Lemma set_nth_same {A : Type} (v : A) (xs : list A) :
  forall i, i < length xs -> nth_error (Swarm.set_nth i v xs) i = Some v.
Proof.
  induction xs as [|x xs IH]; intros [|i] H; cbn in *; try lia.
  - reflexivity.
  - apply IH. lia.
Qed.

Lemma set_nth_other {A : Type} (v : A) (xs : list A) :
  forall i j, j <> i -> nth_error (Swarm.set_nth i v xs) j = nth_error xs j.
Proof.
  induction xs as [|x xs IH]; intros [|i] [|j] H; cbn; try reflexivity.
  - contradiction.
  - apply IH. lia.
Qed.

Lemma assign_spec {A : Type} (i : nat) (v : A) (xs ys : list A) :
  assign i v xs = Done ys ->
  length ys = length xs
  /\ nth_error ys i = Some v
  /\ forall j, j <> i -> nth_error ys j = nth_error xs j.
Proof.
  unfold assign.
  destruct (Nat.ltb_spec i (length xs)) as [Hi|Hi]; [|discriminate].
  intro H. injection H as <-. split; [apply set_nth_length|].
  split; [apply set_nth_same; exact Hi|].
  intros j Hj. apply set_nth_other. exact Hj.
Qed.

Lemma assign_total {A : Type} (i : nat) (v : A) (xs : list A) :
  i < length xs -> exists ys, assign i v xs = Done ys.
Proof.
  intro Hi. unfold assign.
  destruct (Nat.ltb_spec i (length xs)) as [_|]; [|lia].
  eexists. reflexivity.
Qed.

Lemma item_total {A : Type} (xs : list A) (i : nat) :
  i < length xs -> exists x, item xs i = Done x.
Proof.
  intro Hi. unfold item.
  destruct (nth_error xs i) as [x|] eqn:Hx; [exists x; reflexivity|].
  apply nth_error_None in Hx. lia.
Qed.

Lemma brightness_bounds (phase : R) (frequency time : Q) :
  (0 <= brightness phase frequency time <= 1)%R.
Proof.
  unfold brightness. split; [apply Rmax_l|].
  apply Rmax_lub; [Lra.lra|]. apply SIN_bound.
Qed.

(** A dead slot: at most four draws, and the slot stays dead or lands on a
    root. *)
Lemma revive_spec (m : Model) (L : Layer) (i : nat) (draws : list Q)
    (L1 : Layer) (d1 : list Q) :
  revive L m i draws = Done (L1, d1) ->
  (length (positions L1) = length (positions L)
   /\ length (phases L1) = length (phases L)
   /\ length (frequencies L1) = length (frequencies L))
  /\ (forall j, j <> i ->
        nth_error (positions L1) j = nth_error (positions L) j)
  /\ (nth_error (positions L) i = Some None ->
      exists p', nth_error (positions L1) i = Some p'
                 /\ slot_step m i None p')
  /\ exists used, draws = used ++ d1 /\ length used <= 4.
Proof.
  unfold revive. destruct draws as [|u d]; [discriminate|].
  destruct (Qltb u (5 # 100)).
  - destruct d as [|c d]; [discriminate|].
    destruct (choice c (roots m)) as [root| |] eqn:Hc; cbn [bind];
      try discriminate.
    destruct (assign i (Some root) (positions L)) as [ps| |] eqn:Hps;
      cbn [bind]; try discriminate.
    destruct d as [|up d]; [discriminate|].
    destruct (assign i (random_phase up) (phases L)) as [phs| |] eqn:Hph;
      cbn [bind]; try discriminate.
    destruct d as [|uf d]; [discriminate|].
    destruct (assign i (Lightning.uniform 2 10 uf) (frequencies L))
      as [frs| |] eqn:Hfr; cbn [bind]; try discriminate.
    intro H. injection H as <- <-. cbn [positions phases frequencies].
    destruct (assign_spec _ _ _ _ Hps) as (Hl1 & Hs1 & Ho1).
    destruct (assign_spec _ _ _ _ Hph) as (Hl2 & _ & _).
    destruct (assign_spec _ _ _ _ Hfr) as (Hl3 & _ & _).
    split; [split; [exact Hl1|split; [exact Hl2|exact Hl3]]|].
    split; [exact Ho1|]. split.
    + intros _. exists (Some root). split; [exact Hs1|].
      right. left. split; [reflexivity|].
      exists root. split; [exact (choice_In _ _ _ Hc)|reflexivity].
    + exists [u; c; up; uf]. split; [reflexivity|cbn; lia].
  - intro H. injection H as <- <-.
    split; [split; [reflexivity|split; reflexivity]|].
    split; [reflexivity|]. split.
    + intro Hi. exists None. split; [exact Hi|left; reflexivity].
    + exists [u]. split; [reflexivity|cbn; lia].
Qed.

(** A live slot: the impulse is drawn where it sits, before it moves; at
    most two draws. *)
Lemma draw_and_move_spec (m : Model) (size : nat) (time : Q) (L : Layer)
    (i pos : nat) (frame : Lightning.Frame) (draws : list Q)
    (L1 : Layer) (f1 : Lightning.Frame) (d1 : list Q) :
  draw_and_move L m size time i pos frame draws = Done (L1, f1, d1) ->
  (length (positions L1) = length (positions L)
   /\ length (phases L1) = length (phases L)
   /\ length (frequencies L1) = length (frequencies L)
   /\ length f1 = length frame)
  /\ (forall j, j <> i ->
        nth_error (positions L1) j = nth_error (positions L) j)
  /\ (nth_error (positions L) i = Some (Some pos) ->
      exists p', nth_error (positions L1) i = Some p'
                 /\ slot_step m i (Some pos) p')
  /\ (pos < length frame
      /\ i < length (phases L) /\ i < length (frequencies L))
  /\ (exists br, (0 <= br <= 1)%R
        /\ (forall led, led <> pos ->
              nth_error f1 led = nth_error frame led)
        /\ (forall r g b, nth_error frame pos = Some (r, g, b) ->
              nth_error f1 pos = Some (r + br, g + br, b + br)%R))
  /\ exists used, draws = used ++ d1 /\ length used <= 2.
Proof.
  unfold draw_and_move, item.
  destruct (nth_error (phases L) i) as [ph|] eqn:Hph; cbn [bind];
    [|discriminate].
  destruct (nth_error (frequencies L) i) as [fr|] eqn:Hfr; cbn [bind];
    [|discriminate].
  assert (Hip : i < length (phases L))
    by (apply nth_error_Some; rewrite Hph; discriminate).
  assert (Hif : i < length (frequencies L))
    by (apply nth_error_Some; rewrite Hfr; discriminate).
  remember (brightness ph fr time) as br eqn:Hbr.
  assert (Hb : (0 <= br <= 1)%R) by (subst br; apply brightness_bounds).
  destruct (le_lt_dec (length frame) pos) as [Hout|Hin].
  { rewrite (FireflyInvariants.mixAdd_at_beyond _ _ _ Hout). discriminate. }
  destruct (FireflyInvariants.mixAdd_at_value (br, br, br) frame pos Hin)
    as (f' & Hm & Hlf & Hother & Hat).
  rewrite Hm. cbn [bind]. cbn [fst snd] in Hat.
  assert (Hframe : forall f1, f1 = f' ->
            exists br0, (0 <= br0 <= 1)%R
              /\ (forall led, led <> pos ->
                    nth_error f1 led = nth_error frame led)
              /\ (forall r g b, nth_error frame pos = Some (r, g, b) ->
                    nth_error f1 pos
                    = Some (r + br0, g + br0, b + br0)%R)).
  { intros ? ->. exists br. split; [exact Hb|]. split; assumption. }
  destruct draws as [|u d]; [discriminate|].
  destruct (Qltb u (2 # 10)).
  - unfold adjacency_at. destruct (i <? size)%nat; [|discriminate].
    cbn [bind].
    destruct (outwardAdjacency m i) as [|n0 ns] eqn:Hadj.
    + destruct (assign i None (positions L)) as [ps| |] eqn:Hps;
        cbn [bind]; try discriminate.
      intro H. injection H as <- <- <-. cbn [positions phases frequencies].
      destruct (assign_spec _ _ _ _ Hps) as (Hl1 & Hs1 & Ho1).
      split; [split; [exact Hl1|split; [reflexivity|split;
                [reflexivity|exact Hlf]]]|].
      split; [exact Ho1|]. split.
      * intros _. exists None. split; [exact Hs1|].
        right. right. split; [discriminate|].
        left. split; [exact Hadj|reflexivity].
      * split; [split; [exact Hin|split; assumption]|].
        split; [apply Hframe; reflexivity|].
        exists [u]. split; [reflexivity|cbn; lia].
    + destruct d as [|c d]; [discriminate|].
      destruct (choice c (n0 :: ns)) as [next| |] eqn:Hc; cbn [bind];
        try discriminate.
      destruct (assign i (Some next) (positions L)) as [ps| |] eqn:Hps;
        cbn [bind]; try discriminate.
      intro H. injection H as <- <- <-. cbn [positions phases frequencies].
      destruct (assign_spec _ _ _ _ Hps) as (Hl1 & Hs1 & Ho1).
      split; [split; [exact Hl1|split; [reflexivity|split;
                [reflexivity|exact Hlf]]]|].
      split; [exact Ho1|]. split.
      * intros _. exists (Some next). split; [exact Hs1|].
        right. right. split; [discriminate|].
        right. exists next. rewrite Hadj.
        split; [exact (choice_In _ _ _ Hc)|reflexivity].
      * split; [split; [exact Hin|split; assumption]|].
        split; [apply Hframe; reflexivity|].
        exists [u; c]. split; [reflexivity|cbn; lia].
  - intro H. injection H as <- <- <-.
    split; [split; [reflexivity|split; [reflexivity|split;
              [reflexivity|exact Hlf]]]|].
    split; [reflexivity|]. split.
    + intro Hi. exists (Some pos). split; [exact Hi|left; reflexivity].
    + split; [split; [exact Hin|split; assumption]|].
      split; [apply Hframe; reflexivity|].
      exists [u]. split; [reflexivity|cbn; lia].
Qed.

(** One pass of the loop body, whichever branch it takes. *)
Lemma slot_spec (m : Model) (size : nat) (time : Q) (n i : nat) (L : Layer)
    (frame : Lightning.Frame) (draws : list Q)
    (R0 : Layer * Lightning.Frame * list Q) :
  render_from (S n) i L m size time frame draws = Done R0 ->
  exists L1 f1 d1,
    render_from n (S i) L1 m size time f1 d1 = Done R0
    /\ (length (positions L1) = length (positions L)
        /\ length (phases L1) = length (phases L)
        /\ length (frequencies L1) = length (frequencies L)
        /\ length f1 = length frame)
    /\ (forall j, j <> i ->
          nth_error (positions L1) j = nth_error (positions L) j)
    /\ (exists p p', nth_error (positions L) i = Some p
                     /\ nth_error (positions L1) i = Some p'
                     /\ slot_step m i p p')
    /\ (forall pos, nth_error (positions L) i = Some (Some pos) ->
          pos < length frame
          /\ i < length (phases L) /\ i < length (frequencies L))
    /\ (forall led r g b, nth_error frame led = Some (r, g, b) ->
          exists k, (0 <= k <= 1)%R
            /\ nth_error f1 led = Some (r + k, g + k, b + k)%R
            /\ (nth_error (positions L) i <> Some (Some led) -> k = 0%R))
    /\ exists used, draws = used ++ d1 /\ length used <= 4.
Proof.
  cbn [render_from].
  destruct (nth_error (positions L) i) as [[pos|]|] eqn:Hi; [| |discriminate].
  - destruct (draw_and_move L m size time i pos frame draws)
      as [[[L1 f1] d1]| |] eqn:Hdm; cbn [bind]; try discriminate.
    intro H. exists L1, f1, d1. split; [exact H|].
    destruct (draw_and_move_spec _ _ _ _ _ _ _ _ _ _ _ Hdm)
      as (Hlen & Ho & Hs & Hon & (br & Hbr & Hfo & Hfa) & (u1 & Hu1 & Hul)).
    split; [exact Hlen|]. split; [exact Ho|].
    destruct (Hs Hi) as (p' & Hp' & Hst).
    split; [exists (Some pos), p'; split; [reflexivity|split; assumption]|].
    split; [intros pos' Hpos'; injection Hpos' as <-; exact Hon|].
    split.
    + intros led r g b Hl. destruct (Nat.eq_dec led pos) as [->|Hne].
      * exists br. split; [exact Hbr|]. split; [exact (Hfa _ _ _ Hl)|].
        intro Hc. contradiction Hc. reflexivity.
      * exists 0%R. split; [Lra.lra|]. split; [|intros _; reflexivity].
        rewrite (Hfo _ Hne), Hl, !Rplus_0_r. reflexivity.
    + exists u1. split; [exact Hu1|lia].
  - destruct (revive L m i draws) as [[L1 d1]| |] eqn:Hrv; cbn [bind];
      try discriminate.
    intro H. exists L1, frame, d1. split; [exact H|].
    destruct (revive_spec _ _ _ _ _ _ Hrv)
      as ((Hl1 & Hl2 & Hl3) & Ho & Hs & Hu).
    split; [split; [exact Hl1|split; [exact Hl2|split;
              [exact Hl3|reflexivity]]]|].
    split; [exact Ho|].
    destruct (Hs Hi) as (p' & Hp' & Hst).
    split; [exists None, p'; split; [reflexivity|split; assumption]|].
    split; [intros pos' Hpos'; discriminate|].
    split; [|exact Hu].
    intros led r g b Hl. exists 0%R. split; [Lra.lra|].
    split; [|intros _; reflexivity].
    rewrite Hl, !Rplus_0_r. reflexivity.
Qed.

(** The loop from slot [i] on, over [n] slots. *)
Lemma render_from_spec (m : Model) (size : nat) (time : Q) :
  forall n i L frame draws L' frame' d',
    render_from n i L m size time frame draws = Done (L', frame', d') ->
    (length (positions L') = length (positions L)
     /\ length (phases L') = length (phases L)
     /\ length (frequencies L') = length (frequencies L)
     /\ length frame' = length frame)
    /\ (forall j, j < i ->
          nth_error (positions L') j = nth_error (positions L) j)
    /\ (forall j p, nth_error (positions L) j = Some p ->
          exists p', nth_error (positions L') j = Some p'
                     /\ slot_step m j p p')
    /\ (forall j pos, i <= j < i + n ->
          nth_error (positions L) j = Some (Some pos) ->
          pos < length frame
          /\ j < length (phases L) /\ j < length (frequencies L))
    /\ (forall led r g b, nth_error frame led = Some (r, g, b) ->
          exists k, (0 <= k <= INR n)%R
            /\ nth_error frame' led = Some (r + k, g + k, b + k)%R
            /\ ((forall j, i <= j ->
                   nth_error (positions L) j <> Some (Some led)) ->
                k = 0%R))
    /\ exists used, draws = used ++ d' /\ length used <= 4 * n.
Proof.
  induction n as [|n IH]; intros i L frame draws L' frame' d' H.
  - cbn in H. injection H as <- <- <-.
    split; [split; [reflexivity|split; [reflexivity|split; reflexivity]]|].
    split; [reflexivity|].
    split; [intros j p Hp; exists p; split; [exact Hp|left; reflexivity]|].
    split; [intros j pos Hj; lia|].
    split.
    + intros led r g b Hl. exists 0%R. split; [cbn; Lra.lra|].
      split; [|intros _; reflexivity].
      rewrite Hl, !Rplus_0_r. reflexivity.
    + exists []. split; [reflexivity|cbn; lia].
  - destruct (slot_spec _ _ _ _ _ _ _ _ _ H)
      as (L1 & f1 & d1 & H1 & (Ha1 & Ha2 & Ha3 & Ha4) & Ho & Hs & Hon & Hfr
          & (u1 & Hu1 & Hul1)).
    destruct (IH _ _ _ _ _ _ _ H1)
      as ((Hb1 & Hb2 & Hb3 & Hb4) & Hbefore & Hslots & Hon' & Hfr'
          & (u2 & Hu2 & Hul2)).
    split; [split; [congruence|split; [congruence|split; congruence]]|].
    split; [intros j Hj; rewrite Hbefore by lia; apply Ho; lia|].
    split; [|split; [|split]].
    + intros j p Hp. destruct (Nat.eq_dec j i) as [->|Hne].
      * destruct Hs as (p0 & p' & Hp0 & Hp' & Hst).
        exists p'. rewrite Hbefore by lia. split; [exact Hp'|].
        rewrite Hp0 in Hp. injection Hp as <-. exact Hst.
      * apply Hslots. rewrite (Ho _ Hne). exact Hp.
    + intros j pos Hj Hp. destruct (Nat.eq_dec j i) as [->|Hne].
      * apply Hon. exact Hp.
      * rewrite <- (Ho _ Hne) in Hp.
        destruct (Hon' j pos ltac:(lia) Hp) as (Hx & Hy & Hz).
        rewrite Ha4 in Hx. rewrite Ha2 in Hy. rewrite Ha3 in Hz.
        split; [exact Hx|split; [exact Hy|exact Hz]].
    + intros led r g b Hl.
      destruct (Hfr _ _ _ _ Hl) as (k1 & Hk1 & Hf1 & Hz1).
      destruct (Hfr' _ _ _ _ Hf1) as (k2 & Hk2 & Hf2 & Hz2).
      exists (k1 + k2)%R. rewrite S_INR. split; [Lra.lra|]. split.
      * rewrite Hf2. f_equal. f_equal; [f_equal|]; ring.
      * intro Hno. rewrite Hz1, Hz2; [ring| |apply Hno; lia].
        intros j Hj. rewrite Ho by lia. apply Hno. lia.
    + exists (u1 ++ u2). rewrite <- app_assoc, <- Hu2.
      split; [exact Hu1|]. rewrite length_app. lia.
Qed.

Lemma revive_total (m : Model) (L : Layer) (i : nat) (draws : list Q) :
  roots m <> [] -> aligned L -> i < length (positions L) ->
  Forall unit_draw draws -> 4 <= length draws ->
  exists L1 d1, revive L m i draws = Done (L1, d1).
Proof.
  intros Hr [Hap Haf] Hi Hd Hlen.
  destruct draws as [|u [|c [|up [|uf d]]]]; cbn in Hlen; try lia.
  unfold revive.
  destruct (Qltb u (5 # 100)); [|eexists; eexists; reflexivity].
  inversion Hd as [|? ? _ Hd1]; subst.
  inversion Hd1 as [|? ? [Hc0 Hc1] _]; subst.
  destruct (choice_index c (roots m) Hc0 Hc1 Hr) as (_ & root & _ & Hch).
  rewrite Hch. cbn [bind].
  destruct (assign_total i (Some root) (positions L) Hi) as (ps & Hps).
  rewrite Hps. cbn [bind].
  destruct (assign_total i (random_phase up) (phases L)) as (phs & Hphs);
    [lia|].
  rewrite Hphs. cbn [bind].
  destruct (assign_total i (Lightning.uniform 2 10 uf) (frequencies L))
    as (frs & Hfrs); [lia|].
  rewrite Hfrs. cbn [bind]. eexists. eexists. reflexivity.
Qed.

Lemma draw_and_move_total (m : Model) (size : nat) (time : Q) (L : Layer)
    (i pos : nat) (frame : Lightning.Frame) (draws : list Q) :
  aligned L -> i < length (positions L) -> i < size ->
  pos < length frame ->
  Forall unit_draw draws -> 2 <= length draws ->
  exists L1 f1 d1,
    draw_and_move L m size time i pos frame draws = Done (L1, f1, d1).
Proof.
  intros [Hap Haf] Hi Hsize Hpos Hd Hlen.
  destruct draws as [|u [|c d]]; cbn in Hlen; try lia.
  unfold draw_and_move.
  destruct (item_total (phases L) i) as (ph & Hph); [lia|].
  destruct (item_total (frequencies L) i) as (fr & Hfr); [lia|].
  rewrite Hph, Hfr. cbn [bind].
  destruct (FireflyInvariants.mixAdd_at_value
              (brightness ph fr time, brightness ph fr time,
               brightness ph fr time) frame pos Hpos)
    as (f' & Hm & _).
  rewrite Hm. cbn [bind].
  destruct (Qltb u (2 # 10)); [|do 3 eexists; reflexivity].
  unfold adjacency_at. apply Nat.ltb_lt in Hsize. rewrite Hsize. cbn [bind].
  destruct (outwardAdjacency m i) as [|n0 ns] eqn:Hadj.
  - destruct (assign_total i None (positions L) Hi) as (ps & Hps).
    rewrite Hps. cbn [bind]. do 3 eexists. reflexivity.
  - inversion Hd as [|? ? _ Hd1]; subst.
    inversion Hd1 as [|? ? [Hc0 Hc1] _]; subst.
    destruct (choice_index c (n0 :: ns) Hc0 Hc1) as (_ & next & _ & Hch);
      [discriminate|].
    rewrite Hch. cbn [bind].
    destruct (assign_total i (Some next) (positions L) Hi) as (ps & Hps).
    rewrite Hps. cbn [bind]. do 3 eexists. reflexivity.
Qed.

Lemma render_from_total (m : Model) (size : nat) (time : Q) :
  roots m <> [] ->
  forall n i L frame draws,
    aligned L -> i + n <= length (positions L) -> i + n <= size ->
    (forall j pos, i <= j ->
       nth_error (positions L) j = Some (Some pos) -> pos < length frame) ->
    Forall unit_draw draws -> 4 * n <= length draws ->
    exists R0, render_from n i L m size time frame draws = Done R0.
Proof.
  intros Hr. induction n as [|n IH];
    intros i L frame draws Hal Hn Hsz Hon Hd Hlen.
  - eexists. reflexivity.
  - assert (Hi : i < length (positions L)) by lia.
    destruct (nth_error (positions L) i) as [[pos|]|] eqn:Hp.
    + destruct (draw_and_move_total m size time L i pos frame draws)
        as (L1 & f1 & d1 & Hdm); try assumption; [lia| |lia|].
      { apply (Hon i); [lia|exact Hp]. }
      destruct (draw_and_move_spec _ _ _ _ _ _ _ _ _ _ _ Hdm)
        as ((Hl1 & Hl2 & Hl3 & Hl4) & Ho & _ & _ & _ & (u1 & Hu1 & Hul)).
      destruct (IH (S i) L1 f1 d1) as (R0 & HR).
      * destruct Hal as [Ha1 Ha2]. split; lia.
      * lia.
      * lia.
      * intros j pos' Hj Hp'. rewrite Ho in Hp' by lia. rewrite Hl4.
        apply (Hon j); [lia|exact Hp'].
      * rewrite Hu1 in Hd. apply Forall_app in Hd. apply Hd.
      * rewrite Hu1, length_app in Hlen. lia.
      * exists R0. cbn [render_from]. rewrite Hp, Hdm. exact HR.
    + destruct (revive_total m L i draws) as (L1 & d1 & Hrv);
        try assumption; [lia|].
      destruct (revive_spec _ _ _ _ _ _ Hrv)
        as ((Hl1 & Hl2 & Hl3) & Ho & _ & (u1 & Hu1 & Hul)).
      destruct (IH (S i) L1 frame d1) as (R0 & HR).
      * destruct Hal as [Ha1 Ha2]. split; lia.
      * lia.
      * lia.
      * intros j pos' Hj Hp'. rewrite Ho in Hp' by lia.
        apply (Hon j); [lia|exact Hp'].
      * rewrite Hu1 in Hd. apply Forall_app in Hd. apply Hd.
      * rewrite Hu1, length_app in Hlen. lia.
      * exists R0. cbn [render_from]. rewrite Hp, Hrv. exact HR.
    + apply nth_error_None in Hp. lia.
Qed.

Lemma init_fits (count n : nat) :
  aligned (init count) /\ on_frame n (init count)
  /\ length (positions (init count)) = count.
Proof.
  unfold aligned, on_frame, init. cbn [positions phases frequencies].
  rewrite !repeat_length. split; [split; reflexivity|]. split.
  - intros pos Hin. apply repeat_spec in Hin. discriminate.
  - reflexivity.
Qed.

(** X27: what a tick does to the slots.  When [ImpulsesLayer.render]
    returns, the three lists keep their lengths; every slot is as it was,
    or was dead and now sits on a root, or was live and is now dead
    because [outwardAdjacency[i]] is empty, or was live and now sits on a
    member of [outwardAdjacency[i]], where [i] is the number of the slot;
    and at most four random draws per slot were consumed, in order. *)
Theorem slots_stay_revive_or_move
    (m : Model) (size : nat) (time : Q) (L : Layer)
    (frame : Lightning.Frame) (draws : list Q) (L' : Layer)
    (frame' : Lightning.Frame) (d' : list Q) :
  render L m size time frame draws = Done (L', frame', d') ->
  (length (positions L') = length (positions L)
   /\ length (phases L') = length (phases L)
   /\ length (frequencies L') = length (frequencies L))
  /\ (forall i p, nth_error (positions L) i = Some p ->
        exists p', nth_error (positions L') i = Some p'
                   /\ slot_step m i p p')
  /\ exists used,
       draws = used ++ d' /\ length used <= 4 * length (positions L).
Proof.
  unfold render. intro H.
  destruct (render_from_spec _ _ _ _ _ _ _ _ _ _ _ H)
    as ((H1 & H2 & H3 & _) & _ & Hs & _ & _ & Hu).
  split; [split; [exact H1|split; [exact H2|exact H3]]|].
  split; [exact Hs|exact Hu].
Qed.

(** [slots_stay_revive_or_move] on a fresh layer of two slots over
    [twig]: the first slot is revived on the root, the second stays
    dead. *)
Lemma slots_stay_revive_or_move_witness :
  let L' := mkLayer [Some 0; None]
                    [random_phase (1 # 2); 0%R]
                    [Lightning.uniform 2 10 (1 # 2); 0%Q] in
  render (init 2) twig 2 0 dark [1 # 100; 0; 1 # 2; 1 # 2; 1 # 2]%Q
  = Done (L', dark, [])
  /\ length (positions L') = 2.
Proof.
  intro L'.
  assert (H : render (init 2) twig 2 0 dark
                [1 # 100; 0; 1 # 2; 1 # 2; 1 # 2]%Q
              = Done (L', dark, [])) by reflexivity.
  split; [exact H|].
  destruct (slots_stay_revive_or_move _ _ _ _ _ _ _ _ _ H) as ((Hl & _) & _).
  exact Hl.
Defined.

(** X28: what a tick draws.  When [ImpulsesLayer.render] returns, every
    live impulse sat on an LED of the frame and had a phase and a
    frequency; the frame keeps its length; every LED has the same amount
    added to its three channels, which is not negative and at most the
    number of slots; and an LED on which no impulse sat before the tick
    is left as it was. *)
Theorem impulses_add_grey
    (m : Model) (size : nat) (time : Q) (L : Layer)
    (frame : Lightning.Frame) (draws : list Q) (L' : Layer)
    (frame' : Lightning.Frame) (d' : list Q) :
  render L m size time frame draws = Done (L', frame', d') ->
  length frame' = length frame
  /\ (forall i pos, nth_error (positions L) i = Some (Some pos) ->
        pos < length frame
        /\ i < length (phases L) /\ i < length (frequencies L))
  /\ (forall led r g b, nth_error frame led = Some (r, g, b) ->
        exists k, (0 <= k <= INR (length (positions L)))%R
          /\ nth_error frame' led = Some (r + k, g + k, b + k)%R
          /\ (~ List.In (Some led) (positions L) ->
              nth_error frame' led = Some (r, g, b))).
Proof.
  unfold render. intro H.
  destruct (render_from_spec _ _ _ _ _ _ _ _ _ _ _ H)
    as ((_ & _ & _ & Hl) & _ & _ & Hon & Hfr & _).
  split; [exact Hl|]. split.
  - intros i pos Hp. apply (Hon i pos); [|exact Hp].
    assert (i < length (positions L))
      by (apply nth_error_Some; rewrite Hp; discriminate).
    lia.
  - intros led r g b Hled.
    destruct (Hfr _ _ _ _ Hled) as (k & Hk & Hf & Hz).
    exists k. split; [exact Hk|]. split; [exact Hf|].
    intro Hno. rewrite Hf, Hz, !Rplus_0_r; [reflexivity|].
    intros j _ Hj. apply Hno. exact (nth_error_In _ _ Hj).
Qed.

(** [impulses_add_grey] for one impulse on the root of [twig] that is
    drawn and stays where it is. *)
Lemma impulses_add_grey_witness :
  let br := brightness 0 2 0 in
  let f := [(0 + br, 0 + br, 0 + br); (0, 0, 0); (0, 0, 0)]%R in
  render lone_impulse twig 2 0 dark [1 # 2]%Q = Done (lone_impulse, f, [])
  /\ length f = length dark.
Proof.
  intros br f.
  assert (H : render lone_impulse twig 2 0 dark [1 # 2]%Q
              = Done (lone_impulse, f, [])) by reflexivity.
  split; [exact H|].
  destruct (impulses_add_grey _ _ _ _ _ _ _ _ _ H) as (Hl & _).
  exact Hl.
Defined.

(** The move of a live impulse in a slot beyond the adjacency table. *)
Lemma draw_and_move_beyond_table (m : Model) (size : nat) (time : Q)
    (L : Layer) (i pos : nat) (frame : Lightning.Frame) (u : Q)
    (rest : list Q) :
  size <= i -> (u < 2 # 10)%Q ->
  draw_and_move L m size time i pos frame (u :: rest) = Raised.
Proof.
  intros Hsize Hu. unfold draw_and_move, item.
  destruct (nth_error (phases L) i) as [ph|]; cbn [bind]; [|reflexivity].
  destruct (nth_error (frequencies L) i) as [fr|]; cbn [bind];
    [|reflexivity].
  destruct (le_lt_dec (length frame) pos) as [Hout|Hin].
  - rewrite (FireflyInvariants.mixAdd_at_beyond _ _ _ Hout). reflexivity.
  - destruct (FireflyInvariants.mixAdd_at_value
                (brightness ph fr time, brightness ph fr time,
                 brightness ph fr time) frame pos Hin) as (f' & Hm & _).
    rewrite Hm. cbn [bind].
    apply Qltb_true in Hu. rewrite Hu. unfold adjacency_at.
    destruct (Nat.ltb_spec i size); [lia|reflexivity].
Qed.

(** X29: the layer keeps running as long as it has no more slots than
    [model.outwardAdjacency] has entries.  On a model with a root whose
    roots and outward neighbours are LEDs of the frame, a layer with at
    most [len(model.outwardAdjacency)] slots whose three lists have the
    same length and whose live impulses sit on LEDs of the frame renders
    without raising, given four draws from [0, 1) per slot, and is again
    such a layer afterwards; a freshly built layer is one.  With more
    slots than table entries it does not: a layer whose slots are all live
    and which has a slot beyond the table raises as soon as the draws make
    no impulse move before that slot and make that one move. *)
Theorem impulses_render_returns
    (m : Model) (size : nat) (time : Q) (L : Layer)
    (frame : Lightning.Frame) (draws : list Q) :
  roots m <> [] ->
  Forall (fun e => e < length frame) (roots m) ->
  (forall i, Forall (fun e => e < length frame) (outwardAdjacency m i)) ->
  aligned L -> on_frame (length frame) L ->
  Forall unit_draw draws ->
  (length (positions L) <= size ->
   4 * length (positions L) <= length draws ->
   exists L' frame' d',
     render L m size time frame draws = Done (L', frame', d')
     /\ aligned L' /\ on_frame (length frame') L'
     /\ length (positions L') = length (positions L))
  /\ (size < length (positions L) ->
      Forall (fun p => p <> None) (positions L) ->
      forall u rest,
        draws = repeat (1 # 2)%Q size ++ u :: rest -> (u < 2 # 10)%Q ->
        render L m size time frame draws = Raised).
Proof.
  intros Hr Hroots Hadj Hal Hon Hd. split.
  - intros Hsize Hlen. unfold render.
    destruct (render_from_total m size time Hr (length (positions L)) 0 L
                frame draws)
      as ([[L' frame'] d'] & HR);
      [exact Hal|lia|lia| |exact Hd|exact Hlen|].
    { intros j pos _ Hp. apply Hon. exact (nth_error_In _ _ Hp). }
    exists L', frame', d'. split; [exact HR|].
    destruct (render_from_spec _ _ _ _ _ _ _ _ _ _ _ HR)
      as ((H1 & H2 & H3 & H4) & _ & Hs & _ & _ & _).
    split; [destruct Hal as [Ha1 Ha2]; split; lia|].
    split; [|exact H1].
    intros pos Hin. rewrite H4.
    destruct (In_nth_error _ _ Hin) as (j & Hj).
    assert (Hjl : j < length (positions L)).
    { rewrite <- H1. apply nth_error_Some. rewrite Hj. discriminate. }
    destruct (nth_error (positions L) j) as [p|] eqn:Hp;
      [|apply nth_error_None in Hp; lia].
    destruct (Hs j p Hp) as (p' & Hp' & Hst).
    rewrite Hj in Hp'. injection Hp' as <-.
    destruct Hst as [<-|[(_ & root & Hroot & Heq)|(_ & [(_ & Heq)|
                       (next & Hnext & Heq)])]].
    + apply Hon. exact (nth_error_In _ _ Hp).
    + injection Heq as ->.
      exact (proj1 (Forall_forall _ _) Hroots _ Hroot).
    + discriminate.
    + injection Heq as ->.
      exact (proj1 (Forall_forall _ _) (Hadj j) _ Hnext).
  - intros Hsize Hlive u rest -> Hu. unfold render.
    assert (Hgen : forall k i frame0,
              i + k = size ->
              length frame0 = length frame ->
              render_from (k + (length (positions L) - size)) i L m size time
                frame0 (repeat (1 # 2)%Q k ++ u :: rest) = Raised).
    { induction k as [|k IH]; intros i frame0 Hik Hfl.
      - cbn [repeat app plus].
        destruct (length (positions L) - size) as [|n] eqn:Hn; [lia|].
        cbn [render_from].
        destruct (nth_error (positions L) i) as [[pos|]|] eqn:Hp;
          [| |reflexivity].
        + rewrite draw_and_move_beyond_table; [reflexivity|lia|exact Hu].
        + exfalso. apply nth_error_In in Hp.
          exact (proj1 (Forall_forall _ _) Hlive _ Hp eq_refl).
      - cbn [repeat app plus render_from].
        destruct (nth_error (positions L) i) as [[pos|]|] eqn:Hp;
          [| |reflexivity].
        + assert (Hpos : pos < length frame0).
          { rewrite Hfl. apply Hon. exact (nth_error_In _ _ Hp). }
          unfold draw_and_move, item.
          destruct (nth_error (phases L) i) as [ph|]; cbn [bind];
            [|reflexivity].
          destruct (nth_error (frequencies L) i) as [fr|]; cbn [bind];
            [|reflexivity].
          destruct (FireflyInvariants.mixAdd_at_value
                      (brightness ph fr time, brightness ph fr time,
                       brightness ph fr time) frame0 pos Hpos)
            as (f' & Hm & Hlf & _).
          rewrite Hm. cbn [bind].
          change (Qltb (1 # 2) (2 # 10)) with false. cbn iota.
          apply IH; [lia|lia].
        + exfalso. apply nth_error_In in Hp.
          exact (proj1 (Forall_forall _ _) Hlive _ Hp eq_refl). }
    replace (length (positions L))
      with (size + (length (positions L) - size)) at 1 by lia.
    apply Hgen; [lia|reflexivity].
Qed.

(** [impulses_render_returns] over [twig], whose table has two entries:
    a fresh layer of two slots renders; three live impulses raise when the
    third is to move. *)
Lemma impulses_render_returns_witness :
  (exists L' frame' d',
     render (init 2) twig 2 0 dark
       [1 # 100; 0; 1 # 2; 1 # 2; 1 # 2; 1 # 2; 1 # 2; 1 # 2]%Q
     = Done (L', frame', d')
     /\ aligned L' /\ on_frame (length frame') L'
     /\ length (positions L') = 2)
  /\ render crowded twig 2 0 dark [1 # 2; 1 # 2; 1 # 10]%Q = Raised.
Proof.
  split.
  - apply (proj1 (impulses_render_returns twig 2 0 (init 2) dark
             [1 # 100; 0; 1 # 2; 1 # 2; 1 # 2; 1 # 2; 1 # 2; 1 # 2]%Q
             ltac:(discriminate)
             ltac:(repeat constructor)
             ltac:(intros [|i]; repeat constructor)
             (proj1 (init_fits 2 3))
             (proj1 (proj2 (init_fits 2 3)))
             ltac:(repeat constructor; discriminate))).
    + cbn. lia.
    + cbn. lia.
  - apply (proj2 (impulses_render_returns twig 2 0 crowded dark
             [1 # 2; 1 # 2; 1 # 10]%Q
             ltac:(discriminate)
             ltac:(repeat constructor)
             ltac:(intros [|i]; repeat constructor)
             ltac:(split; reflexivity)
             ltac:(intros pos [H|[H|[H|[]]]]; injection H as <-; cbn; lia)
             ltac:(repeat constructor; discriminate))
             ltac:(cbn; lia)
             ltac:(repeat constructor; discriminate)
             (1 # 10)%Q []).
    + reflexivity.
    + reflexivity.
Defined.

End ImpulsesFacts.
